(** * asynchrony-lib: workers, pools and the resource pool

    A shallow embedding of the SiddiqSoft asynchrony-lib headers
    ([basic_worker], [simple_worker], [periodic_worker], [basic_pool],
    [simple_pool], [roundrobin_pool], [resource_pool]) together with the
    properties their specification states about them.

    Conventions.
    - Every C++ member function is a computation in a state-and-exception
      monad over the object it is a member of.  A computation ends
      normally, throws (the state reached so far is kept), or has
      undefined behaviour.
    - [uint64_t] and [std::atomic_uint64_t] counters are [Z] with the
      wrap-around modulo [2^64] written out.
    - Threads are interleaved statement by statement; a schedule is a
      list of events.  A test of a stop token, a wait on a semaphore, a
      block under a lock, a release of a semaphore, an increment of a
      counter and a statement of a destructor are events of their own.
      The test [items.empty()] that the threads of [basic_worker] and
      [basic_pool] make outside the lock is one event too: it reads the
      deque in one step, though nothing orders it with the locked block
      of [queue].  A destructor is the list of its statements in program
      order; other threads run between them. *)

From stdpp Require Import base option list numbers strings.
From Stdlib Require Import ZArith Lia.

Set Default Proof Using "Type".

(* ================================================================= *)
(** ** Outcomes of a C++ computation *)

(** The exceptions the library and its collaborators raise. *)
Inductive exn : Type :=
| runtime_error (what : string)   (* std::runtime_error *)
| out_of_range                    (* std::out_of_range, from vector::at *)
| bad_function_call               (* invoking an empty std::function *)
| callback_failure.               (* whatever a user callback throws *)

Inductive outcome (S A : Type) : Type :=
| Normal (a : A) (s : S)          (* returned [a], object now [s] *)
| Throws (e : exn) (s : S)        (* exception in flight, object now [s] *)
| Undefined.                      (* a library precondition was violated *)
Arguments Normal {S A} a s.
Arguments Throws {S A} e s.
Arguments Undefined {S A}.

Definition M (S A : Type) : Type := S -> outcome S A.

Definition ret {S A} (a : A) : M S A := fun s => Normal a s.

Definition bind {S A B} (m : M S A) (k : A -> M S B) : M S B :=
  fun s => match m s with
           | Normal a s' => k a s'
           | Throws e s' => Throws e s'
           | Undefined => Undefined
           end.

Definition throw {S A} (e : exn) : M S A := fun s => Throws e s.
Definition undefined {S A} : M S A := fun _ => Undefined.
Definition get {S} : M S S := fun s => Normal s s.
Definition gets {S A} (f : S -> A) : M S A := fun s => Normal (f s) s.
Definition modify {S} (f : S -> S) : M S unit := fun s => Normal tt (f s).

(** [try { body } catch (...) { }] *)
Definition try_catch_all {S} (body : M S unit) : M S unit :=
  fun s => match body s with
           | Throws _ s' => Normal tt s'
           | r => r
           end.

(** A scope guard ([RunOnEnd], [defer], [popOnDestruct]): [on_exit] runs
    when the scope is left, whether by [return] or by an exception. *)
Definition scope_exit {S A} (on_exit : M S unit) (body : M S A) : M S A :=
  fun s => match body s with
           | Normal a s' =>
               match on_exit s' with
               | Normal _ s'' => Normal a s''
               | Throws e s'' => Throws e s''
               | Undefined => Undefined
               end
           | Throws e s' =>
               match on_exit s' with
               | Normal _ s'' => Throws e s''
               | Throws e' s'' => Undefined   (* std::terminate *)
               | Undefined => Undefined
               end
           | Undefined => Undefined
           end.

Declare Scope cpp_scope.
Delimit Scope cpp_scope with cpp.
Notation "x <- m ;; k" := (bind m (fun x => k))
  (at level 100, m at next level, right associativity) : cpp_scope.
Notation "m ;;; k" := (bind m (fun _ => k))
  (at level 100, right associativity) : cpp_scope.
Open Scope cpp_scope.

(** [uint64_t] arithmetic. *)
Definition uint64_modulus : Z := 2 ^ 64.
Definition uint64_incr (c : Z) : Z := ((c + 1) mod uint64_modulus)%Z.

(* ================================================================= *)
(** ** [std::deque] with element lifetimes

    [push_back] and [pop_front] leave references to the other elements
    valid; [pop_front] ends the lifetime of the front element.  An
    element is named by the number of [push_back]s that preceded its own,
    which never changes; [popped] counts the elements whose lifetime has
    ended. *)
Module deque.
Section deque.
Context {T : Type}.

Record t : Type := mk { popped : nat; elems : list T }.

(** A reference to an element ([T&] or [T&&]). *)
Definition reference : Type := nat.

Definition empty_deque : t := mk 0 [].
Definition empty (d : t) : bool :=
  match elems d with [] => true | _ => false end.
Definition size (d : t) : nat := length (elems d).

Definition push_back (x : T) (d : t) : t := mk (popped d) (elems d ++ [x]).

(** [front()]: a reference to the first element; undefined on an empty
    deque. *)
Definition front (d : t) : option reference :=
  match elems d with [] => None | _ :: _ => Some (popped d) end.

(** [pop_front()]: undefined on an empty deque. *)
Definition pop_front (d : t) : option t :=
  match elems d with [] => None | _ :: rest => Some (mk (S (popped d)) rest) end.

(** Reading through a reference: the element must still be alive. *)
Definition load (r : reference) (d : t) : option T :=
  if r <? popped d then None else elems d !! (r - popped d).
End deque.
Arguments t : clear implicits.
End deque.

(* ================================================================= *)
(** ** include/siddiqsoft/resource_pool.hpp *)
Module resource_pool.
Section resource_pool.
Context {T : Type}.

(** [std::deque<T> _pool]; the recursive mutex serialises the member
    functions, each of which is one atomic step here. *)
Record t : Type := mk { _pool : deque.t T }.

Definition resource_pool : t := mk deque.empty_deque.

(** The items the pool owns, front first. *)
Definition contents (p : t) : list T := deque.elems (_pool p).

Definition getCapacity : M t nat :=
  fun p => if negb (deque.empty (_pool p))
           then Normal (deque.size (_pool p)) p
           else Normal 0 p.

Definition pop_front : M t unit :=
  fun p => match deque.pop_front (_pool p) with
           | Some d => Normal tt (mk d)
           | None => Undefined
           end.

Definition front : M t deque.reference :=
  fun p => match deque.front (_pool p) with
           | Some r => Normal r p
           | None => Undefined
           end.

(** Modelled from the spec: [RunOnEnd], declared in
    siddiqsoft/RunOnEnd.hpp, which is not among these sources.  It is the
    scope guard that runs its callable when the scope it is declared in
    is left, as [defer] of include/siddiqsoft/defer.hpp does. *)
Definition RunOnEnd {A} (callable : M t unit) (scope : M t A) : M t A :=
  scope_exit callable scope.

(** [T&& checkout()].  The value returned is the reference
    [std::move(_pool.front())]; the guard pops the deque when the scope
    of the [if] is left, which is before the caller sees the reference. *)
Definition checkout : M t deque.reference :=
  fun p => if negb (deque.empty (_pool p))
           then RunOnEnd pop_front front p
           else Throws (runtime_error "Empty pool; add something first!") p.

Definition checkin (rsrc : T) : M t unit :=
  modify (fun p => mk (deque.push_back rsrc (_pool p))).

(** Reading the object a reference designates, as the caller does when
    it move-constructs its own item from the reference returned. *)
Definition load (r : deque.reference) : M t T :=
  fun p => match deque.load r (_pool p) with
           | Some v => Normal v p
           | None => Undefined
           end.

(** [auto item = rp.checkout();], as in tests/resource_pool.cpp. *)
Definition checkout_item : M t T := r <- checkout ;; load r.

(** [checkout()], returning with the reference the item that the
    reference designated when the [return] statement was evaluated (a
    history variable: the guard has popped the slot by the time the
    caller holds the reference). *)
Definition checkout_designating : M t T :=
  fun p => match checkout p with
           | Normal r p' =>
               match deque.load r (_pool p) with
               | Some v => Normal v p'
               | None => Undefined
               end
           | Throws e p' => Throws e p'
           | Undefined => Undefined
           end.

(** [checkin] of every item of [l], in order. *)
Fixpoint checkin_all (l : list T) : M t unit :=
  match l with
  | [] => ret tt
  | x :: rest => checkin x ;;; checkin_all rest
  end.

(** [n] calls of [checkout], with the items they designated. *)
Fixpoint checkout_n (n : nat) : M t (list T) :=
  match n with
  | 0 => ret []
  | S k => x <- checkout_designating ;; l <- checkout_n k ;; ret (x :: l)
  end.
End resource_pool.
Arguments t : clear implicits.
End resource_pool.

(* ================================================================= *)
(** ** Library objects the workers are built from *)

(** [std::counting_semaphore<LeastMaxValue>]: the state is the counter.
    [max()] is at least [LeastMaxValue]; libstdc++, libc++ and the MSVC
    library return [LeastMaxValue] itself, which is what [max] is here. *)
Module counting_semaphore.
Definition max (LeastMaxValue : Z) : Z := LeastMaxValue.

(** [release()]: precondition [1 <= max() - counter]; the behaviour is
    undefined otherwise ([None]). *)
Definition release (LeastMaxValue counter : Z) : option Z :=
  if (counter <? max LeastMaxValue)%Z then Some (counter + 1)%Z else None.

(** [try_acquire_for(d)]: decrements a positive counter and returns
    [true]; returns [false] when the counter stayed at zero for the
    whole of [d]. *)
Definition try_acquire_for (counter : Z) : bool * Z :=
  if (0 <? counter)%Z then (true, (counter - 1)%Z) else (false, counter).
End counting_semaphore.

(** How a call of a user callback ends. *)
Inductive completion : Type := returned | raised.

(** [std::function<void(Arg)>].  The target works on the state [U] it
    captured by reference; [None] is the empty function. *)
Definition function (Arg U : Type) : Type := option (Arg -> U -> completion * U).

Definition call {Arg U} (f : function Arg U) (a : Arg) : M U unit :=
  fun u => match f with
           | None => Throws bad_function_call u
           | Some target =>
               match target a u with
               | (returned, u') => Normal tt u'
               | (raised, u') => Throws callback_failure u'
               end
           end.

(** The statement a consumer thread is about to execute.  In the loop
    that [basic_worker::processor] and the threads of [basic_pool] run:
<<
    while (!st.stop_requested()) {                          // at_while
      try {
        if (signal.try_acquire_for(signalWaitInterval)) {   // at_wait
          if (!items.empty() && !st.stop_requested()) {     // at_guard
            T item;
            { lock; item = items.front(); items.pop_front(); } // at_lock
            callback(item);                                 // at_callback
          } } }
      catch (...) { } }
>>
    and in the loop that the threads of [simple_pool] run:
<<
    while (!st.stop_requested()) {                          // at_while
      try {
        if (auto item = getNextItem(signalWaitInterval);    // at_wait, at_lock
            item && !st.stop_requested()) {                 // at_test
          callback(std::move( *item));                      // at_callback
        } }
      catch (...) { } }
>>
    The stop state of a [std::jthread] is an atomic object of its own:
    the test of the [while] is a statement apart from the wait that
    follows it. *)
Inductive pc (T : Type) : Type :=
| at_while
| at_wait
| at_guard
| at_lock
| at_test (item : T)
| at_callback (item : T)
| finished.
Arguments at_while {T}.
Arguments at_wait {T}.
Arguments at_guard {T}.
Arguments at_lock {T}.
Arguments at_test {T} item.
Arguments at_callback {T} item.
Arguments finished {T}.

(** [std::jthread]: its stop state and where its body stands. *)
Record jthread (T : Type) : Type := mk_jthread { stop_requested : bool; location : pc T }.
Arguments mk_jthread {T}.
Arguments stop_requested {T}.
Arguments location {T}.

(** A thread that has been created and has not yet tested its stop
    token. *)
Definition started {T} : jthread T := mk_jthread false at_while.

(** How a thread stands after some turns of its [while] loop. *)
Inductive thread_state : Type := in_loop | left_loop.

(** The item a thread holds in its local [T item] or in its optional,
    if any. *)
Definition holding {T} (th : jthread T) : list T :=
  match location th with at_test x | at_callback x => [x] | _ => [] end.

(** Whether a thread has taken a signal and not yet the item it stands
    for. *)
Definition owes_item {T} (l : pc T) : nat :=
  match l with at_guard | at_lock => 1 | _ => 0 end.

(** The statements a thread of [basic_worker] or [basic_pool] still has
    to run to finish the turn of the loop it is in; a thread at the test
    of the [while] has one to run before the wait when a signal is there
    for it ([work]). *)
Definition statements_left {T} (work : bool) (l : pc T) : nat :=
  match l with
  | at_guard => 4
  | at_lock => 3
  | at_callback _ => 2
  | at_while => if work then 1 else 0
  | _ => 0
  end.
(* ================================================================= *)
(** ** src/basic_worker.hpp *)
Module basic_worker.
Section basic_worker.
Context {T U : Type}.

(** [std::counting_semaphore<512> signal {0}] *)
Definition signal_LeastMaxValue : Z := 512.

Record t : Type := mk {
  items : list T;               (* std::deque<T>, front first *)
  signal : Z;
  signalWaitInterval : Z;       (* milliseconds *)
  callback : function T U;
  processor : jthread T
}.

(** [basic_worker(std::function<void(T&)> c)] *)
Definition basic_worker (c : T -> U -> completion * U) : t :=
  mk [] 0 1500 (Some c) started.

(** [basic_worker(basic_worker&& src)]: the new object and what is left
    of [src].  Only [callback] appears in the initialiser list; the
    other members get their default member initialisers.  A moved-from
    [std::function] is left empty. *)
Definition move_construct (src : t) : t * t :=
  (mk [] 0 1500 (callback src) started,
   mk (items src) (signal src) (signalWaitInterval src) None (processor src)).

Definition set_items (l : list T) (w : t) : t :=
  mk l (signal w) (signalWaitInterval w) (callback w) (processor w).
Definition set_signal (c : Z) (w : t) : t :=
  mk (items w) c (signalWaitInterval w) (callback w) (processor w).
Definition set_signalWaitInterval (d : Z) (w : t) : t :=
  mk (items w) (signal w) d (callback w) (processor w).
Definition set_processor (p : jthread T) (w : t) : t :=
  mk (items w) (signal w) (signalWaitInterval w) (callback w) p.

(** [items.emplace_back(std::move(item))] under the writer lock. *)
Definition emplace_back (item : T) : M t unit :=
  modify (fun w => set_items (items w ++ [item]) w).

(** [signal.release()] *)
Definition release : M t unit :=
  fun w => match counting_semaphore.release signal_LeastMaxValue (signal w) with
           | Some c => Normal tt (set_signal c w)
           | None => Undefined
           end.

(** [void queue(T&& item)] *)
Definition queue (item : T) : M t unit :=
  emplace_back item ;;; release.

(** A producer calls [queue] on each item of [l] in turn. *)
Fixpoint queue_all (l : list T) : M t unit :=
  match l with
  | [] => ret tt
  | x :: rest => queue x ;;; queue_all rest
  end.

(** The worker together with what its callback works on.  [invoked] is
    a history variable: the arguments the callback was called with, in
    order.  [in_queue] counts the producer threads that are inside
    [queue] between its two statements. *)
Record system : Type := mk_system {
  self : t;
  env : U;
  invoked : list T;
  in_queue : nat
}.

Definition running (w : t) (u : U) : system := mk_system w u [] 0.

Definition set_self (w : t) (s : system) : system :=
  mk_system w (env s) (invoked s) (in_queue s).
Definition set_in_queue (n : nat) (s : system) : system :=
  mk_system (self s) (env s) (invoked s) n.

(** A member function running inside the system. *)
Definition member {A} (m : M t A) : M system A :=
  fun s => match m (self s) with
           | Normal a w => Normal a (set_self w s)
           | Throws e w => Throws e (set_self w s)
           | Undefined => Undefined
           end.

(** [signal.try_acquire_for(signalWaitInterval)] *)
Definition try_acquire_for : M t bool :=
  fun w => let '(ok, c) := counting_semaphore.try_acquire_for (signal w) in
           Normal ok (set_signal c w).

(** [!items.empty() && !st.stop_requested()] *)
Definition guard : M t bool :=
  gets (fun w => negb (match items w with [] => true | _ => false end)
                 && negb (stop_requested (processor w))).

(** [item = items.front(); items.pop_front();] under the writer lock;
    both are undefined on an empty deque. *)
Definition take_front : M t T :=
  fun w => match items w with
           | [] => Undefined
           | x :: rest => Normal x (set_items rest w)
           end.

(** [callback(item)] *)
Definition invoke (item : T) : M system unit :=
  fun s => match callback (self s) with
           | None => Throws bad_function_call s
           | Some _ =>
               let s1 := mk_system (self s) (env s) (invoked s ++ [item]) (in_queue s) in
               match call (callback (self s)) item (env s) with
               | Normal _ u => Normal tt (mk_system (self s1) u (invoked s1) (in_queue s1))
               | Throws e u => Throws e (mk_system (self s1) u (invoked s1) (in_queue s1))
               | Undefined => Undefined
               end
           end.

(** The [try] block of the processor loop. *)
Definition loop_body : M system unit :=
  ok <- member try_acquire_for ;;
  if ok : bool then
    g <- member guard ;;
    if g : bool then item <- member take_front ;; invoke item
    else ret tt
  else ret tt.

(** One turn of the loop: [try { ... } catch (...) { }]. *)
Definition loop_iteration : M system unit := try_catch_all loop_body.

(** [while (!st.stop_requested()) { try { ... } catch (...) { } }],
    followed for at most [turns] turns. *)
Fixpoint processor_loop (turns : nat) : M system thread_state :=
  match turns with
  | 0 => ret in_loop
  | S n =>
      stop <- gets (fun s => stop_requested (processor (self s))) ;;
      if stop : bool then ret left_loop
      else loop_iteration ;;; processor_loop n
  end.

(** *** Interleaving with producers *)

Definition goto (l : pc T) : M t unit :=
  modify (fun w => set_processor (mk_jthread (stop_requested (processor w)) l) w).

(** The next statement of the processor thread.  A wait that finds no
    signal is one that timed out.  [at_test] is no statement of this
    loop. *)
Definition consumer_step : M system unit :=
  fun s =>
    match location (processor (self s)) with
    | at_while =>
        if stop_requested (processor (self s)) then member (goto finished) s
        else member (goto at_wait) s
    | at_wait =>
        (ok <- member try_acquire_for ;;
         if ok : bool then member (goto at_guard) else member (goto at_while)) s
    | at_guard =>
        (g <- member guard ;;
         if g : bool then member (goto at_lock) else member (goto at_while)) s
    | at_lock =>
        (item <- member take_front ;; member (goto (at_callback item))) s
    | at_callback item =>
        (try_catch_all (invoke item) ;;; member (goto at_while)) s
    | at_test _ => Normal tt s
    | finished => Normal tt s
    end.

(** [processor.request_stop()] *)
Definition request_stop : M t unit :=
  modify (fun w => set_processor (mk_jthread true (location (processor w))) w).

Inductive event : Type :=
| queue_push (item : T)    (* a producer runs the locked block of queue *)
| queue_signal             (* a producer inside queue runs signal.release() *)
| consumer                 (* the processor thread runs its next statement *)
| destroy_interval         (* the owner, in the destructor: signalWaitInterval = 0ms *)
| destroy_release          (* the owner, in the destructor: signal.release() *)
| destroy_request_stop.    (* the owner, in the destructor: processor.request_stop() *)

(** [~basic_worker()]: its statements in program order.  The [join] that
    follows returns when the thread has reached [finished]. *)
Definition destructor : list event :=
  [destroy_interval; destroy_release; destroy_request_stop].

(** Whether an event is a statement of the destructor. *)
Definition destroying (e : event) : bool :=
  match e with
  | destroy_interval | destroy_release | destroy_request_stop => true
  | _ => false
  end.

Definition step (e : event) : M system unit :=
  match e with
  | queue_push item =>
      member (emplace_back item) ;;; modify (fun s => set_in_queue (S (in_queue s)) s)
  | queue_signal =>
      fun s => match in_queue s with
               | 0 => Normal tt s
               | S n => (member release ;;; modify (set_in_queue n)) s
               end
  | consumer => consumer_step
  | destroy_interval => member (modify (set_signalWaitInterval 0))
  | destroy_release => member release
  | destroy_request_stop => member request_stop
  end.

Fixpoint run (schedule : list event) : M system unit :=
  match schedule with
  | [] => ret tt
  | e :: rest => step e ;;; run rest
  end.

(** The items the producers appended, in order. *)
Fixpoint pushed (schedule : list event) : list T :=
  match schedule with
  | [] => []
  | queue_push x :: rest => x :: pushed rest
  | _ :: rest => pushed rest
  end.

(** What a turn of the processor loop leaves untouched. *)
Definition frame (s s' : system) : Prop :=
  callback (self s') = callback (self s)
  /\ processor (self s') = processor (self s)
  /\ in_queue s' = in_queue s.

(** Every item the worker was given, oldest first: those the callback
    was called with, the one the thread holds, those in the deque. *)
Definition history (s : system) : list T :=
  invoked s ++ holding (processor (self s)) ++ items (self s).

(** The thread runs: no stop was requested, the callback is set, and the
    thread stands at a statement of its loop. *)
Definition live (s : system) : Prop :=
  stop_requested (processor (self s)) = false
  /\ location (processor (self s)) <> finished
  /\ (forall x, location (processor (self s)) <> at_test x)
  /\ callback (self s) <> None.

(** Every item in the deque is matched by a signal, by a producer about
    to release one, or by the thread that took the signal. *)
Definition balanced (s : system) : Prop :=
  (0 <= signal (self s))%Z
  /\ Z.of_nat (length (items (self s)))
     = (signal (self s) + Z.of_nat (in_queue s)
        + Z.of_nat (owes_item (location (processor (self s)))))%Z.

(** The statements the thread has to run before every signalled item has
    been through the callback: five for each signal in the semaphore, and
    those of the turn under way. *)
Definition remaining (s : system) : nat :=
  5 * Z.to_nat (signal (self s))
  + statements_left (0 <? signal (self s))%Z (location (processor (self s))).
End basic_worker.
Arguments t : clear implicits.
Arguments system : clear implicits.
Arguments event : clear implicits.
End basic_worker.

(* ================================================================= *)
(** ** src/simple_worker.hpp *)
Module simple_worker.
Section simple_worker.
Context {T U : Type}.

Definition signal_LeastMaxValue : Z := 512.

Record t : Type := mk {
  queueCounter : Z;             (* uint64_t *)
  items : list T;
  signal : Z;
  signalWaitInterval : Z;
  callback : function T U;
  processor : jthread T
}.

(** [simple_worker(std::function<void(T&)> c)] *)
Definition simple_worker (c : T -> U -> completion * U) : t :=
  mk 0 [] 0 1500 (Some c) started.

(** [simple_worker(simple_worker&& src)] *)
Definition move_construct (src : t) : t * t :=
  (mk 0 [] 0 1500 (callback src) started,
   mk (queueCounter src) (items src) (signal src) (signalWaitInterval src)
      None (processor src)).

Definition set_items (l : list T) (w : t) : t :=
  mk (queueCounter w) l (signal w) (signalWaitInterval w) (callback w) (processor w).
Definition set_signal (c : Z) (w : t) : t :=
  mk (queueCounter w) (items w) c (signalWaitInterval w) (callback w) (processor w).
Definition set_queueCounter (c : Z) (w : t) : t :=
  mk c (items w) (signal w) (signalWaitInterval w) (callback w) (processor w).

Definition release : M t unit :=
  fun w => match counting_semaphore.release signal_LeastMaxValue (signal w) with
           | Some c => Normal tt (set_signal c w)
           | None => Undefined
           end.

(** [void queue(T&& item)] *)
Definition queue (item : T) : M t unit :=
  modify (fun w => set_items (items w ++ [item]) w) ;;;
  modify (fun w => set_queueCounter (uint64_incr (queueCounter w)) w) ;;;
  release.

Definition try_acquire_for : M t bool :=
  fun w => let '(ok, c) := counting_semaphore.try_acquire_for (signal w) in
           Normal ok (set_signal c w).

(** [popOnDestruct::pop()]: the front item, moved out of its slot. *)
Definition popOnDestruct_pop : M t T :=
  fun w => match items w with
           | [] => Undefined
           | x :: _ => Normal x w
           end.

(** [~popOnDestruct()] *)
Definition popOnDestruct_destructor : M t unit :=
  modify (fun w => match items w with
                   | [] => w
                   | _ :: rest => set_items rest w
                   end).

(** [std::optional<T> getNextItem(std::chrono::milliseconds&)] *)
Definition getNextItem : M t (option T) :=
  ok <- try_acquire_for ;;
  if ok : bool then
    fun w => match items w with
             | [] => Normal None w
             | _ :: _ =>
                 scope_exit popOnDestruct_destructor
                   (x <- popOnDestruct_pop ;; ret (Some x)) w
             end
  else ret None.

Record system : Type := mk_system { self : t; env : U; invoked : list T }.

Definition member {A} (m : M t A) : M system A :=
  fun s => match m (self s) with
           | Normal a w => Normal a (mk_system w (env s) (invoked s))
           | Throws e w => Throws e (mk_system w (env s) (invoked s))
           | Undefined => Undefined
           end.

(** The call of [callback] on the item the optional holds. *)
Definition invoke (item : T) : M system unit :=
  fun s => match callback (self s) with
           | None => Throws bad_function_call s
           | Some _ =>
               match call (callback (self s)) item (env s) with
               | Normal _ u => Normal tt (mk_system (self s) u (invoked s ++ [item]))
               | Throws e u => Throws e (mk_system (self s) u (invoked s ++ [item]))
               | Undefined => Undefined
               end
           end.

(** The [try] block of the processor loop. *)
Definition loop_body : M system unit :=
  item <- member getNextItem ;;
  stop <- gets (fun s => stop_requested (processor (self s))) ;;
  match item with
  | Some x => if negb stop then invoke x else ret tt
  | None => ret tt
  end.

Definition loop_iteration : M system unit := try_catch_all loop_body.

(** A call made on the worker from one thread: [queue(item)] by a
    producer, or [getNextItem] by the processor. *)
Inductive operation : Type :=
| do_queue (item : T)
| do_getNextItem.

(** The calls of [ops] made one after the other; the result is what the
    calls of [getNextItem] returned, in order. *)
Fixpoint perform (ops : list operation) : M t (list (option T)) :=
  match ops with
  | [] => ret []
  | do_queue item :: rest => queue item ;;; perform rest
  | do_getNextItem :: rest =>
      r <- getNextItem ;; l <- perform rest ;; ret (r :: l)
  end.

(** The items the calls of [ops] enqueue, in order. *)
Fixpoint queued (ops : list operation) : list T :=
  match ops with
  | [] => []
  | do_queue item :: rest => item :: queued rest
  | do_getNextItem :: rest => queued rest
  end.

(** The items among the results of [getNextItem]. *)
Definition handed_out (results : list (option T)) : list T :=
  concat (map (fun r => match r with Some x => [x] | None => [] end) results).
End simple_worker.
Arguments t : clear implicits.
Arguments system : clear implicits.
End simple_worker.

(* ================================================================= *)
(** ** src/periodic_worker.hpp *)
Module periodic_worker.
Section periodic_worker.
Context {U : Type}.

(** [std::counting_semaphore<1> signal {0}] *)
Definition signal_LeastMaxValue : Z := 1.

Record t : Type := mk {
  threadName : string;
  invokeCounter : Z;            (* uint64_t *)
  signal : Z;
  invokePeriod : Z;             (* microseconds *)
  callback : function unit U;
  processor : jthread unit
}.

(** [periodic_worker(std::function<void()> c, microseconds interval,
    const std::string& name)] *)
Definition periodic_worker (c : U -> completion * U) (interval : Z)
    (name : string) : t :=
  mk name 0 0 interval (Some (fun _ => c)) started.

Definition set_signal (c : Z) (w : t) : t :=
  mk (threadName w) (invokeCounter w) c (invokePeriod w) (callback w) (processor w).
Definition set_invokeCounter (c : Z) (w : t) : t :=
  mk (threadName w) c (signal w) (invokePeriod w) (callback w) (processor w).

(** [completions] is a history variable: how each call of the callback
    ended, in order. *)
Record system : Type := mk_system { self : t; env : U; completions : list completion }.

Definition member {A} (m : M t A) : M system A :=
  fun s => match m (self s) with
           | Normal a w => Normal a (mk_system w (env s) (completions s))
           | Throws e w => Throws e (mk_system w (env s) (completions s))
           | Undefined => Undefined
           end.

(** [auto _ = signal.try_acquire_for(invokePeriod);] *)
Definition try_acquire_for : M t bool :=
  fun w => let '(ok, c) := counting_semaphore.try_acquire_for (signal w) in
           Normal ok (set_signal c w).

(** [callback()] *)
Definition invoke : M system unit :=
  fun s => match callback (self s) with
           | None => Throws bad_function_call s
           | Some target =>
               match target tt (env s) with
               | (returned, u) =>
                   Normal tt (mk_system (self s) u (completions s ++ [returned]))
               | (raised, u) =>
                   Throws callback_failure (mk_system (self s) u (completions s ++ [raised]))
               end
           end.

(** The [try] block of the processor loop. *)
Definition loop_body : M system unit :=
  _ <- member try_acquire_for ;;
  stop <- gets (fun s => stop_requested (processor (self s))) ;;
  if negb stop then
    invoke ;;;
    member (modify (fun w => set_invokeCounter (uint64_incr (invokeCounter w)) w))
  else ret tt.

Definition loop_iteration : M system unit := try_catch_all loop_body.

(** [while (!st.stop_requested()) { try { ... } catch (...) { } }],
    followed for at most [turns] turns. *)
Fixpoint processor_loop (turns : nat) : M system thread_state :=
  match turns with
  | 0 => ret in_loop
  | S n =>
      stop <- gets (fun s => stop_requested (processor (self s))) ;;
      if stop : bool then ret left_loop
      else loop_iteration ;;; processor_loop n
  end.

(** The number of calls of the callback that returned normally. *)
Fixpoint count_returned (l : list completion) : nat :=
  match l with
  | [] => 0
  | returned :: rest => S (count_returned rest)
  | raised :: rest => count_returned rest
  end.
Definition completed (s : system) : nat := count_returned (completions s).

(** [invokeCounter] is the number of completed calls, as a [uint64_t]. *)
Definition counter_consistent (s : system) : Prop :=
  invokeCounter (self s) = (Z.of_nat (completed s) mod uint64_modulus)%Z.

(** What a turn of the processor loop leaves untouched. *)
Definition frame (s s' : system) : Prop :=
  callback (self s') = callback (self s)
  /\ processor (self s') = processor (self s).

(** *** The thread and the destructor, statement by statement *)

Definition set_processor (p : jthread unit) (w : t) : t :=
  mk (threadName w) (invokeCounter w) (signal w) (invokePeriod w) (callback w) p.
Definition set_invokePeriod (d : Z) (w : t) : t :=
  mk (threadName w) (invokeCounter w) (signal w) d (callback w) (processor w).

Definition goto (l : pc unit) : M t unit :=
  modify (fun w => set_processor (mk_jthread (stop_requested (processor w)) l) w).

(** The next statement of the processor thread:
<<
    while (!st.stop_requested()) {                       // at_while
      try {
        auto _ = signal.try_acquire_for(invokePeriod);   // at_wait
        if (!st.stop_requested()) {                      // at_guard
          callback(); invokeCounter++;                   // at_callback
        } }
      catch (...) { } }
>>
    [at_lock] and [at_test] are no statements of this loop. *)
Definition thread_step : M system unit :=
  fun s =>
    match location (processor (self s)) with
    | at_while =>
        if stop_requested (processor (self s)) then member (goto finished) s
        else member (goto at_wait) s
    | at_wait =>
        (_ <- member try_acquire_for ;; member (goto at_guard)) s
    | at_guard =>
        if stop_requested (processor (self s)) then member (goto at_while) s
        else member (goto (at_callback tt)) s
    | at_callback _ =>
        (try_catch_all
           (invoke ;;;
            member (modify (fun w => set_invokeCounter (uint64_incr (invokeCounter w)) w))) ;;;
         member (goto at_while)) s
    | at_lock => Normal tt s
    | at_test _ => Normal tt s
    | finished => Normal tt s
    end.

(** [signal.release()] *)
Definition release : M t unit :=
  fun w => match counting_semaphore.release signal_LeastMaxValue (signal w) with
           | Some c => Normal tt (set_signal c w)
           | None => Undefined
           end.

(** [processor.request_stop()] *)
Definition request_stop : M t unit :=
  modify (fun w => set_processor (mk_jthread true (location (processor w))) w).

Inductive event : Type :=
| tick                     (* the processor thread runs its next statement *)
| destroy_period           (* the owner, in the destructor: invokePeriod = 0ms *)
| destroy_release          (* the owner, in the destructor: signal.release() *)
| destroy_request_stop.    (* the owner, in the destructor: processor.request_stop() *)

(** [~periodic_worker()]: its statements in program order.  The [join]
    that follows returns when the thread has reached [finished]. *)
Definition destructor : list event :=
  [destroy_period; destroy_release; destroy_request_stop].

Definition step (e : event) : M system unit :=
  match e with
  | tick => thread_step
  | destroy_period => member (modify (set_invokePeriod 0))
  | destroy_release => member release
  | destroy_request_stop => member request_stop
  end.

Fixpoint run (schedule : list event) : M system unit :=
  match schedule with
  | [] => ret tt
  | e :: rest => step e ;;; run rest
  end.

(** The statements of the destructor in a schedule. *)
Fixpoint destructor_part (schedule : list event) : list event :=
  match schedule with
  | [] => []
  | tick :: rest => destructor_part rest
  | e :: rest => e :: destructor_part rest
  end.

End periodic_worker.
Arguments t : clear implicits.
Arguments system : clear implicits.
End periodic_worker.

(* ================================================================= *)
(** ** src/basic_pool.hpp *)
Module basic_pool.
Section basic_pool.
Context {T U : Type}.

Definition signal_LeastMaxValue : Z := 512.

Record t : Type := mk {
  queueCounter : Z;             (* std::atomic_uint64_t *)
  workers : list (jthread T);   (* std::vector<std::jthread> *)
  callback : function T U;
  signal : Z;
  items : list T;
  signalWaitInterval : Z
}.

(** The number of threads: [(N > 0) ? N : hardware_concurrency()]. *)
Definition pool_size (N hardware_concurrency : nat) : nat :=
  if 0 <? N then N else hardware_concurrency.

(** [basic_pool(std::function<void(T&)> c)] for the template argument
    [N]. *)
Definition basic_pool (N hardware_concurrency : nat)
    (c : T -> U -> completion * U) : t :=
  mk 0 (replicate (pool_size N hardware_concurrency) started) (Some c) 0 [] 1500.

Definition set_items (l : list T) (p : t) : t :=
  mk (queueCounter p) (workers p) (callback p) (signal p) l (signalWaitInterval p).
Definition set_signal (c : Z) (p : t) : t :=
  mk (queueCounter p) (workers p) (callback p) c (items p) (signalWaitInterval p).
Definition set_queueCounter (c : Z) (p : t) : t :=
  mk c (workers p) (callback p) (signal p) (items p) (signalWaitInterval p).
Definition set_workers (l : list (jthread T)) (p : t) : t :=
  mk (queueCounter p) l (callback p) (signal p) (items p) (signalWaitInterval p).

Definition emplace_back (item : T) : M t unit :=
  modify (fun p => set_items (items p ++ [item]) p).

Definition release : M t unit :=
  fun p => match counting_semaphore.release signal_LeastMaxValue (signal p) with
           | Some c => Normal tt (set_signal c p)
           | None => Undefined
           end.

(** [void queue(T&& item)] *)
Definition queue (item : T) : M t unit :=
  emplace_back item ;;;
  release ;;;
  modify (fun p => set_queueCounter (uint64_incr (queueCounter p)) p).

(** The pool together with what its callback works on.  [invoked] is a
    history variable: the arguments the callback was called with, in
    order.  [in_queue] counts the producers inside [queue] between the
    locked block and [signal.release()], [counting] those between
    [signal.release()] and [++queueCounter]. *)
Record system : Type := mk_system {
  self : t;
  env : U;
  invoked : list T;
  in_queue : nat;
  counting : nat
}.

Definition running (p : t) (u : U) : system := mk_system p u [] 0 0.

Definition set_in_queue (n : nat) (s : system) : system :=
  mk_system (self s) (env s) (invoked s) n (counting s).
Definition set_counting (n : nat) (s : system) : system :=
  mk_system (self s) (env s) (invoked s) (in_queue s) n.

Definition member {A} (m : M t A) : M system A :=
  fun s => match m (self s) with
           | Normal a p => Normal a (mk_system p (env s) (invoked s) (in_queue s) (counting s))
           | Throws e p => Throws e (mk_system p (env s) (invoked s) (in_queue s) (counting s))
           | Undefined => Undefined
           end.

Definition try_acquire_for : M t bool :=
  fun p => let '(ok, c) := counting_semaphore.try_acquire_for (signal p) in
           Normal ok (set_signal c p).

(** [!items.empty() && !st.stop_requested()] in thread [th]. *)
Definition guard (th : jthread T) : M t bool :=
  gets (fun p => negb (match items p with [] => true | _ => false end)
                 && negb (stop_requested th)).

Definition take_front : M t T :=
  fun p => match items p with
           | [] => Undefined
           | x :: rest => Normal x (set_items rest p)
           end.

Definition invoke (item : T) : M system unit :=
  fun s => match callback (self s) with
           | None => Throws bad_function_call s
           | Some _ =>
               match call (callback (self s)) item (env s) with
               | Normal _ u =>
                   Normal tt (mk_system (self s) u (invoked s ++ [item])
                                (in_queue s) (counting s))
               | Throws e u =>
                   Throws e (mk_system (self s) u (invoked s ++ [item])
                               (in_queue s) (counting s))
               | Undefined => Undefined
               end
           end.

(** Thread [i] moves to statement [l]. *)
Definition goto (i : nat) (th : jthread T) (l : pc T) : M t unit :=
  modify (fun p => set_workers (<[i := mk_jthread (stop_requested th) l]> (workers p)) p).

(** The next statement of thread [i] of the pool.  A wait that finds no
    signal is one that timed out.  [at_test] is no statement of this
    loop. *)
Definition thread_step (i : nat) : M system unit :=
  fun s =>
    match workers (self s) !! i with
    | None => Normal tt s
    | Some th =>
        match location th with
        | at_while =>
            if stop_requested th then member (goto i th finished) s
            else member (goto i th at_wait) s
        | at_wait =>
            (ok <- member try_acquire_for ;;
             if ok : bool then member (goto i th at_guard)
             else member (goto i th at_while)) s
        | at_guard =>
            (g <- member (guard th) ;;
             if g : bool then member (goto i th at_lock)
             else member (goto i th at_while)) s
        | at_lock =>
            (item <- member take_front ;; member (goto i th (at_callback item))) s
        | at_callback item =>
            (try_catch_all (invoke item) ;;; member (goto i th at_while)) s
        | at_test _ => Normal tt s
        | finished => Normal tt s
        end
    end.

Inductive event : Type :=
| queue_push (item : T)    (* a producer runs the locked block of queue *)
| queue_signal             (* a producer inside queue runs signal.release() *)
| queue_count              (* a producer inside queue runs ++queueCounter *)
| thread (i : nat).        (* thread i runs its next statement *)

Definition step (e : event) : M system unit :=
  match e with
  | queue_push item =>
      member (emplace_back item) ;;; modify (fun s => set_in_queue (S (in_queue s)) s)
  | queue_signal =>
      fun s => match in_queue s with
               | 0 => Normal tt s
               | S n =>
                   (member release ;;;
                    modify (fun s => set_counting (S (counting s)) (set_in_queue n s))) s
               end
  | queue_count =>
      fun s => match counting s with
               | 0 => Normal tt s
               | S n =>
                   (member (modify (fun p => set_queueCounter (uint64_incr (queueCounter p)) p)) ;;;
                    modify (set_counting n)) s
               end
  | thread i => thread_step i
  end.

Fixpoint run (schedule : list event) : M system unit :=
  match schedule with
  | [] => ret tt
  | e :: rest => step e ;;; run rest
  end.

Fixpoint pushed (schedule : list event) : list T :=
  match schedule with
  | [] => []
  | queue_push x :: rest => x :: pushed rest
  | _ :: rest => pushed rest
  end.

(** The items held in the threads' local variables. *)
Definition in_flight (p : t) : list T := concat (map holding (workers p)).

(** Every item the pool was given: those the callback was called with,
    those the threads hold, those in the deque. *)
Definition accounted (s : system) : list T :=
  invoked s ++ in_flight (self s) ++ items (self s).

(** The threads run: no stop was requested, the callback is set, and
    every thread stands at a statement of its loop. *)
Definition live (s : system) : Prop :=
  callback (self s) <> None
  /\ Forall (fun th => stop_requested th = false /\ location th <> finished
                       /\ forall x, location th <> at_test x)
       (workers (self s)).

(** The threads that have taken a signal and not yet its item. *)
Definition owed (ws : list (jthread T)) : nat :=
  sum_list_with (fun th => owes_item (location th)) ws.

(** Every item in the deque is matched by a signal, by a producer about
    to release one, or by a thread that took the signal. *)
Definition balanced (s : system) : Prop :=
  (0 <= signal (self s))%Z
  /\ Z.of_nat (length (items (self s)))
     = (signal (self s) + Z.of_nat (in_queue s)
        + Z.of_nat (owed (workers (self s))))%Z.

(** The statements the threads have to run before every signalled item
    has been through the callback: five for each signal in the
    semaphore, and those of the turns under way. *)
Definition remaining (s : system) : nat :=
  5 * Z.to_nat (signal (self s))
  + sum_list_with (fun th => statements_left (0 <? signal (self s))%Z (location th))
      (workers (self s)).

(** A fair round of a pool of [n] threads: every thread runs at least one
    statement. *)
Definition fair_round (n : nat) (r : list nat) : Prop :=
  forall i, i < n -> In i r.

(** *** The destructor *)

Definition set_signalWaitInterval (d : Z) (p : t) : t :=
  mk (queueCounter p) (workers p) (callback p) (signal p) (items p) d.

(** [t.request_stop()] on thread [i] of the vector. *)
Definition request_stop (i : nat) : M t unit :=
  modify (fun p => set_workers
                     (alter (fun th => mk_jthread true (location th)) i (workers p)) p).

(** The statements of the body of [~basic_pool()] next to those of the
    producers and of the pool's threads. *)
Inductive shutdown_event : Type :=
| pool_event (e : event)
| destructor_interval              (* signalWaitInterval = 0ms *)
| destructor_release               (* signal.release() *)
| destructor_request_stop (i : nat).   (* t.request_stop(), t being thread i *)

Definition shutdown_step (e : shutdown_event) : M system unit :=
  match e with
  | pool_event e => step e
  | destructor_interval => member (modify (set_signalWaitInterval 0))
  | destructor_release => member release
  | destructor_request_stop i => member (request_stop i)
  end.

Fixpoint shutdown_run (schedule : list shutdown_event) : M system unit :=
  match schedule with
  | [] => ret tt
  | e :: rest => shutdown_step e ;;; shutdown_run rest
  end.

(** The statements of the loop [for (auto& t : workers)] of the
    destructor, from thread [i] on, [n] threads being left. *)
Fixpoint destructor_loop (i n : nat) : list shutdown_event :=
  match n with
  | 0 => []
  | S k => destructor_release :: destructor_request_stop i :: destructor_loop (S i) k
  end.

(** The body of [~basic_pool()]: its statements in program order, in a
    pool of [n] threads.  It joins no thread. *)
Definition destructor (n : nat) : list shutdown_event :=
  destructor_interval :: destructor_loop 0 n.

(** The statements of the destructor in a schedule. *)
Fixpoint destructor_part (schedule : list shutdown_event) : list shutdown_event :=
  match schedule with
  | [] => []
  | pool_event _ :: rest => destructor_part rest
  | e :: rest => e :: destructor_part rest
  end.

(** *** The members after the body of the destructor

    When the body of [~basic_pool()] has returned, the members are
    destroyed in the reverse of the order of their declaration:
    [signalWaitInterval], [items_mutex], [items], [signal], [callback],
    and then [workers], declared before them; it is the destructor of
    each [std::jthread] in [workers] that joins its thread. *)
Inductive member_object : Type :=
| the_signalWaitInterval
| the_items_mutex
| the_items
| the_signal
| the_callback.

Definition member_object_eqb (a b : member_object) : bool :=
  match a, b with
  | the_signalWaitInterval, the_signalWaitInterval
  | the_items_mutex, the_items_mutex
  | the_items, the_items
  | the_signal, the_signal
  | the_callback, the_callback => true
  | _, _ => false
  end.

Definition destruction_order : list member_object :=
  [the_signalWaitInterval; the_items_mutex; the_items; the_signal; the_callback].

(** The members of class type that the statement at [l] uses. *)
Definition uses (l : pc T) : list member_object :=
  match l with
  | at_wait => [the_signal]
  | at_guard => [the_items]
  | at_lock => [the_items_mutex; the_items]
  | at_callback _ => [the_callback]
  | _ => []
  end.

(** The pool while it is destroyed: [gone] lists the members whose
    lifetime has ended. *)
Record dying : Type := mk_dying { sys : system; gone : list member_object }.

Inductive dying_event : Type :=
| during (e : shutdown_event)        (* a statement of a thread, a producer or the body *)
| destroy_member (m : member_object).   (* the destructor of a member *)

Definition uses_gone (i : nat) (d : dying) : bool :=
  match workers (self (sys d)) !! i with
  | Some th =>
      existsb (fun m => existsb (member_object_eqb m) (gone d)) (uses (location th))
  | None => false
  end.

(** A statement of a thread on a member whose lifetime has ended is
    undefined. *)
Definition dying_step (e : dying_event) : M dying unit :=
  fun d =>
    match e with
    | during e =>
        if match e with pool_event (thread i) => uses_gone i d | _ => false end
        then Undefined
        else match shutdown_step e (sys d) with
             | Normal _ s => Normal tt (mk_dying s (gone d))
             | Throws x s => Throws x (mk_dying s (gone d))
             | Undefined => Undefined
             end
    | destroy_member m => Normal tt (mk_dying (sys d) (gone d ++ [m]))
    end.

Fixpoint dying_run (schedule : list dying_event) : M dying unit :=
  match schedule with
  | [] => ret tt
  | e :: rest => dying_step e ;;; dying_run rest
  end.
End basic_pool.
Arguments t : clear implicits.
Arguments system : clear implicits.
Arguments event : clear implicits.
Arguments shutdown_event : clear implicits.
Arguments dying : clear implicits.
Arguments dying_event : clear implicits.
End basic_pool.

(* ================================================================= *)
(** ** include/simple_pool.hpp *)
Module simple_pool.
Section simple_pool.
Context {T U : Type}.

(** [std::counting_semaphore<> signal {0}]: the default
    [LeastMaxValue] is implementation-defined. *)
Variable signal_LeastMaxValue : Z.

Record t : Type := mk {
  queueCounter : Z;
  workers : list (jthread T);
  callback : function T U;
  signal : Z;
  items : list T;
  signalWaitInterval : Z
}.

Definition pool_size (N hardware_concurrency : nat) : nat :=
  if 0 <? N then N else hardware_concurrency.

(** [simple_pool(std::function<void(T&&)> c)] *)
Definition simple_pool (N hardware_concurrency : nat)
    (c : T -> U -> completion * U) : t :=
  mk 0 (replicate (pool_size N hardware_concurrency) started) (Some c) 0 [] 1500.

Definition set_items (l : list T) (p : t) : t :=
  mk (queueCounter p) (workers p) (callback p) (signal p) l (signalWaitInterval p).
Definition set_signal (c : Z) (p : t) : t :=
  mk (queueCounter p) (workers p) (callback p) c (items p) (signalWaitInterval p).
Definition set_queueCounter (c : Z) (p : t) : t :=
  mk c (workers p) (callback p) (signal p) (items p) (signalWaitInterval p).

Definition emplace_back (item : T) : M t unit :=
  modify (fun p => set_items (items p ++ [item]) p).

Definition release : M t unit :=
  fun p => match counting_semaphore.release signal_LeastMaxValue (signal p) with
           | Some c => Normal tt (set_signal c p)
           | None => Undefined
           end.

(** [void queue(T&& item)] *)
Definition queue (item : T) : M t unit :=
  emplace_back item ;;;
  release ;;;
  modify (fun p => set_queueCounter (uint64_incr (queueCounter p)) p).

Definition try_acquire_for : M t bool :=
  fun p => let '(ok, c) := counting_semaphore.try_acquire_for (signal p) in
           Normal ok (set_signal c p).

(** The block of [getNextItem] that runs under the writer lock:
<<
    if (!items.empty()) {
        T item {std::move(items.front())};
        items.pop_front();
        return std::move(item);
    }
>> *)
Definition locked_extract : M t (option T) :=
  fun p => match items p with
           | [] => Normal None p
           | x :: rest => Normal (Some x) (set_items rest p)
           end.

(** [std::optional<T> getNextItem(std::chrono::milliseconds&)] *)
Definition getNextItem : M t (option T) :=
  ok <- try_acquire_for ;;
  if ok : bool then locked_extract else ret None.

(** The pool as producers and consumers see it. [extracted] is a
    history variable: the items [getNextItem] handed out, in the order
    of the locked blocks.  [in_queue] counts the producers between the
    locked block and [signal.release()] of [queue], [past_wait] the
    consumers between the wait and the locked block of [getNextItem],
    [counting] the producers between [signal.release()] and
    [++queueCounter]. *)
Record observed : Type := mk_observed {
  self : t;
  extracted : list T;
  in_queue : nat;
  past_wait : nat;
  counting : nat
}.

Definition fresh (p : t) : observed := mk_observed p [] 0 0 0.

Definition member {A} (m : M t A) : M observed A :=
  fun s => match m (self s) with
           | Normal a p =>
               Normal a (mk_observed p (extracted s) (in_queue s) (past_wait s) (counting s))
           | Throws e p =>
               Throws e (mk_observed p (extracted s) (in_queue s) (past_wait s) (counting s))
           | Undefined => Undefined
           end.

Inductive event : Type :=
| queue_push (item : T)    (* a producer runs the locked block of queue *)
| queue_signal             (* a producer inside queue runs signal.release() *)
| queue_count              (* a producer inside queue runs ++queueCounter *)
| consumer_wait            (* a consumer runs the wait of getNextItem *)
| consumer_extract.        (* a consumer past the wait runs the locked block *)

Definition step (e : event) : M observed unit :=
  match e with
  | queue_push item =>
      member (emplace_back item) ;;;
      modify (fun s => mk_observed (self s) (extracted s) (S (in_queue s)) (past_wait s)
                         (counting s))
  | queue_signal =>
      fun s => match in_queue s with
               | 0 => Normal tt s
               | S n =>
                   (member release ;;;
                    modify (fun s => mk_observed (self s) (extracted s) n (past_wait s)
                                       (S (counting s)))) s
               end
  | queue_count =>
      fun s => match counting s with
               | 0 => Normal tt s
               | S n =>
                   (member (modify (fun p => set_queueCounter (uint64_incr (queueCounter p)) p)) ;;;
                    modify (fun s => mk_observed (self s) (extracted s) (in_queue s)
                                       (past_wait s) n)) s
               end
  | consumer_wait =>
      ok <- member try_acquire_for ;;
      if ok : bool
      then modify (fun s => mk_observed (self s) (extracted s) (in_queue s)
                              (S (past_wait s)) (counting s))
      else ret tt
  | consumer_extract =>
      fun s => match past_wait s with
               | 0 => Normal tt s
               | S n =>
                   (item <- member locked_extract ;;
                    modify (fun s => mk_observed (self s)
                                       (extracted s ++ match item with Some x => [x] | None => [] end)
                                       (in_queue s) n (counting s))) s
               end
  end.

Fixpoint run (schedule : list event) : M observed unit :=
  match schedule with
  | [] => ret tt
  | e :: rest => step e ;;; run rest
  end.

Fixpoint pushed (schedule : list event) : list T :=
  match schedule with
  | [] => []
  | queue_push x :: rest => x :: pushed rest
  | _ :: rest => pushed rest
  end.

(** *** The threads of the pool and the destructor, statement by statement *)

Definition set_workers (l : list (jthread T)) (p : t) : t :=
  mk (queueCounter p) l (callback p) (signal p) (items p) (signalWaitInterval p).
Definition set_signalWaitInterval (d : Z) (p : t) : t :=
  mk (queueCounter p) (workers p) (callback p) (signal p) (items p) d.

(** [t.request_stop()] on thread [i] of the vector. *)
Definition request_stop (i : nat) : M t unit :=
  modify (fun p => set_workers
                     (alter (fun th => mk_jthread true (location th)) i (workers p)) p).

(** The pool with its threads and what the callback works on.
    [invoked] and [dropped] are history variables: the items the
    callback was called with, and the items a thread took out of the
    deque and let go because its stop was requested.  [producers] counts
    the producers between the locked block and [signal.release()] of
    [queue], [counters] those between [signal.release()] and
    [++queueCounter]. *)
Record system : Type := mk_system {
  pool : t;
  env : U;
  invoked : list T;
  dropped : list T;
  producers : nat;
  counters : nat
}.

Definition running (p : t) (u : U) : system := mk_system p u [] [] 0 0.

Definition on_pool {A} (m : M t A) : M system A :=
  fun s => match m (pool s) with
           | Normal a p =>
               Normal a (mk_system p (env s) (invoked s) (dropped s) (producers s)
                           (counters s))
           | Throws e p =>
               Throws e (mk_system p (env s) (invoked s) (dropped s) (producers s)
                           (counters s))
           | Undefined => Undefined
           end.

(** [callback(std::move( *item))] *)
Definition invoke (item : T) : M system unit :=
  fun s => match callback (pool s) with
           | None => Throws bad_function_call s
           | Some _ =>
               match call (callback (pool s)) item (env s) with
               | Normal _ u =>
                   Normal tt (mk_system (pool s) u (invoked s ++ [item]) (dropped s)
                                (producers s) (counters s))
               | Throws e u =>
                   Throws e (mk_system (pool s) u (invoked s ++ [item]) (dropped s)
                               (producers s) (counters s))
               | Undefined => Undefined
               end
           end.

(** The optional that holds [item] goes out of scope uncalled. *)
Definition let_go (item : T) : M system unit :=
  modify (fun s => mk_system (pool s) (env s) (invoked s) (dropped s ++ [item])
                     (producers s) (counters s)).

Definition goto (i : nat) (th : jthread T) (l : pc T) : M t unit :=
  modify (fun p => set_workers (<[i := mk_jthread (stop_requested th) l]> (workers p)) p).

(** The next statement of thread [i] of the pool: the test of the
    [while]; the wait of [getNextItem]; the block of [getNextItem] under
    the lock; the test [item && !st.stop_requested()] on an optional that
    holds an item; the call.  A wait that finds no signal is one that
    timed out; it and a locked block that finds the deque empty return
    an empty optional, on which the test reads no stop state.
    [at_guard] is no statement of this loop. *)
Definition thread_step (i : nat) : M system unit :=
  fun s =>
    match workers (pool s) !! i with
    | None => Normal tt s
    | Some th =>
        match location th with
        | at_while =>
            if stop_requested th then on_pool (goto i th finished) s
            else on_pool (goto i th at_wait) s
        | at_wait =>
            (ok <- on_pool try_acquire_for ;;
             if ok : bool then on_pool (goto i th at_lock)
             else on_pool (goto i th at_while)) s
        | at_lock =>
            (item <- on_pool locked_extract ;;
             match item with
             | Some x => on_pool (goto i th (at_test x))
             | None => on_pool (goto i th at_while)
             end) s
        | at_test item =>
            if stop_requested th
            then (let_go item ;;; on_pool (goto i th at_while)) s
            else on_pool (goto i th (at_callback item)) s
        | at_callback item =>
            (try_catch_all (invoke item) ;;; on_pool (goto i th at_while)) s
        | at_guard => Normal tt s
        | finished => Normal tt s
        end
    end.

(** The statements of the producers, of the pool's threads and of
    [~simple_pool()].  The destructor sets the interval and then, for
    each thread in turn, releases a signal, requests the stop and joins:
    the [join] returns when that thread has reached [finished].  A
    schedule may order these statements in any way, the orders the
    destructor can take among them. *)
Inductive pool_event : Type :=
| producer_push (item : T)           (* the locked block of queue *)
| producer_signal                    (* signal.release() of queue *)
| producer_count                     (* ++queueCounter of queue *)
| thread (i : nat)                   (* thread i runs its next statement *)
| destructor_interval                (* signalWaitInterval = 0ms *)
| destructor_release                 (* signal.release() *)
| destructor_request_stop (i : nat). (* t.request_stop(), t being thread i *)

Definition pool_step (e : pool_event) : M system unit :=
  match e with
  | producer_push item =>
      on_pool (emplace_back item) ;;;
      modify (fun s => mk_system (pool s) (env s) (invoked s) (dropped s)
                         (S (producers s)) (counters s))
  | producer_signal =>
      fun s => match producers s with
               | 0 => Normal tt s
               | S n =>
                   (on_pool release ;;;
                    modify (fun s => mk_system (pool s) (env s) (invoked s) (dropped s) n
                                       (S (counters s)))) s
               end
  | producer_count =>
      fun s => match counters s with
               | 0 => Normal tt s
               | S n =>
                   (on_pool (modify (fun p => set_queueCounter (uint64_incr (queueCounter p)) p)) ;;;
                    modify (fun s => mk_system (pool s) (env s) (invoked s) (dropped s)
                                       (producers s) n)) s
               end
  | thread i => thread_step i
  | destructor_interval => on_pool (modify (set_signalWaitInterval 0))
  | destructor_release => on_pool release
  | destructor_request_stop i => on_pool (request_stop i)
  end.

Fixpoint pool_run (schedule : list pool_event) : M system unit :=
  match schedule with
  | [] => ret tt
  | e :: rest => pool_step e ;;; pool_run rest
  end.

(** The items the producers appended, in order. *)
Fixpoint appended (schedule : list pool_event) : list T :=
  match schedule with
  | [] => []
  | producer_push x :: rest => x :: appended rest
  | _ :: rest => appended rest
  end.

(** Whether the destructor asks a thread to stop in the schedule. *)
Fixpoint stops_requested (schedule : list pool_event) : bool :=
  match schedule with
  | [] => false
  | destructor_request_stop _ :: _ => true
  | _ :: rest => stops_requested rest
  end.

(** The items held in the threads' optionals. *)
Definition in_flight (p : t) : list T := concat (map holding (workers p)).

(** Every item the pool was given: those the callback was called with,
    those let go, those the threads hold, those in the deque. *)
Definition accounted (s : system) : list T :=
  invoked s ++ dropped s ++ in_flight (pool s) ++ items (pool s).

(** The statements a thread whose stop is requested still runs before it
    has left its loop: from the wait these are the wait, the locked
    block, the test and the test of the [while]. *)
Definition statements_to_exit (l : pc T) : nat :=
  match l with
  | at_wait => 4
  | at_lock => 3
  | at_test _ => 2
  | at_callback _ => 2
  | at_while => 1
  | at_guard => 0
  | finished => 0
  end.
End simple_pool.
Arguments t : clear implicits.
Arguments observed : clear implicits.
Arguments event : clear implicits.
Arguments system : clear implicits.
Arguments pool_event : clear implicits.
End simple_pool.

(* ================================================================= *)
(** ** include/roundrobin_pool.hpp *)
Module roundrobin_pool.
Section roundrobin_pool.
Context {T U : Type}.

Record t : Type := mk {
  queueCounter : Z;                      (* std::atomic_uint64_t *)
  workers : list (simple_worker.t T U);  (* std::vector<simple_worker<T>> *)
  workersSize : Z                        (* uint64_t *)
}.

Definition pool_size (N hardware_concurrency : nat) : nat :=
  if 0 <? N then N else hardware_concurrency.

(** [roundrobin_pool(std::function<void(T&&)> c)] for the template
    argument [N]; [hardware_concurrency()] may be 0. *)
Definition roundrobin_pool (N hardware_concurrency : nat)
    (c : T -> U -> completion * U) : t :=
  let n := pool_size N hardware_concurrency in
  mk 0 (replicate n (simple_worker.simple_worker c)) (Z.of_nat n).

(** [constexpr size_t nextWorkerIndex()] *)
Definition nextWorkerIndex (p : t) : Z :=
  if (workersSize p =? 0)%Z then 0%Z else (queueCounter p mod workersSize p)%Z.

(** [void queue(T&& item)]; [workers.at(i)] throws [out_of_range] when
    [i] is not an index of the vector. *)
Definition queue (item : T) : M t unit :=
  modify (fun p => mk (uint64_incr (queueCounter p)) (workers p) (workersSize p)) ;;;
  fun p =>
    let i := Z.to_nat (nextWorkerIndex p) in
    match workers p !! i with
    | None => Throws out_of_range p
    | Some w =>
        match simple_worker.queue item w with
        | Normal _ w' => Normal tt (mk (queueCounter p) (<[i := w']> (workers p)) (workersSize p))
        | Throws e w' => Throws e (mk (queueCounter p) (<[i := w']> (workers p)) (workersSize p))
        | Undefined => Undefined
        end
    end.

(** The pool with what the callback works on.  [invoked] is a history
    variable: which worker called the callback with which item. *)
Record system : Type := mk_system {
  self : t;
  env : U;
  invoked : list (nat * T)
}.

Definition running (p : t) (u : U) : system := mk_system p u [].

Definition member {A} (m : M t A) : M system A :=
  fun s => match m (self s) with
           | Normal a p => Normal a (mk_system p (env s) (invoked s))
           | Throws e p => Throws e (mk_system p (env s) (invoked s))
           | Undefined => Undefined
           end.

(** Worker [j] runs one turn of its processor loop. *)
Definition worker_turn (j : nat) : M system unit :=
  fun s =>
    match workers (self s) !! j with
    | None => Normal tt s
    | Some w =>
        match simple_worker.loop_iteration (simple_worker.mk_system w (env s) []) with
        | Normal _ r =>
            Normal tt (mk_system
                         (mk (queueCounter (self s))
                             (<[j := simple_worker.self r]> (workers (self s)))
                             (workersSize (self s)))
                         (simple_worker.env r)
                         (invoked s ++ map (pair j) (simple_worker.invoked r)))
        | Throws e r =>
            Throws e (mk_system
                        (mk (queueCounter (self s))
                            (<[j := simple_worker.self r]> (workers (self s)))
                            (workersSize (self s)))
                        (simple_worker.env r)
                        (invoked s ++ map (pair j) (simple_worker.invoked r)))
        | Undefined => Undefined
        end
    end.

(** The calls of [queue] are taken whole: they do not overlap, as with
    one producer.  [++queueCounter] and the [queueCounter.load()] of
    [nextWorkerIndex()] are two statements, and two calls that overlap
    may both load the counter after both have incremented it. *)
Inductive event : Type :=
| enqueue (item : T)       (* the producer calls queue *)
| work (j : nat).          (* worker j runs a turn of its loop *)

Definition step (e : event) : M system unit :=
  match e with
  | enqueue item => member (queue item)
  | work j => worker_turn j
  end.

Fixpoint run (schedule : list event) : M system unit :=
  match schedule with
  | [] => ret tt
  | e :: rest => step e ;;; run rest
  end.

(** The items the producer enqueued, in order. *)
Fixpoint enqueued (schedule : list event) : list T :=
  match schedule with
  | [] => []
  | enqueue x :: rest => x :: enqueued rest
  | _ :: rest => enqueued rest
  end.

(** Everything worker [j] was handed: the items its callback was called
    with, then the items still in its deque. *)
Definition received (j : nat) (s : system) : list T :=
  map snd (List.filter (fun e => fst e =? j) (invoked s))
  ++ match workers (self s) !! j with
     | Some w => simple_worker.items w
     | None => []
     end.

(** The items of [l] whose position [k], counted from [first], has
    [f k = j]. *)
Fixpoint select (f : Z -> Z) (j : Z) (first : Z) (l : list T) : list T :=
  match l with
  | [] => []
  | x :: rest =>
      if (f first =? j)%Z then x :: select f j (first + 1)%Z rest
      else select f j (first + 1)%Z rest
  end.

(** The worker that item number [k] (counted from 0) is routed to, in a
    pool of [n] workers: the counter is incremented first. *)
Definition route (n : nat) (k : Z) : Z := (uint64_incr k mod Z.of_nat n)%Z.

(** The items of [l], in order, that are routed to worker [j]. *)
Definition routed_to (n j : nat) (l : list T) : list T :=
  select (route n) (Z.of_nat j) 0 l.

(** A worker whose thread runs and whose callback is set. *)
Definition in_service (w : simple_worker.t T U) : Prop :=
  stop_requested (simple_worker.processor w) = false
  /\ simple_worker.callback w <> None.

(** What holds of a pool of [n] workers after the items [xs] were
    enqueued. *)
Definition invariant (n : nat) (xs : list T) (s : system) : Prop :=
  queueCounter (self s) = (Z.of_nat (length xs) mod uint64_modulus)%Z
  /\ workersSize (self s) = Z.of_nat n
  /\ length (workers (self s)) = n
  /\ (forall j w, workers (self s) !! j = Some w -> in_service w)
  /\ (forall j, j < n -> received j s = routed_to n j xs).
End roundrobin_pool.
Arguments t : clear implicits.
Arguments system : clear implicits.
Arguments event : clear implicits.
End roundrobin_pool.

(* ================================================================= *)
(** ** What the templates require of the payload type *)
Module payload.
(** The operations a type [T] offers. *)
Record traits : Type := mk {
  default_initializable : bool;     (* T item; *)
  copy_constructible : bool;        (* T a(b), b an lvalue or a const T *)
  move_constructible : bool;        (* T a(std::move(b)) *)
  copy_assignable : bool;           (* a = b, b an lvalue *)
  move_assignable : bool            (* a = std::move(b) *)
}.

(** What a statement of a template does with a [T]. *)
Inductive use : Type :=
| default_initialize
| copy_construct
| move_construct
| copy_assign
| move_assign.

Definition offers (T : traits) (u : use) : bool :=
  match u with
  | default_initialize => default_initializable T
  | copy_construct => copy_constructible T
  | move_construct => move_constructible T
  | copy_assign => copy_assignable T
  | move_assign => move_assignable T
  end.

(** The concepts of [<concepts>] named in the [requires] clauses;
    [std::copy_constructible] includes [std::move_constructible]. *)
Inductive concept : Type := std_copy_constructible | std_move_constructible.

Definition models (T : traits) (c : concept) : bool :=
  match c with
  | std_copy_constructible => move_constructible T && copy_constructible T
  | std_move_constructible => move_constructible T
  end.

(** A template with a type parameter [T]: the concepts its [requires]
    clause names, and what the statements of its constructors, of
    [queue] (or [checkin], [checkout]) and of its thread do with a
    [T]. *)
Record template : Type := mk_template {
  requires : list concept;
  statements : list use
}.

(** [T] can be the payload of the template: the constraint holds and
    every statement compiles. *)
Definition accepts (tpl : template) (T : traits) : bool :=
  forallb (models T) (requires tpl) && forallb (offers T) (statements tpl).

(** src/basic_worker.hpp.  [requires ... std::copy_constructible<T> &&
    std::move_constructible<T>]; [queue]:
    [items.emplace_back(std::move(item))]; [processor]: [T item;] and
    [item = items.front();]. *)
Definition basic_worker : template :=
  mk_template [std_copy_constructible; std_move_constructible]
    [move_construct; default_initialize; copy_assign].

(** src/simple_worker.hpp.  [requires ... std::move_constructible<T>];
    [queue]: [items.emplace_back(std::move(item))]; [popOnDestruct::pop]:
    [return std::move(parentDeque.front())] as a [T]; [getNextItem]: the
    [T] returned becomes the [std::optional<T>]. *)
Definition simple_worker : template :=
  mk_template [std_move_constructible] [move_construct; move_construct; move_construct].

(** src/basic_pool.hpp.  [requires std::move_constructible<T>]; [queue]:
    [items.emplace_back(std::move(item))]; the threads: [T item;] and
    [item = items.front();]. *)
Definition basic_pool : template :=
  mk_template [std_move_constructible]
    [move_construct; default_initialize; copy_assign].

(** include/simple_pool.hpp.  [requires std::move_constructible<T>];
    [queue]: [items.emplace_back(std::move(item))]; [getNextItem]:
    [T item {std::move(items.front())}] and [return std::move(item)]. *)
Definition simple_pool : template :=
  mk_template [std_move_constructible] [move_construct; move_construct; move_construct].

(** include/roundrobin_pool.hpp.  [requires
    std::move_constructible<T>]; [queue] hands the item to
    [simple_worker<T>::queue], and the workers are
    [simple_worker<T>]. *)
Definition roundrobin_pool : template :=
  mk_template (std_move_constructible :: requires simple_worker)
    (statements simple_worker).

(** include/siddiqsoft/resource_pool.hpp.  [requires
    std::move_constructible<T>]; [checkin]:
    [_pool.push_back(std::move(rsrc))]; [checkout] returns a
    reference. *)
Definition resource_pool : template :=
  mk_template [std_move_constructible] [move_construct].

(** [nonCopyableObject] of tests/basic_worker.cpp: constructed from a
    string, copy operations deleted, move operations defaulted. *)
Definition nonCopyableObject : traits := mk false false true false true.
End payload.

(* ################################################################# *)
(** * Properties *)

(* ================================================================= *)
(** ** The resource pool *)
Section resource_pool_facts.
Context {T : Type}.
Implicit Types (p : resource_pool.t T) (x : T).

Lemma resource_pool_checkin_contents p x :
  exists p', resource_pool.checkin x p = Normal tt p'
             /\ resource_pool.contents p' = resource_pool.contents p ++ [x].
Proof. eexists; split; reflexivity. Qed.

Lemma resource_pool_checkout_empty p :
  resource_pool.contents p = [] ->
  resource_pool.checkout p
  = Throws (runtime_error "Empty pool; add something first!") p.
Proof.
  destruct p as [[n l]]; cbn; intros ->; reflexivity.
Qed.

(** On a pool that is not empty, [checkout] removes the front item and
    returns the reference that designated it before the removal; after
    the removal that reference designates no live object. *)
Lemma resource_pool_checkout_front p x rest :
  resource_pool.contents p = x :: rest ->
  exists r p',
    resource_pool.checkout p = Normal r p'
    /\ resource_pool.contents p' = rest
    /\ resource_pool.load r p = Normal x p
    /\ resource_pool.load r p' = Undefined.
Proof.
  destruct p as [[n l]]; cbn; intros ->.
  exists n, (resource_pool.mk (deque.mk (S n) rest)).
  unfold resource_pool.checkout, resource_pool.load, deque.load, scope_exit;
    cbn -[Nat.ltb Nat.sub].
  repeat split.
  - destruct (Nat.ltb_spec n n); [lia|]. rewrite Nat.sub_diag. reflexivity.
  - destruct (Nat.ltb_spec n (S n)); [reflexivity|lia].
Qed.
End resource_pool_facts.

(** C2 (the code departs from it).  On an empty pool [checkout] throws
    the "empty pool" runtime error and leaves the pool as it was.  On a
    pool that is not empty it removes the front item, but what the caller
    receives is a reference to the slot the scope guard has already
    popped: reading the item through it, as [auto y = rp.checkout();]
    does, is undefined. *)
Theorem resource_pool_checkout_dangling_reference :
  forall (T : Type) (p0 p : resource_pool.t T) (x : T) (rest : list T),
    (resource_pool.contents p0 = [] ->
     resource_pool.checkout p0
     = Throws (runtime_error "Empty pool; add something first!") p0)
    /\ (resource_pool.contents p = x :: rest ->
        (exists r p', resource_pool.checkout p = Normal r p'
                      /\ resource_pool.contents p' = rest)
        /\ resource_pool.checkout_item p = Undefined).
Proof.
  intros T p0 p x rest. split; [apply resource_pool_checkout_empty|].
  intros H.
  destruct (resource_pool_checkout_front p x rest H) as (r & p' & Hc & Hrest & _ & Hdead).
  split; [eauto|].
  unfold resource_pool.checkout_item, bind. rewrite Hc. exact Hdead.
Qed.

Lemma resource_pool_checkout_dangling_reference_witness :
  resource_pool.checkout (resource_pool.resource_pool (T:=nat))
  = Throws (runtime_error "Empty pool; add something first!") resource_pool.resource_pool
  /\ resource_pool.checkout_item (resource_pool.mk (deque.mk 0 [7])) = Undefined.
Proof.
  destruct (resource_pool_checkout_dangling_reference nat
              resource_pool.resource_pool (resource_pool.mk (deque.mk 0 [7])) 7 [])
    as (Hempty & Hfront).
  split; [apply Hempty; reflexivity|].
  apply Hfront. reflexivity.
Defined.

(** C3 as stated fails: with the item 1 in the pool, [checkin 2] followed
    by [checkout] hands out the slot of 1, not of 2. *)
Lemma resource_pool_roundtrip_counterexample :
  let p0 := resource_pool.mk (deque.mk 0 [1]) in
  exists r p1 p2,
    resource_pool.checkin 2 p0 = Normal tt p1
    /\ resource_pool.checkout p1 = Normal r p2
    /\ resource_pool.load r p1 = Normal 1 p1
    /\ resource_pool.contents p2 = [2]
    /\ 1 <> 2.
Proof.
  cbn. eexists _, _, _. repeat split; try reflexivity. discriminate.
Qed.

(** C3, amended.  [checkin x] followed by [checkout] never throws and
    leaves the size of the pool as it was; the item [checkout] removes
    and designates is the one that was at the front before the pair,
    which is [x] only when the pool was empty. *)
Theorem resource_pool_checkin_checkout :
  forall (T : Type) (p : resource_pool.t T) (x : T),
    exists r p1 p2,
      resource_pool.checkin x p = Normal tt p1
      /\ resource_pool.checkout p1 = Normal r p2
      /\ resource_pool.load r p1 = Normal (hd x (resource_pool.contents p)) p1
      /\ resource_pool.contents p1
         = hd x (resource_pool.contents p) :: resource_pool.contents p2
      /\ length (resource_pool.contents p2) = length (resource_pool.contents p).
Proof.
  intros T p x.
  destruct (resource_pool_checkin_contents p x) as (p1 & Hin & Hc1).
  assert (Hfront : resource_pool.contents p1
                   = hd x (resource_pool.contents p)
                     :: (tl (resource_pool.contents p ++ [x]))).
  { rewrite Hc1. destruct (resource_pool.contents p); reflexivity. }
  destruct (resource_pool_checkout_front p1 _ _ Hfront) as (r & p2 & Hout & Hc2 & Hload & _).
  exists r, p1, p2. repeat split; try assumption.
  - rewrite Hfront, Hc2. reflexivity.
  - rewrite Hc2. destruct (resource_pool.contents p) as [|y l]; cbn; [reflexivity|].
    rewrite length_app; cbn; lia.
Qed.

(* ================================================================= *)
(** ** The processor loops, one thread at a time *)
Section basic_worker_loop.
Context {T U : Type}.
Implicit Types (s : basic_worker.system T U) (w : basic_worker.t T U).

Lemma basic_worker_loop_iteration_total s :
  exists s', basic_worker.loop_iteration s = Normal tt s' /\ basic_worker.frame s s'.
Proof.
  destruct s as [[l c d f th] u h n].
  unfold basic_worker.loop_iteration, try_catch_all, basic_worker.loop_body, bind,
    basic_worker.member, basic_worker.try_acquire_for,
    counting_semaphore.try_acquire_for, basic_worker.guard, gets, ret,
    basic_worker.take_front, basic_worker.invoke, call, basic_worker.frame.
  cbn.
  destruct (0 <? c)%Z; cbn; [|eauto].
  destruct l as [|x l]; cbn; [eauto|].
  destruct (stop_requested th); cbn; [eauto|].
  destruct f as [g|]; cbn; [|eauto].
  destruct (g x u) as [[] u']; cbn; eauto.
Qed.

(** A turn that finds a signal and an item calls the callback on the
    front item, whatever the callback then does. *)
Lemma basic_worker_loop_iteration_dispatch s g x rest :
  basic_worker.callback (basic_worker.self s) = Some g ->
  basic_worker.items (basic_worker.self s) = x :: rest ->
  (0 < basic_worker.signal (basic_worker.self s))%Z ->
  stop_requested (basic_worker.processor (basic_worker.self s)) = false ->
  basic_worker.loop_iteration s
  = Normal tt (basic_worker.mk_system
                 (basic_worker.set_items rest
                    (basic_worker.set_signal
                       (basic_worker.signal (basic_worker.self s) - 1)
                       (basic_worker.self s)))
                 (snd (g x (basic_worker.env s)))
                 (basic_worker.invoked s ++ [x])
                 (basic_worker.in_queue s)).
Proof.
  destruct s as [[l c d f th] u h n]; cbn.
  intros -> -> Hc Hst.
  unfold basic_worker.loop_iteration, try_catch_all, basic_worker.loop_body, bind,
    basic_worker.member, basic_worker.try_acquire_for,
    counting_semaphore.try_acquire_for, basic_worker.guard, gets, ret,
    basic_worker.take_front, basic_worker.invoke, call.
  cbn.
  replace (0 <? c)%Z with true by (symmetry; apply Z.ltb_lt; exact Hc).
  cbn. rewrite Hst. cbn. destruct (g x u) as [[] u']; reflexivity.
Qed.

Lemma basic_worker_processor_loop_stays turns : forall s,
  stop_requested (basic_worker.processor (basic_worker.self s)) = false ->
  exists s', basic_worker.processor_loop turns s = Normal in_loop s'
             /\ basic_worker.frame s s'.
Proof.
  induction turns as [|n IH]; intros s Hstop.
  - exists s. split; [reflexivity|]. repeat split.
  - destruct (basic_worker_loop_iteration_total s) as (s1 & H1 & Hf1).
    destruct (IH s1) as (s2 & H2 & Hf2).
    { destruct Hf1 as (_ & -> & _). exact Hstop. }
    exists s2. split.
    + cbn. unfold bind at 1. unfold gets. rewrite Hstop.
      unfold bind. rewrite H1. exact H2.
    + destruct Hf1 as (? & ? & ?), Hf2 as (? & ? & ?).
      repeat split; congruence.
Qed.

(** With as many signals as items, the loop hands every item to the
    callback, in order, one per turn; it does so for every callback,
    also one that raises on each call. *)
Lemma basic_worker_processor_loop_drains : forall (l : list T) s g,
  basic_worker.callback (basic_worker.self s) = Some g ->
  basic_worker.items (basic_worker.self s) = l ->
  (Z.of_nat (length l) <= basic_worker.signal (basic_worker.self s))%Z ->
  stop_requested (basic_worker.processor (basic_worker.self s)) = false ->
  exists s', basic_worker.processor_loop (length l) s = Normal in_loop s'
             /\ basic_worker.invoked s' = basic_worker.invoked s ++ l
             /\ basic_worker.items (basic_worker.self s') = []
             /\ basic_worker.signal (basic_worker.self s')
                = (basic_worker.signal (basic_worker.self s) - Z.of_nat (length l))%Z
             /\ basic_worker.frame s s'.
Proof.
  induction l as [|x l IH]; intros s g Hg Hl Hsig Hstop.
  - exists s. cbn. rewrite app_nil_r, Z.sub_0_r. repeat split; assumption.
  - cbn [length] in *.
    pose proof (basic_worker_loop_iteration_dispatch s g x l Hg Hl ltac:(lia) Hstop) as H1.
    match type of H1 with _ = Normal tt ?s1 => set (s1' := s1) in * end.
    destruct (IH s1' g) as (s2 & H2 & Hinv & Hit & Hs & Hf).
    { subst s1'; cbn. exact Hg. }
    { reflexivity. }
    { subst s1'; cbn. lia. }
    { subst s1'; cbn. exact Hstop. }
    exists s2. split.
    + cbn. unfold bind at 1. unfold gets. rewrite Hstop.
      unfold bind. rewrite H1. exact H2.
    + rewrite Hinv, Hit, Hs. subst s1'; cbn.
      rewrite <- app_assoc. repeat split; try reflexivity; try lia.
      all: destruct Hf as (? & ? & ?); cbn in *; assumption.
Qed.
End basic_worker_loop.

Section periodic_worker_loop.
Context {U : Type}.
Implicit Types (s : periodic_worker.system U).

Ltac unfold_periodic :=
  unfold periodic_worker.loop_iteration, try_catch_all, periodic_worker.loop_body,
    bind, periodic_worker.member, periodic_worker.try_acquire_for,
    counting_semaphore.try_acquire_for, gets, ret, modify,
    periodic_worker.invoke, periodic_worker.frame.

Lemma periodic_worker_loop_iteration_total s :
  exists s', periodic_worker.loop_iteration s = Normal tt s'
             /\ periodic_worker.frame s s'.
Proof.
  destruct s as [[nm c sg d f th] u h]. unfold_periodic. cbn.
  destruct (0 <? sg)%Z; cbn; destruct (stop_requested th); cbn; eauto;
    destruct f as [g|]; cbn; eauto;
    destruct (g tt u) as [[] u']; cbn; eauto.
Qed.

(** A turn of the loop when the stop was not requested: the callback is
    called once, and the counter moves only if the call returned. *)
Lemma periodic_worker_loop_iteration_call s g :
  periodic_worker.callback (periodic_worker.self s) = Some g ->
  stop_requested (periodic_worker.processor (periodic_worker.self s)) = false ->
  exists s',
    periodic_worker.loop_iteration s = Normal tt s'
    /\ periodic_worker.env s' = snd (g tt (periodic_worker.env s))
    /\ periodic_worker.completions s'
       = periodic_worker.completions s ++ [fst (g tt (periodic_worker.env s))]
    /\ periodic_worker.invokeCounter (periodic_worker.self s')
       = match fst (g tt (periodic_worker.env s)) with
         | returned => uint64_incr (periodic_worker.invokeCounter (periodic_worker.self s))
         | raised => periodic_worker.invokeCounter (periodic_worker.self s)
         end.
Proof.
  destruct s as [[nm c sg d f th] u h]; cbn. intros -> Hst.
  unfold_periodic. cbn.
  destruct (0 <? sg)%Z; cbn; rewrite Hst; cbn;
    destruct (g tt u) as [[] u']; cbn; eauto 10.
Qed.

(** A turn of the loop after the stop was requested calls nothing. *)
Lemma periodic_worker_loop_iteration_stopped s :
  stop_requested (periodic_worker.processor (periodic_worker.self s)) = true ->
  exists s',
    periodic_worker.loop_iteration s = Normal tt s'
    /\ periodic_worker.completions s' = periodic_worker.completions s
    /\ periodic_worker.invokeCounter (periodic_worker.self s')
       = periodic_worker.invokeCounter (periodic_worker.self s).
Proof.
  destruct s as [[nm c sg d f th] u h]; cbn. intros Hst.
  unfold_periodic. cbn.
  destruct (0 <? sg)%Z; cbn; rewrite Hst; cbn; eauto.
Qed.

Lemma count_returned_app (l : list completion) (c : completion) :
  periodic_worker.count_returned (l ++ [c])
  = periodic_worker.count_returned l + match c with returned => 1 | raised => 0 end.
Proof.
  induction l as [|[] l IH]; cbn; [destruct c; reflexivity| |]; rewrite IH; lia.
Qed.

Lemma periodic_worker_loop_iteration_consistent s :
  periodic_worker.counter_consistent s ->
  exists s', periodic_worker.loop_iteration s = Normal tt s'
             /\ periodic_worker.counter_consistent s'
             /\ periodic_worker.frame s s'.
Proof.
  intros Hc.
  destruct (periodic_worker_loop_iteration_total s) as (s' & Hrun & Hfr).
  exists s'. split; [exact Hrun|]. split; [|exact Hfr].
  destruct (stop_requested (periodic_worker.processor (periodic_worker.self s))) eqn:Hst.
  - destruct (periodic_worker_loop_iteration_stopped s Hst) as (s2 & Hrun2 & Hh & Hk).
    rewrite Hrun in Hrun2; injection Hrun2 as <-.
    unfold periodic_worker.counter_consistent, periodic_worker.completed in *.
    rewrite Hh, Hk. exact Hc.
  - destruct (periodic_worker.callback (periodic_worker.self s)) as [g|] eqn:Hg.
    + destruct (periodic_worker_loop_iteration_call s g Hg Hst) as (s2 & Hrun2 & _ & Hh & Hk).
      rewrite Hrun in Hrun2; injection Hrun2 as <-.
      unfold periodic_worker.counter_consistent, periodic_worker.completed in *.
      rewrite Hh, Hk, count_returned_app.
      destruct (fst (g tt (periodic_worker.env s))).
      * unfold uint64_incr. rewrite Hc, Nat2Z.inj_add.
        change (Z.of_nat 1) with 1%Z.
        rewrite Zplus_mod_idemp_l. reflexivity.
      * rewrite Nat.add_0_r. exact Hc.
    + revert Hrun. destruct s as [[nm c sg d f th] u h]; cbn in *. subst f.
      unfold_periodic. cbn.
      destruct (0 <? sg)%Z; cbn; rewrite Hst; cbn; intros [= <-]; exact Hc.
Qed.

Lemma periodic_worker_processor_loop_consistent turns : forall s,
  periodic_worker.counter_consistent s ->
  exists st s', periodic_worker.processor_loop turns s = Normal st s'
                /\ periodic_worker.counter_consistent s'.
Proof.
  induction turns as [|n IH]; intros s Hc.
  - exists in_loop, s. split; [reflexivity|exact Hc].
  - cbn. unfold bind at 1. unfold gets.
    destruct (stop_requested _) eqn:Hst.
    + exists left_loop, s. split; [reflexivity|exact Hc].
    + destruct (periodic_worker_loop_iteration_consistent s Hc) as (s1 & H1 & Hc1 & _).
      destruct (IH s1 Hc1) as (st & s2 & H2 & Hc2).
      exists st, s2. unfold bind. rewrite H1. split; assumption.
Qed.

Lemma periodic_worker_processor_loop_stays turns : forall s,
  stop_requested (periodic_worker.processor (periodic_worker.self s)) = false ->
  exists s', periodic_worker.processor_loop turns s = Normal in_loop s'.
Proof.
  induction turns as [|n IH]; intros s Hst.
  - exists s. reflexivity.
  - destruct (periodic_worker_loop_iteration_total s) as (s1 & H1 & _ & Hp).
    destruct (IH s1) as (s2 & H2); [rewrite Hp; exact Hst|].
    exists s2. cbn. unfold bind at 1. unfold gets. rewrite Hst.
    unfold bind. rewrite H1. exact H2.
Qed.
End periodic_worker_loop.

(** No statement of a thread of a [basic_pool] lets an exception out. *)
Lemma basic_pool_thread_step_catches {T U : Type} (i : nat)
    (s : basic_pool.system T U) (e : exn) (s' : basic_pool.system T U) :
  basic_pool.thread_step i s <> Throws e s'.
Proof.
  destruct s as [[q ws f c l d] u h n k].
  unfold basic_pool.thread_step. cbn [basic_pool.self basic_pool.workers].
  destruct (ws !! i) as [[st loc]|]; [|discriminate].
  unfold basic_pool.member, basic_pool.try_acquire_for,
    counting_semaphore.try_acquire_for, basic_pool.guard, basic_pool.take_front,
    basic_pool.goto, basic_pool.invoke, call, try_catch_all, modify, gets, ret.
  unfold bind.
  destruct loc as [| | | |y|x|]; cbn.
  - destruct st; discriminate.
  - destruct (0 <? c)%Z; discriminate.
  - destruct l; cbn; [discriminate|]. destruct st; discriminate.
  - destruct l; discriminate.
  - discriminate.
  - destruct f as [g|]; cbn; [|discriminate].
    destruct (g x u) as [[] u']; discriminate.
  - discriminate.
Qed.

(** C4.  An error raised by the callback never leaves the [try] block of
    the consumer loop: a turn of the loop of a worker and of a periodic
    task ends normally in every state and for every callback, and no
    statement of a pool thread lets an exception out; while the stop is
    not requested the thread is still in its loop after any number of
    turns; and with a callback that raises on every call, the worker goes
    on to hand it each queued item, one per turn. *)
Theorem callback_faults_stay_in_the_loop :
  forall (T U : Type) (s : basic_worker.system T U)
         (ps : periodic_worker.system U) (turns : nat),
    (exists s', basic_worker.loop_iteration s = Normal tt s')
    /\ (exists ps', periodic_worker.loop_iteration ps = Normal tt ps')
    /\ (forall (i : nat) (pool : basic_pool.system T U) e pool',
          basic_pool.thread_step i pool <> Throws e pool')
    /\ (stop_requested (basic_worker.processor (basic_worker.self s)) = false ->
        exists s', basic_worker.processor_loop turns s = Normal in_loop s')
    /\ (stop_requested (periodic_worker.processor (periodic_worker.self ps)) = false ->
        exists ps', periodic_worker.processor_loop turns ps = Normal in_loop ps')
    /\ (forall g,
          basic_worker.callback (basic_worker.self s) = Some g ->
          (forall x u, fst (g x u) = raised) ->
          (Z.of_nat (length (basic_worker.items (basic_worker.self s)))
           <= basic_worker.signal (basic_worker.self s))%Z ->
          stop_requested (basic_worker.processor (basic_worker.self s)) = false ->
          exists s',
            basic_worker.processor_loop
              (length (basic_worker.items (basic_worker.self s))) s
            = Normal in_loop s'
            /\ basic_worker.invoked s'
               = basic_worker.invoked s ++ basic_worker.items (basic_worker.self s)
            /\ basic_worker.items (basic_worker.self s') = []).
Proof.
  intros T U s ps turns. split; [|split; [|split; [|split; [|split]]]].
  - destruct (basic_worker_loop_iteration_total s) as (s' & H & _). eauto.
  - destruct (periodic_worker_loop_iteration_total ps) as (s' & H & _). eauto.
  - intros i pool e pool'. apply basic_pool_thread_step_catches.
  - intros Hst. destruct (basic_worker_processor_loop_stays turns s Hst) as (s' & H & _). eauto.
  - apply periodic_worker_processor_loop_stays.
  - intros g Hg _ Hsig Hst.
    destruct (basic_worker_processor_loop_drains _ s g Hg eq_refl Hsig Hst)
      as (s' & H & Hinv & Hit & _).
    eauto.
Qed.

Lemma callback_faults_stay_in_the_loop_witness :
  exists s',
    basic_worker.processor_loop 2
      (basic_worker.mk_system
         (basic_worker.mk [10; 20] 2 1500 (Some (fun (_ : nat) (u : nat) => (raised, S u))) started)
         0 [] 0)
    = Normal in_loop s'
    /\ basic_worker.invoked s' = [10; 20]
    /\ basic_worker.items (basic_worker.self s') = [].
Proof.
  pose proof (callback_faults_stay_in_the_loop nat nat
    (basic_worker.mk_system
       (basic_worker.mk [10; 20] 2 1500 (Some (fun (_ : nat) (u : nat) => (raised, S u))) started)
       0 [] 0)
    (periodic_worker.mk_system
       (periodic_worker.periodic_worker (fun u : nat => (raised, u)) 10 "periodic") 0 [])
    2) as (_ & _ & _ & _ & _ & H).
  apply (H (fun (_ : nat) (u : nat) => (raised, S u)));
    [reflexivity | reflexivity | cbn; lia | reflexivity].
Defined.

(** C9.  In a turn of the periodic loop the callback is called once, and
    [invokeCounter] is incremented exactly when that call returned: a
    call that raises leaves it unchanged.  Over any number of turns the
    counter therefore stays the number of completed calls. *)
Theorem periodic_counter_counts_completed_calls :
  forall (U : Type) (s : periodic_worker.system U) (g : unit -> U -> completion * U)
         (turns : nat),
    periodic_worker.callback (periodic_worker.self s) = Some g ->
    stop_requested (periodic_worker.processor (periodic_worker.self s)) = false ->
    (exists s',
       periodic_worker.loop_iteration s = Normal tt s'
       /\ periodic_worker.completions s'
          = periodic_worker.completions s ++ [fst (g tt (periodic_worker.env s))]
       /\ periodic_worker.invokeCounter (periodic_worker.self s')
          = match fst (g tt (periodic_worker.env s)) with
            | returned => uint64_incr (periodic_worker.invokeCounter (periodic_worker.self s))
            | raised => periodic_worker.invokeCounter (periodic_worker.self s)
            end)
    /\ (periodic_worker.counter_consistent s ->
        exists st s',
          periodic_worker.processor_loop turns s = Normal st s'
          /\ periodic_worker.counter_consistent s').
Proof.
  intros U s g turns Hg Hst. split.
  - destruct (periodic_worker_loop_iteration_call s g Hg Hst) as (s' & H & _ & Hh & Hk).
    eauto.
  - apply periodic_worker_processor_loop_consistent.
Qed.

Lemma periodic_counter_counts_completed_calls_witness :
  let s := periodic_worker.mk_system
             (periodic_worker.periodic_worker
                (fun u : nat => (if Nat.even u then raised else returned, S u))
                10 "periodic")
             0 [] in
  exists st s',
    periodic_worker.processor_loop 5 s = Normal st s'
    /\ periodic_worker.counter_consistent s'.
Proof.
  intros s.
  apply (periodic_counter_counts_completed_calls nat s
           (fun _ u => (if Nat.even u then raised else returned, S u)) 5);
    reflexivity.
Defined.

(* ================================================================= *)
(** ** Enqueuing on a worker *)
Section basic_worker_queue.
Context {T U : Type}.
Implicit Types (w : basic_worker.t T U) (x : T).

Lemma basic_worker_queue_below_max w x :
  (basic_worker.signal w < 512)%Z ->
  basic_worker.queue x w
  = Normal tt (basic_worker.set_signal (basic_worker.signal w + 1)
                 (basic_worker.set_items (basic_worker.items w ++ [x]) w)).
Proof.
  intros H. destruct w as [l c d f th]; cbn in *.
  unfold basic_worker.queue, basic_worker.emplace_back, basic_worker.release,
    counting_semaphore.release, counting_semaphore.max,
    basic_worker.signal_LeastMaxValue, bind, modify; cbn.
  replace (c <? 512)%Z with true by (symmetry; apply Z.ltb_lt; exact H).
  reflexivity.
Qed.

Lemma basic_worker_queue_at_max w x :
  (512 <= basic_worker.signal w)%Z ->
  basic_worker.queue x w = Undefined.
Proof.
  intros H. destruct w as [l c d f th]; cbn in *.
  unfold basic_worker.queue, basic_worker.emplace_back, basic_worker.release,
    counting_semaphore.release, counting_semaphore.max,
    basic_worker.signal_LeastMaxValue, bind, modify; cbn.
  replace (c <? 512)%Z with false by (symmetry; apply Z.ltb_ge; exact H).
  reflexivity.
Qed.

Lemma basic_worker_queue_all_below_max (l : list T) : forall w,
  (basic_worker.signal w + Z.of_nat (length l) <= 512)%Z ->
  exists w',
    basic_worker.queue_all l w = Normal tt w'
    /\ basic_worker.items w' = basic_worker.items w ++ l
    /\ basic_worker.signal w' = (basic_worker.signal w + Z.of_nat (length l))%Z.
Proof.
  induction l as [|x l IH]; intros w H.
  - exists w. cbn. rewrite app_nil_r, Z.add_0_r. auto.
  - cbn [length] in H.
    destruct (IH (basic_worker.set_signal (basic_worker.signal w + 1)
                    (basic_worker.set_items (basic_worker.items w ++ [x]) w)))
      as (w' & Hrun & Hit & Hsig).
    { cbn. lia. }
    exists w'. cbn [basic_worker.queue_all]. unfold bind.
    rewrite basic_worker_queue_below_max by lia.
    split; [exact Hrun|]. rewrite Hit, Hsig. cbn.
    rewrite <- app_assoc. split; [reflexivity|lia].
Qed.
End basic_worker_queue.

(** C5 (the code departs from it).  A producer that has 512 items
    outstanding on a worker, none of them taken by the consumer yet,
    makes the next call of [queue] release the semaphore beyond its
    maximum: the call does not succeed, its behaviour is undefined. *)
Theorem basic_worker_queue_beyond_semaphore_max :
  forall (T U : Type) (c : T -> U -> completion * U) (l : list T) (x : T),
    length l = 512 ->
    (basic_worker.queue_all l ;;; basic_worker.queue x) (basic_worker.basic_worker c)
    = Undefined.
Proof.
  intros T U c l x Hlen.
  destruct (basic_worker_queue_all_below_max l (basic_worker.basic_worker c))
    as (w' & Hrun & _ & Hsig).
  { cbn. lia. }
  unfold bind. rewrite Hrun.
  apply basic_worker_queue_at_max. rewrite Hsig. cbn. lia.
Qed.

Lemma basic_worker_queue_beyond_semaphore_max_witness :
  (basic_worker.queue_all (replicate 512 0) ;;; basic_worker.queue 0)
    (basic_worker.basic_worker (fun (_ : nat) (u : unit) => (returned, u)))
  = Undefined.
Proof.
  apply (basic_worker_queue_beyond_semaphore_max nat unit _ (replicate 512 0) 0).
  vm_compute. reflexivity.
Defined.

(** C10.  The move constructors of [basic_worker] and [simple_worker]
    take the callback of the source and nothing else: the new worker has
    an empty queue and a signal count of zero (and, for [simple_worker],
    an enqueue counter of zero), and the items pending in the source stay
    in the source. *)
Theorem move_construct_takes_only_the_callback :
  forall (T U : Type) (b : basic_worker.t T U) (w : simple_worker.t T U),
    (let (dst, src) := basic_worker.move_construct b in
     basic_worker.callback dst = basic_worker.callback b
     /\ basic_worker.items dst = []
     /\ basic_worker.signal dst = 0%Z
     /\ basic_worker.items src = basic_worker.items b
     /\ basic_worker.signal src = basic_worker.signal b)
    /\ (let (dst, src) := simple_worker.move_construct w in
        simple_worker.callback dst = simple_worker.callback w
        /\ simple_worker.items dst = []
        /\ simple_worker.signal dst = 0%Z
        /\ simple_worker.queueCounter dst = 0%Z
        /\ simple_worker.items src = simple_worker.items w
        /\ simple_worker.signal src = simple_worker.signal w
        /\ simple_worker.queueCounter src = simple_worker.queueCounter w).
Proof.
  intros T U b w. split; cbn; repeat split; reflexivity.
Qed.

(** C8.  The claim holds of [simple_worker], [simple_pool],
    [roundrobin_pool] and [resource_pool], which accept a payload type
    exactly when it can be move-constructed.  It fails of [basic_worker]
    and [basic_pool]: the thread of each default-initialises a [T] and
    copy-assigns the front item to it, and the [requires] clause of
    [basic_worker] names [std::copy_constructible<T>]; so neither accepts
    a type that cannot be copy-assigned, such as the move-only
    [nonCopyableObject] that tests/basic_worker.cpp gives to
    [basic_worker]. *)
Theorem payload_requirements :
  forall (T : payload.traits),
    payload.accepts payload.simple_worker T = payload.move_constructible T
    /\ payload.accepts payload.simple_pool T = payload.move_constructible T
    /\ payload.accepts payload.roundrobin_pool T = payload.move_constructible T
    /\ payload.accepts payload.resource_pool T = payload.move_constructible T
    /\ payload.accepts payload.basic_worker T
       = payload.move_constructible T && payload.copy_constructible T
         && payload.default_initializable T && payload.copy_assignable T
    /\ payload.accepts payload.basic_pool T
       = payload.move_constructible T
         && payload.default_initializable T && payload.copy_assignable T
    /\ (payload.move_constructible T = true ->
        payload.copy_assignable T = false ->
        payload.accepts payload.simple_worker T = true
        /\ payload.accepts payload.basic_worker T = false
        /\ payload.accepts payload.basic_pool T = false).
Proof.
  intros [d cc mc ca ma].
  unfold payload.accepts; cbn.
  do 6 (split; [destruct d, cc, mc, ca; reflexivity|]).
  intros -> ->. destruct d, cc; auto.
Qed.

Lemma payload_requirements_witness :
  payload.accepts payload.simple_worker payload.nonCopyableObject = true
  /\ payload.accepts payload.basic_worker payload.nonCopyableObject = false
  /\ payload.accepts payload.basic_pool payload.nonCopyableObject = false.
Proof.
  destruct (payload_requirements payload.nonCopyableObject)
    as (_ & _ & _ & _ & _ & _ & H).
  apply H; reflexivity.
Defined.

(* ================================================================= *)
(** ** Round-robin routing *)
Section simple_worker_facts.
Context {T U : Type}.
Implicit Types (w : simple_worker.t T U) (x : T).

Lemma simple_worker_queue_normal w x w' :
  simple_worker.queue x w = Normal tt w' ->
  simple_worker.items w' = simple_worker.items w ++ [x]
  /\ simple_worker.callback w' = simple_worker.callback w
  /\ simple_worker.processor w' = simple_worker.processor w.
Proof.
  destruct w as [q l c d f th].
  unfold simple_worker.queue, simple_worker.release, counting_semaphore.release,
    bind, modify; cbn.
  destruct (c <? _)%Z; [|discriminate]. intros [= <-]. cbn. auto.
Qed.

Lemma simple_worker_queue_never_throws w x e w' :
  simple_worker.queue x w <> Throws e w'.
Proof.
  destruct w as [q l c d f th].
  unfold simple_worker.queue, simple_worker.release, counting_semaphore.release,
    bind, modify; cbn.
  destruct (c <? _)%Z; discriminate.
Qed.

(** A turn of the loop of a worker in service: either nothing is taken
    from the deque, or its front item is taken and the callback is
    called with it. *)
Lemma simple_worker_loop_iteration_in_service w (u : U) :
  roundrobin_pool.in_service w ->
  exists r,
    simple_worker.loop_iteration (simple_worker.mk_system w u []) = Normal tt r
    /\ roundrobin_pool.in_service (simple_worker.self r)
    /\ simple_worker.invoked r ++ simple_worker.items (simple_worker.self r)
       = simple_worker.items w.
Proof.
  destruct w as [q l c d f th]. intros [Hst Hf]; cbn in *.
  destruct f as [g|]; [clear Hf|congruence].
  unfold simple_worker.loop_iteration, try_catch_all, simple_worker.loop_body,
    bind, simple_worker.member, simple_worker.getNextItem,
    simple_worker.try_acquire_for, counting_semaphore.try_acquire_for,
    gets, ret, scope_exit, simple_worker.popOnDestruct_pop,
    simple_worker.popOnDestruct_destructor, modify, simple_worker.invoke, call,
    roundrobin_pool.in_service.
  unfold bind, ret. cbn.
  destruct (0 <? c)%Z; cbn.
  - destruct l as [|x l]; cbn.
    + eexists; repeat split; cbn; auto; congruence.
    + rewrite Hst. cbn. destruct (g x u) as [[] u']; cbn;
        eexists; repeat split; cbn; auto; congruence.
  - eexists; repeat split; cbn; auto; congruence.
Qed.
End simple_worker_facts.

Section roundrobin_pool_facts.
Context {T U : Type}.
Implicit Types (s : roundrobin_pool.system T U) (p : roundrobin_pool.t T U)
  (x : T) (xs : list T).

Lemma uint64_incr_mod (a : Z) :
  uint64_incr (a mod uint64_modulus) = uint64_incr a.
Proof. unfold uint64_incr. apply Zplus_mod_idemp_l. Qed.

Lemma select_snoc (f : Z -> Z) (j : Z) (l : list T) x : forall first,
  roundrobin_pool.select f j first (l ++ [x])
  = roundrobin_pool.select f j first l
    ++ (if (f (first + Z.of_nat (length l)) =? j)%Z then [x] else []).
Proof.
  induction l as [|y l IH]; intros first; cbn [roundrobin_pool.select app length].
  - rewrite Z.add_0_r. destruct (f first =? j)%Z; reflexivity.
  - rewrite IH. replace (first + 1 + Z.of_nat (length l))%Z
      with (first + Z.of_nat (S (length l)))%Z by lia.
    destruct (f first =? j)%Z; reflexivity.
Qed.

Lemma routed_to_snoc (n j : nat) xs x :
  roundrobin_pool.routed_to n j (xs ++ [x])
  = roundrobin_pool.routed_to n j xs
    ++ (if (roundrobin_pool.route n (Z.of_nat (length xs)) =? Z.of_nat j)%Z
        then [x] else []).
Proof. unfold roundrobin_pool.routed_to. rewrite select_snoc. reflexivity. Qed.

(** A pool as its constructor leaves it. *)
Lemma roundrobin_pool_constructed (N hc : nat) (c : T -> U -> completion * U) (u : U) :
  roundrobin_pool.invariant (roundrobin_pool.pool_size N hc) []
    (roundrobin_pool.running (roundrobin_pool.roundrobin_pool N hc c) u).
Proof.
  unfold roundrobin_pool.invariant, roundrobin_pool.running,
    roundrobin_pool.roundrobin_pool; cbn.
  split; [reflexivity|]. split; [reflexivity|].
  split; [apply length_replicate|]. split.
  - intros j w H. apply lookup_replicate in H as [-> _].
    split; cbn; congruence.
  - intros j Hj. unfold roundrobin_pool.received; cbn.
    rewrite lookup_replicate_2 by exact Hj. reflexivity.
Qed.

(** [queue] on a pool that has workers: the counter is incremented, and
    the item goes to the back of the deque of the worker whose index is
    the new counter modulo the number of workers. *)
Lemma roundrobin_pool_queue_routes (n : nat) p x p' :
  0 < n ->
  roundrobin_pool.workersSize p = Z.of_nat n ->
  length (roundrobin_pool.workers p) = n ->
  roundrobin_pool.queue x p = Normal tt p' ->
  let i := Z.to_nat (uint64_incr (roundrobin_pool.queueCounter p) mod Z.of_nat n) in
  exists w w',
    i < n
    /\ roundrobin_pool.workers p !! i = Some w
    /\ simple_worker.queue x w = Normal tt w'
    /\ p' = roundrobin_pool.mk (uint64_incr (roundrobin_pool.queueCounter p))
              (<[i := w']> (roundrobin_pool.workers p))
              (roundrobin_pool.workersSize p).
Proof.
  intros Hn Hsz Hlen. destruct p as [c ws sz].
  cbn [roundrobin_pool.workersSize roundrobin_pool.workers
       roundrobin_pool.queueCounter] in *.
  subst sz.
  unfold roundrobin_pool.queue, bind, modify, roundrobin_pool.nextWorkerIndex;
    cbn -[simple_worker.queue uint64_incr Z.to_nat Z.modulo].
  replace (Z.of_nat n =? 0)%Z with false by (symmetry; apply Z.eqb_neq; lia).
  set (i := Z.to_nat (uint64_incr c mod Z.of_nat n)).
  assert (Hi : i < n).
  { subst i. pose proof (Z.mod_pos_bound (uint64_incr c) (Z.of_nat n) ltac:(lia)). lia. }
  destruct (lookup_lt_is_Some_2 ws i ltac:(lia)) as [w Hw]. rewrite Hw.
  destruct (simple_worker.queue x w) as [[] w'| |] eqn:Hq; try discriminate.
  intros [= <-]. exists w, w'. auto.
Qed.

(** With no worker in the pool the index computed is 0, where
    [workers.at] finds nothing: [queue] throws, the counter incremented. *)
Lemma roundrobin_pool_queue_no_workers p x :
  roundrobin_pool.workersSize p = 0%Z ->
  roundrobin_pool.workers p = [] ->
  roundrobin_pool.nextWorkerIndex p = 0%Z
  /\ roundrobin_pool.queue x p
     = Throws out_of_range
         (roundrobin_pool.mk (uint64_incr (roundrobin_pool.queueCounter p)) [] 0).
Proof.
  destruct p as [c ws sz]; cbn. intros -> ->.
  split; reflexivity.
Qed.
End roundrobin_pool_facts.

Section roundrobin_pool_runs.
Context {T U : Type}.
Implicit Types (s : roundrobin_pool.system T U) (x : T) (xs : list T).

Lemma filter_pair_same (j : nat) (l : list T) :
  List.filter (fun e : nat * T => fst e =? j) (map (pair j) l) = map (pair j) l.
Proof.
  induction l as [|y l IH]; cbn; [reflexivity|].
  rewrite Nat.eqb_refl, IH. reflexivity.
Qed.

Lemma filter_pair_other (k j : nat) (l : list T) :
  k <> j ->
  List.filter (fun e : nat * T => fst e =? k) (map (pair j) l) = [].
Proof.
  intros Hne. induction l as [|y l IH]; cbn; [reflexivity|].
  replace (j =? k) with false by (symmetry; apply Nat.eqb_neq; congruence).
  exact IH.
Qed.

Lemma map_snd_pair (j : nat) (l : list T) : map snd (map (pair j) l) = l.
Proof. induction l as [|y l IH]; cbn; congruence. Qed.

Lemma roundrobin_step_enqueue (n : nat) xs s x s' :
  0 < n ->
  roundrobin_pool.invariant n xs s ->
  roundrobin_pool.step (roundrobin_pool.enqueue x) s = Normal tt s' ->
  roundrobin_pool.invariant n (xs ++ [x]) s'.
Proof.
  intros Hn (Hc & Hsz & Hlen & Hsrv & Hrec).
  destruct s as [p u inv].
  cbn [roundrobin_pool.step roundrobin_pool.self] in *.
  unfold roundrobin_pool.member. cbn [roundrobin_pool.self roundrobin_pool.env
                                      roundrobin_pool.invoked].
  destruct (roundrobin_pool.queue x p) as [[] p'| |] eqn:Hq; try discriminate.
  intros [= <-].
  destruct (roundrobin_pool_queue_routes n p x p' Hn Hsz Hlen Hq)
    as (w & w' & Hi & Hw & Hwq & ->).
  set (i := Z.to_nat (uint64_incr (roundrobin_pool.queueCounter p) mod Z.of_nat n)) in *.
  destruct (simple_worker_queue_normal w x w' Hwq) as (Hitems & Hcb & Hth).
  unfold roundrobin_pool.invariant.
  cbn [roundrobin_pool.self roundrobin_pool.queueCounter roundrobin_pool.workers
       roundrobin_pool.workersSize].
  split; [|split; [|split; [|split]]].
  - rewrite Hc, uint64_incr_mod, length_app. cbn [length].
    unfold uint64_incr. f_equal. lia.
  - exact Hsz.
  - rewrite length_insert. exact Hlen.
  - intros j wj Hj. destruct (decide (i = j)) as [<-|Hne].
    + rewrite list_lookup_insert_eq in Hj by lia. injection Hj as <-.
      specialize (Hsrv i w Hw). unfold roundrobin_pool.in_service in *.
      rewrite Hcb, Hth. exact Hsrv.
    + rewrite list_lookup_insert_ne in Hj by exact Hne. eauto.
  - intros j Hj. rewrite routed_to_snoc, <- (Hrec j Hj).
    unfold roundrobin_pool.received.
    cbn [roundrobin_pool.self roundrobin_pool.invoked roundrobin_pool.workers].
    assert (Hroute : roundrobin_pool.route n (Z.of_nat (length xs)) = Z.of_nat i).
    { unfold roundrobin_pool.route. subst i. rewrite Hc, uint64_incr_mod.
      rewrite Z2Nat.id; [reflexivity|].
      apply Z.mod_pos_bound. lia. }
    rewrite Hroute.
    destruct (decide (i = j)) as [<-|Hne].
    + rewrite list_lookup_insert_eq by lia. rewrite Hw, Hitems, Z.eqb_refl.
      rewrite app_assoc. reflexivity.
    + rewrite list_lookup_insert_ne by exact Hne.
      replace (Z.of_nat i =? Z.of_nat j)%Z with false
        by (symmetry; apply Z.eqb_neq; lia).
      rewrite app_nil_r. reflexivity.
Qed.

Lemma roundrobin_step_work (n : nat) xs s (j : nat) :
  roundrobin_pool.invariant n xs s ->
  exists s', roundrobin_pool.step (roundrobin_pool.work j) s = Normal tt s'
             /\ roundrobin_pool.invariant n xs s'.
Proof.
  intros (Hc & Hsz & Hlen & Hsrv & Hrec).
  destruct s as [p u inv].
  cbn [roundrobin_pool.step roundrobin_pool.self] in *.
  unfold roundrobin_pool.worker_turn.
  cbn [roundrobin_pool.self roundrobin_pool.env roundrobin_pool.invoked].
  destruct (roundrobin_pool.workers p !! j) as [w|] eqn:Hw.
  2:{ eexists; split; [reflexivity|].
      exact (conj Hc (conj Hsz (conj Hlen (conj Hsrv Hrec)))). }
  destruct (simple_worker_loop_iteration_in_service w u (Hsrv j w Hw))
    as (r & Hrun & Hsrv' & Hhist).
  rewrite Hrun. eexists; split; [reflexivity|].
  pose proof (lookup_lt_Some _ _ _ Hw) as Hj.
  unfold roundrobin_pool.invariant.
  cbn [roundrobin_pool.self roundrobin_pool.queueCounter roundrobin_pool.workers
       roundrobin_pool.workersSize].
  split; [exact Hc|]. split; [exact Hsz|].
  split; [rewrite length_insert; exact Hlen|]. split.
  - intros k wk Hk. destruct (decide (j = k)) as [<-|Hne].
    + rewrite list_lookup_insert_eq in Hk by exact Hj. injection Hk as <-. exact Hsrv'.
    + rewrite list_lookup_insert_ne in Hk by exact Hne. eauto.
  - intros k Hk. rewrite <- (Hrec k Hk).
    unfold roundrobin_pool.received.
    cbn [roundrobin_pool.self roundrobin_pool.invoked roundrobin_pool.workers].
    rewrite List.filter_app, map_app.
    destruct (decide (j = k)) as [<-|Hne].
    + rewrite list_lookup_insert_eq by exact Hj.
      rewrite filter_pair_same, map_snd_pair, Hw, <- Hhist, <- app_assoc.
      reflexivity.
    + rewrite list_lookup_insert_ne by exact Hne.
      rewrite filter_pair_other by congruence. cbn. rewrite app_nil_r. reflexivity.
Qed.

Lemma roundrobin_run_invariant (n : nat) (schedule : list (roundrobin_pool.event T)) :
  0 < n ->
  forall xs s s',
    roundrobin_pool.invariant n xs s ->
    roundrobin_pool.run schedule s = Normal tt s' ->
    roundrobin_pool.invariant n (xs ++ roundrobin_pool.enqueued schedule) s'.
Proof.
  intros Hn. induction schedule as [|e schedule IH]; intros xs s s' Hinv Hrun.
  - cbn in *. injection Hrun as <-. rewrite app_nil_r. exact Hinv.
  - cbn [roundrobin_pool.run] in Hrun. unfold bind in Hrun.
    destruct e as [x|j].
    + destruct (roundrobin_pool.step (roundrobin_pool.enqueue x) s)
        as [[] s1| |] eqn:Hstep; try discriminate.
      cbn [roundrobin_pool.enqueued].
      replace (xs ++ x :: roundrobin_pool.enqueued schedule)
        with ((xs ++ [x]) ++ roundrobin_pool.enqueued schedule)
        by (rewrite <- app_assoc; reflexivity).
      eapply IH; [|exact Hrun].
      eapply roundrobin_step_enqueue; eassumption.
    + destruct (roundrobin_step_work n xs s j Hinv) as (s1 & Hstep & Hinv1).
      rewrite Hstep in Hrun. cbn [roundrobin_pool.enqueued].
      eapply IH; eassumption.
Qed.
End roundrobin_pool_runs.

(** C1 as stated fails: in a pool of two workers the first item enqueued,
    item number 0, is handed to worker 1, not to worker 0. *)
Lemma roundrobin_pool_first_item_counterexample :
  exists s,
    roundrobin_pool.run [roundrobin_pool.enqueue 7]
      (roundrobin_pool.running
         (roundrobin_pool.roundrobin_pool 2 8 (fun (_ : nat) (u : unit) => (returned, u)))
         tt)
    = Normal tt s
    /\ roundrobin_pool.received 0 s = []
    /\ roundrobin_pool.received 1 s = [7].
Proof. eexists. repeat split. Qed.

(** C1, amended.  [queue] increments the counter first and routes on the
    incremented value: in a pool of [n > 0] workers, item number [k]
    (counted from 0) of a single producer goes to worker
    [((k + 1) mod 2^64) mod n], which is [(k + 1) mod n] for the first
    [2^64 - 1] items.  Every worker is handed exactly the items routed to
    it, in order, whatever turns the workers' threads have taken in
    between.  In a pool without workers the index computed is 0 and
    [workers.at(0)] throws [out_of_range]. *)
Theorem roundrobin_pool_routing :
  forall (T U : Type) (N hc : nat) (c : T -> U -> completion * U) (u : U)
         (schedule : list (roundrobin_pool.event T)) (s : roundrobin_pool.system T U),
    let n := roundrobin_pool.pool_size N hc in
    (0 < n ->
     roundrobin_pool.run schedule
       (roundrobin_pool.running (roundrobin_pool.roundrobin_pool N hc c) u)
     = Normal tt s ->
     forall j, j < n ->
       roundrobin_pool.received j s
       = roundrobin_pool.routed_to n j (roundrobin_pool.enqueued schedule))
    /\ (forall k, (0 <= k)%Z -> (k + 1 < 2 ^ 64)%Z ->
          roundrobin_pool.route n k = ((k + 1) mod Z.of_nat n)%Z)
    /\ (n = 0 ->
        forall x,
          roundrobin_pool.nextWorkerIndex (roundrobin_pool.roundrobin_pool N hc c) = 0%Z
          /\ roundrobin_pool.queue x (roundrobin_pool.roundrobin_pool N hc c)
             = Throws out_of_range (roundrobin_pool.mk 1 [] 0)).
Proof.
  intros T U N hc c u schedule s n. split; [|split].
  - intros Hn Hrun j Hj.
    pose proof (roundrobin_run_invariant n schedule Hn [] _ s
                  (roundrobin_pool_constructed N hc c u) Hrun) as (_ & _ & _ & _ & H).
    exact (H j Hj).
  - intros k Hk0 Hk. unfold roundrobin_pool.route, uint64_incr, uint64_modulus.
    rewrite (Z.mod_small (k + 1)) by lia. reflexivity.
  - intros Hn x. subst n.
    unfold roundrobin_pool.roundrobin_pool. rewrite Hn. cbn [replicate Z.of_nat].
    apply (roundrobin_pool_queue_no_workers (roundrobin_pool.mk 0 [] 0) x); reflexivity.
Qed.

Lemma roundrobin_pool_routing_witness :
  exists s,
    roundrobin_pool.run
      [roundrobin_pool.enqueue 10; roundrobin_pool.enqueue 11; roundrobin_pool.work 1;
       roundrobin_pool.enqueue 12; roundrobin_pool.enqueue 13]
      (roundrobin_pool.running
         (roundrobin_pool.roundrobin_pool 3 8 (fun (_ : nat) (u : unit) => (raised, u)))
         tt)
    = Normal tt s
    /\ roundrobin_pool.received 1 s
       = roundrobin_pool.routed_to 3 1 [10; 11; 12; 13].
Proof.
  eexists. split; [vm_compute; reflexivity|].
  apply (proj1 (roundrobin_pool_routing nat unit 3 8 (fun _ u => (raised, u)) tt
                  [roundrobin_pool.enqueue 10; roundrobin_pool.enqueue 11;
                   roundrobin_pool.work 1;
                   roundrobin_pool.enqueue 12; roundrobin_pool.enqueue 13] _));
    [vm_compute; lia | vm_compute; reflexivity | vm_compute; lia].
Defined.

(* ================================================================= *)
(** ** A worker, its producers and its destructor, interleaved *)
Section basic_worker_runs.
Context {T U : Type}.
Implicit Types (s : basic_worker.system T U) (e : basic_worker.event T).

Ltac unfold_worker :=
  unfold basic_worker.step, basic_worker.consumer_step, basic_worker.request_stop,
    basic_worker.member,
    basic_worker.emplace_back, basic_worker.release, counting_semaphore.release,
    counting_semaphore.max, basic_worker.signal_LeastMaxValue,
    basic_worker.try_acquire_for, counting_semaphore.try_acquire_for,
    basic_worker.guard, basic_worker.take_front, basic_worker.goto,
    basic_worker.invoke, call, try_catch_all, modify, gets, ret;
  unfold bind.

(** No step loses an item, calls the callback twice with one, or lets an
    item overtake another. *)
Lemma basic_worker_step_history e s s' :
  basic_worker.callback (basic_worker.self s) <> None ->
  basic_worker.step e s = Normal tt s' ->
  basic_worker.history s' = basic_worker.history s ++ basic_worker.pushed [e]
  /\ basic_worker.callback (basic_worker.self s')
     = basic_worker.callback (basic_worker.self s).
Proof.
  destruct s as [[l c d f [st loc]] u h n]. cbn.
  destruct f as [g|]; [intros _|congruence].
  unfold basic_worker.history.
  destruct e as [x| | | | |]; unfold_worker; cbn.
  - intros [= <-]. cbn. rewrite !app_assoc. auto.
  - destruct n as [|n]; [intros [= <-]; cbn; rewrite !app_nil_r; auto|].
    destruct (c <? 512)%Z; [|discriminate].
    intros [= <-]. cbn. rewrite !app_nil_r. auto.
  - destruct loc as [| | | |y|x|]; cbn.
    + destruct st; cbn; intros [= <-]; cbn; rewrite !app_nil_r; auto.
    + destruct (0 <? c)%Z; cbn; intros [= <-]; cbn; rewrite !app_nil_r; auto.
    + destruct l as [|y l]; cbn; [intros [= <-]; cbn; rewrite !app_nil_r; auto|].
      destruct st; cbn; intros [= <-]; cbn; rewrite !app_nil_r; auto.
    + destruct l as [|y l]; cbn; [discriminate|].
      intros [= <-]. cbn. rewrite !app_nil_r. auto.
    + intros [= <-]. cbn. rewrite !app_nil_r. auto.
    + destruct (g x u) as [[] u']; cbn; intros [= <-]; cbn;
        rewrite !app_nil_r, <- !app_assoc; auto.
    + intros [= <-]. cbn. rewrite !app_nil_r. auto.
  - intros [= <-]. cbn. rewrite !app_nil_r. auto.
  - destruct (c <? 512)%Z; [|discriminate].
    intros [= <-]. cbn. rewrite !app_nil_r. auto.
  - intros [= <-]. cbn. rewrite !app_nil_r. auto.
Qed.

Lemma basic_worker_pushed_app (a b : list (basic_worker.event T)) :
  basic_worker.pushed (a ++ b) = basic_worker.pushed a ++ basic_worker.pushed b.
Proof.
  induction a as [|[x| | | | |] a IH]; cbn; [reflexivity| |assumption..].
  rewrite IH. reflexivity.
Qed.

Lemma basic_worker_run_history (schedule : list (basic_worker.event T)) : forall s s',
  basic_worker.callback (basic_worker.self s) <> None ->
  basic_worker.run schedule s = Normal tt s' ->
  basic_worker.history s' = basic_worker.history s ++ basic_worker.pushed schedule
  /\ basic_worker.callback (basic_worker.self s')
     = basic_worker.callback (basic_worker.self s).
Proof.
  induction schedule as [|e schedule IH]; intros s s' Hcb Hrun.
  - cbn in *. injection Hrun as <-. rewrite app_nil_r. auto.
  - cbn [basic_worker.run] in Hrun. unfold bind in Hrun.
    destruct (basic_worker.step e s) as [[] s1| |] eqn:Hstep; try discriminate.
    destruct (basic_worker_step_history e s s1 Hcb Hstep) as (H1 & Hcb1).
    destruct (IH s1 s' ltac:(congruence) Hrun) as (H2 & Hcb2).
    split; [|congruence].
    rewrite H2, H1. change (e :: schedule) with ([e] ++ schedule).
    rewrite basic_worker_pushed_app, app_assoc. reflexivity.
Qed.

(** Steps other than those of the destructor keep the thread running and
    the signals matched with the items. *)
Lemma basic_worker_step_balanced e s s' :
  basic_worker.destroying e = false ->
  basic_worker.live s -> basic_worker.balanced s ->
  basic_worker.step e s = Normal tt s' ->
  basic_worker.live s' /\ basic_worker.balanced s'.
Proof.
  destruct s as [[l c d f [st loc]] u h n].
  unfold basic_worker.live, basic_worker.balanced. cbn.
  intros He (-> & Hloc & Htest & Hf) (Hc & Hbal).
  destruct f as [g|]; [clear Hf|congruence].
  destruct e as [x| | | | |]; try discriminate He; unfold_worker; cbn.
  - intros [= <-]. cbn. rewrite length_app. cbn.
    split; [split; [reflexivity|split; [assumption|split; [assumption|congruence]]]|].
    split; lia.
  - destruct n as [|n].
    + intros [= <-]; cbn.
      split; [split; [reflexivity|split; [assumption|split; [assumption|congruence]]]|].
      split; lia.
    + destruct (c <? 512)%Z; [|discriminate].
      intros [= <-]. cbn.
      split; [split; [reflexivity|split; [assumption|split; [assumption|congruence]]]|].
      split; lia.
  - assert (Hlive : forall loc' : pc T,
               loc' <> finished -> (forall x, loc' <> at_test x) ->
               false = false /\ loc' <> finished /\ (forall x, loc' <> at_test x)
               /\ Some g <> None) by (intros; repeat split; auto; congruence).
    destruct loc as [| | | |y|x|]; cbn in *;
      [| | | |exfalso; exact (Htest y eq_refl)| |congruence].
    + intros [= <-]. cbn. split; [apply Hlive; congruence|]. split; lia.
    + destruct (Z.ltb_spec 0 c); cbn; intros [= <-]; cbn;
        (split; [apply Hlive; congruence|]); split; lia.
    + destruct l as [|y l]; cbn in *; [lia|].
      intros [= <-]. cbn. split; [apply Hlive; congruence|]. split; lia.
    + destruct l as [|y l]; cbn in *; [lia|].
      intros [= <-]. cbn. split; [apply Hlive; congruence|]. split; lia.
    + destruct (g x u) as [[] u']; cbn; intros [= <-]; cbn;
        (split; [apply Hlive; congruence|]); split; lia.
Qed.

Lemma basic_worker_run_balanced (schedule : list (basic_worker.event T)) : forall s s',
  Forall (fun e => basic_worker.destroying e = false) schedule ->
  basic_worker.live s -> basic_worker.balanced s ->
  basic_worker.run schedule s = Normal tt s' ->
  basic_worker.live s' /\ basic_worker.balanced s'.
Proof.
  induction schedule as [|e schedule IH]; intros s s' Hnd Hl Hb Hrun.
  - cbn in Hrun. injection Hrun as <-. auto.
  - cbn [basic_worker.run] in Hrun. unfold bind in Hrun.
    destruct (basic_worker.step e s) as [[] s1| |] eqn:Hstep; try discriminate.
    apply Forall_cons in Hnd as (He & Hnd).
    destruct (basic_worker_step_balanced e s s1 He Hl Hb Hstep) as (Hl1 & Hb1).
    exact (IH s1 s' Hnd Hl1 Hb1 Hrun).
Qed.

(** Once the producers are out of [queue], every statement the thread
    runs is one statement less to run, until nothing is left to do. *)
Lemma basic_worker_consumer_progress s :
  basic_worker.live s -> basic_worker.balanced s -> basic_worker.in_queue s = 0 ->
  exists s',
    basic_worker.step basic_worker.consumer s = Normal tt s'
    /\ basic_worker.in_queue s' = 0
    /\ basic_worker.remaining s' <= pred (basic_worker.remaining s).
Proof.
  destruct s as [[l c d f [st loc]] u h n].
  unfold basic_worker.live, basic_worker.balanced, basic_worker.remaining. cbn.
  intros (-> & Hloc & Htest & Hf) (Hc & Hbal) ->.
  destruct f as [g|]; [clear Hf|congruence].
  unfold_worker; cbn.
  destruct loc as [| | | |y|x|]; cbn in *;
    [| | | |exfalso; exact (Htest y eq_refl)| |congruence].
  - eexists. split; [reflexivity|]. split; [reflexivity|]. cbn.
    destruct (Z.ltb_spec 0 c); lia.
  - destruct (Z.ltb_spec 0 c); cbn.
    + eexists. split; [reflexivity|]. split; [reflexivity|]. cbn.
      destruct (Z.ltb_spec 0 (c - 1)); lia.
    + eexists. split; [reflexivity|]. split; [reflexivity|]. cbn.
      replace (0 <? c)%Z with false by (symmetry; apply Z.ltb_ge; lia). lia.
  - destruct l as [|y l]; cbn in *; [lia|].
    eexists. split; [reflexivity|]. split; [reflexivity|]. cbn. lia.
  - destruct l as [|y l]; cbn in *; [lia|].
    eexists. split; [reflexivity|]. split; [reflexivity|]. cbn. lia.
  - destruct (g x u) as [[] u']; cbn;
      (eexists; split; [reflexivity|]; split; [reflexivity|]; cbn;
       destruct (Z.ltb_spec 0 c); lia).
Qed.

Lemma basic_worker_drain (m : nat) : forall s,
  basic_worker.live s -> basic_worker.balanced s -> basic_worker.in_queue s = 0 ->
  basic_worker.remaining s <= m ->
  exists s',
    basic_worker.run (replicate m basic_worker.consumer) s = Normal tt s'
    /\ basic_worker.history s' = basic_worker.history s
    /\ basic_worker.live s' /\ basic_worker.balanced s'
    /\ basic_worker.in_queue s' = 0
    /\ basic_worker.remaining s' = 0.
Proof.
  induction m as [|m IH]; intros s Hl Hb Hq Hrem.
  - exists s. split; [reflexivity|]. split; [reflexivity|].
    split; [exact Hl|]. split; [exact Hb|]. split; [exact Hq|lia].
  - destruct (basic_worker_consumer_progress s Hl Hb Hq) as (s1 & Hstep & Hq1 & Hrem1).
    destruct (basic_worker_step_balanced basic_worker.consumer s s1
                eq_refl Hl Hb Hstep) as (Hl1 & Hb1).
    destruct (basic_worker_step_history basic_worker.consumer s s1
                ltac:(apply Hl) Hstep) as (Hh1 & _).
    destruct (IH s1 Hl1 Hb1 Hq1 ltac:(lia)) as (s' & Hrun & Hh & Hl' & Hb' & Hq' & Hrem').
    exists s'. cbn [replicate basic_worker.run]. unfold bind. rewrite Hstep.
    split; [exact Hrun|]. split; [|auto].
    rewrite Hh, Hh1. cbn. apply app_nil_r.
Qed.

(** With nothing left to do, every item given to the worker has been
    through the callback. *)
Lemma basic_worker_nothing_left s :
  basic_worker.live s -> basic_worker.balanced s -> basic_worker.in_queue s = 0 ->
  basic_worker.remaining s = 0 ->
  basic_worker.items (basic_worker.self s) = []
  /\ basic_worker.history s = basic_worker.invoked s.
Proof.
  destruct s as [[l c d f [st loc]] u h n].
  unfold basic_worker.live, basic_worker.balanced, basic_worker.remaining,
    basic_worker.history. cbn.
  intros (-> & Hloc & Htest & Hf) (Hc & Hbal) -> Hrem.
  destruct loc as [| | | |y|x|]; cbn in *; try lia; try congruence.
  - destruct l as [|y l]; cbn in *; [|lia]. rewrite app_nil_r. auto.
  - destruct l as [|y l]; cbn in *; [|lia]. rewrite app_nil_r. auto.
Qed.

Lemma basic_worker_remaining_bound s :
  basic_worker.balanced s ->
  basic_worker.remaining s <= 5 * length (basic_worker.items (basic_worker.self s)) + 4.
Proof.
  destruct s as [[l c d f [st loc]] u h n].
  unfold basic_worker.balanced, basic_worker.remaining. cbn.
  intros (Hc & Hbal). destruct loc; cbn in *; try lia.
  destruct (0 <? c)%Z; lia.
Qed.

(** A turn of the loop is what the thread does in at most five of its
    statements. *)
Lemma basic_worker_turn_in_statements s :
  location (basic_worker.processor (basic_worker.self s)) = at_while ->
  stop_requested (basic_worker.processor (basic_worker.self s)) = false ->
  exists k, k <= 5
    /\ basic_worker.run (replicate k basic_worker.consumer) s
       = basic_worker.loop_iteration s.
Proof.
  destruct s as [[l c d f [st loc]] u h n]. cbn. intros -> ->.
  destruct (0 <? c)%Z eqn:Hc; [destruct l as [|x l]|].
  - exists 3. split; [lia|].
    unfold basic_worker.loop_iteration, basic_worker.loop_body.
    cbn [replicate basic_worker.run]. unfold_worker. cbn. rewrite Hc. reflexivity.
  - exists 5. split; [lia|].
    unfold basic_worker.loop_iteration, basic_worker.loop_body.
    cbn [replicate basic_worker.run]. unfold_worker. cbn. rewrite Hc. cbn.
    destruct f as [g|]; cbn; [|reflexivity].
    destruct (g x u) as [[] u']; reflexivity.
  - exists 2. split; [lia|].
    unfold basic_worker.loop_iteration, basic_worker.loop_body.
    cbn [replicate basic_worker.run]. unfold_worker. cbn. rewrite Hc. reflexivity.
Qed.
End basic_worker_runs.
(* ================================================================= *)
(** ** The shared queue of [simple_pool] *)
Section simple_pool_runs.
Context {T U : Type}.
Variable max : Z.
Implicit Types (s : simple_pool.observed T U) (p : simple_pool.t T U)
  (e : simple_pool.event T).

(** [getNextItem] hands out the front of the deque and nothing else. *)
Lemma simple_pool_getNextItem_front p p' (r : option T) :
  simple_pool.getNextItem p = Normal r p' ->
  match r with
  | Some x => simple_pool.items p = x :: simple_pool.items p'
  | None => simple_pool.items p' = simple_pool.items p
  end.
Proof.
  destruct p as [q ws f c l d].
  unfold simple_pool.getNextItem, simple_pool.try_acquire_for,
    counting_semaphore.try_acquire_for, simple_pool.locked_extract, ret.
  unfold bind. cbn.
  destruct (0 <? c)%Z; cbn.
  - destruct l as [|y l]; cbn; intros [= <- <-]; reflexivity.
  - intros [= <- <-]. reflexivity.
Qed.

Lemma simple_pool_step_order e s s' :
  simple_pool.step max e s = Normal tt s' ->
  simple_pool.extracted s' ++ simple_pool.items (simple_pool.self s')
  = (simple_pool.extracted s ++ simple_pool.items (simple_pool.self s))
    ++ simple_pool.pushed [e].
Proof.
  destruct s as [[q ws f c l d] h n k j].
  destruct e as [x| | | |];
    unfold simple_pool.step, simple_pool.member, simple_pool.emplace_back,
      simple_pool.release, counting_semaphore.release,
      simple_pool.try_acquire_for, counting_semaphore.try_acquire_for,
      simple_pool.locked_extract, modify, ret;
    unfold bind; cbn.
  - intros [= <-]. cbn. rewrite app_assoc. reflexivity.
  - destruct n as [|n]; [intros [= <-]; cbn; rewrite app_nil_r; reflexivity|].
    destruct (c <? _)%Z; [|discriminate].
    intros [= <-]. cbn. rewrite app_nil_r. reflexivity.
  - destruct j as [|j]; intros [= <-]; cbn; rewrite app_nil_r; reflexivity.
  - destruct (0 <? c)%Z; cbn; intros [= <-]; cbn; rewrite app_nil_r; reflexivity.
  - destruct k as [|k]; [intros [= <-]; cbn; rewrite app_nil_r; reflexivity|].
    destruct l as [|y l]; cbn; intros [= <-]; cbn;
      rewrite ?app_nil_r, <- ?app_assoc; reflexivity.
Qed.

Lemma simple_pool_pushed_app (a b : list (simple_pool.event T)) :
  simple_pool.pushed (a ++ b) = simple_pool.pushed a ++ simple_pool.pushed b.
Proof.
  induction a as [|[x| | | |] a IH]; cbn; [reflexivity| |assumption..].
  rewrite IH. reflexivity.
Qed.

Lemma simple_pool_run_order (schedule : list (simple_pool.event T)) : forall s s',
  simple_pool.run max schedule s = Normal tt s' ->
  simple_pool.extracted s' ++ simple_pool.items (simple_pool.self s')
  = (simple_pool.extracted s ++ simple_pool.items (simple_pool.self s))
    ++ simple_pool.pushed schedule.
Proof.
  induction schedule as [|e schedule IH]; intros s s' Hrun.
  - cbn in *. injection Hrun as <-. rewrite app_nil_r. reflexivity.
  - cbn [simple_pool.run] in Hrun. unfold bind in Hrun.
    destruct (simple_pool.step max e s) as [[] s1| |] eqn:Hstep; try discriminate.
    rewrite (IH s1 s' Hrun), (simple_pool_step_order e s s1 Hstep).
    change (e :: schedule) with ([e] ++ schedule).
    rewrite simple_pool_pushed_app, app_assoc. reflexivity.
Qed.
End simple_pool_runs.

(** C6.  Within one guarded queue the items leave in the order in which
    they were appended.  [queue] appends at the back and an extraction
    takes exactly the front; so, in every interleaving of producers with
    the consumer, the items a worker's callback was called with, followed
    by the item its thread holds and by those still queued, are the items
    appended, in the order of appending; and the items [getNextItem] has
    handed out from the queue of a [simple_pool], followed by those still
    queued, are the items appended, in order. *)
Theorem guarded_queue_is_fifo :
  forall (T U : Type) (c : T -> U -> completion * U) (u : U)
         (schedule : list (basic_worker.event T)) (s : basic_worker.system T U)
         (max : Z) (N hc : nat)
         (pool_schedule : list (simple_pool.event T)) (ps : simple_pool.observed T U),
    (forall (w w' : basic_worker.t T U) (x : T),
        basic_worker.queue x w = Normal tt w' ->
        basic_worker.items w' = basic_worker.items w ++ [x])
    /\ (forall (p p' : simple_pool.t T U) (x : T),
          simple_pool.getNextItem p = Normal (Some x) p' ->
          simple_pool.items p = x :: simple_pool.items p')
    /\ (basic_worker.run schedule (basic_worker.running (basic_worker.basic_worker c) u)
        = Normal tt s ->
        basic_worker.invoked s
          ++ holding (basic_worker.processor (basic_worker.self s))
          ++ basic_worker.items (basic_worker.self s)
        = basic_worker.pushed schedule)
    /\ (simple_pool.run max pool_schedule
          (simple_pool.fresh (simple_pool.simple_pool N hc c))
        = Normal tt ps ->
        simple_pool.extracted ps ++ simple_pool.items (simple_pool.self ps)
        = simple_pool.pushed pool_schedule).
Proof.
  intros T U c u schedule s max N hc pool_schedule ps.
  split; [|split; [|split]].
  - intros w w' x. destruct w as [l k d f th].
    unfold basic_worker.queue, basic_worker.emplace_back, basic_worker.release,
      counting_semaphore.release, modify. unfold bind. cbn.
    destruct (k <? _)%Z; [|discriminate]. intros [= <-]. reflexivity.
  - intros p p' x H. exact (simple_pool_getNextItem_front p p' (Some x) H).
  - intros Hrun.
    assert (Hcb : basic_worker.callback
                    (basic_worker.self
                       (basic_worker.running (basic_worker.basic_worker c) u)) <> None)
      by (cbn; congruence).
    destruct (basic_worker_run_history schedule _ s Hcb Hrun) as (H & _).
    exact H.
  - intros Hrun. exact (simple_pool_run_order max pool_schedule _ ps Hrun).
Qed.

Lemma guarded_queue_is_fifo_witness :
  let c := fun (x : nat) (u : nat) => (raised, x + u) in
  let schedule :=
    [basic_worker.queue_push 1; basic_worker.queue_push 2; basic_worker.queue_signal;
     basic_worker.consumer; basic_worker.consumer; basic_worker.consumer;
     basic_worker.queue_push 3; basic_worker.consumer; basic_worker.queue_signal;
     basic_worker.consumer; basic_worker.consumer; basic_worker.consumer] in
  let pool_schedule :=
    [simple_pool.queue_push 1; simple_pool.queue_push 2; simple_pool.queue_signal;
     simple_pool.consumer_wait; simple_pool.queue_signal; simple_pool.consumer_wait;
     simple_pool.consumer_extract; simple_pool.queue_push 3;
     simple_pool.consumer_extract] in
  exists s ps,
    basic_worker.run schedule (basic_worker.running (basic_worker.basic_worker c) 0)
    = Normal tt s
    /\ simple_pool.run 1000 pool_schedule
         (simple_pool.fresh (simple_pool.simple_pool 2 8 c))
       = Normal tt ps
    /\ basic_worker.invoked s
         ++ holding (basic_worker.processor (basic_worker.self s))
         ++ basic_worker.items (basic_worker.self s)
       = basic_worker.pushed schedule
    /\ simple_pool.extracted ps ++ simple_pool.items (simple_pool.self ps)
       = simple_pool.pushed pool_schedule.
Proof.
  intros c schedule pool_schedule.
  eexists _, _.
  split; [vm_compute; reflexivity|].
  split; [vm_compute; reflexivity|].
  lazymatch goal with
  | |- basic_worker.invoked ?s ++ _ = _ /\ simple_pool.extracted ?ps ++ _ = _ =>
      destruct (guarded_queue_is_fifo nat nat c 0 schedule s 1000 2 8 pool_schedule ps)
        as (_ & _ & Hw & Hp)
  end.
  split; [apply Hw|apply Hp]; vm_compute; reflexivity.
Defined.

(* ================================================================= *)
(** ** The threads of a [basic_pool] and its producers, interleaved *)
Section basic_pool_runs.
Context {T U : Type}.
Implicit Types (s : basic_pool.system T U) (e : basic_pool.event T)
  (th : jthread T) (ws A B : list (jthread T)).

Lemma workers_split ws (i : nat) th :
  ws !! i = Some th ->
  exists A B, ws = A ++ th :: B /\ length A = i
              /\ forall th', <[i := th']> ws = A ++ th' :: B.
Proof.
  intros H. exists (take i ws), (drop (S i) ws).
  pose proof (lookup_lt_Some _ _ _ H) as Hi.
  split; [symmetry; apply take_drop_middle; exact H|].
  split; [rewrite length_take; lia|].
  intros th'. apply insert_take_drop. exact Hi.
Qed.

Lemma in_flight_split q A th B f c l d :
  basic_pool.in_flight (basic_pool.mk (T:=T) (U:=U) q (A ++ th :: B) f c l d)
  = concat (map holding A) ++ holding th ++ concat (map holding B).
Proof.
  unfold basic_pool.in_flight. cbn.
  rewrite map_app, concat_app. reflexivity.
Qed.

Lemma owed_split A th B :
  basic_pool.owed (A ++ th :: B)
  = basic_pool.owed A + owes_item (location th) + basic_pool.owed B.
Proof. unfold basic_pool.owed. rewrite sum_list_with_app. cbn. lia. Qed.

Lemma statements_split (w : bool) A th B :
  sum_list_with (fun th => statements_left w (location th)) (A ++ th :: B)
  = sum_list_with (fun th => statements_left w (location th)) A
    + statements_left w (location th)
    + sum_list_with (fun th => statements_left w (location th)) B.
Proof. rewrite sum_list_with_app. cbn. lia. Qed.

Lemma statements_left_mono (w : bool) ws :
  sum_list_with (fun th => statements_left w (location th)) ws
  <= sum_list_with (fun th => statements_left true (location th)) ws.
Proof.
  induction ws as [|[st loc] ws IH]; cbn; [lia|].
  destruct loc, w; cbn; lia.
Qed.

(** What the next statement of a running thread does, the thread being
    the one after [A] in the vector of workers. *)
Lemma basic_pool_thread_step_split q A loc B g c l d (u : U) h n k :
  basic_pool.thread_step (length A)
    (basic_pool.mk_system
       (basic_pool.mk q (A ++ mk_jthread false loc :: B) (Some g) c l d) u h n k)
  = match loc with
    | at_while =>
        Normal tt (basic_pool.mk_system
                     (basic_pool.mk q (A ++ mk_jthread false at_wait :: B)
                        (Some g) c l d) u h n k)
    | at_wait =>
        if (0 <? c)%Z
        then Normal tt (basic_pool.mk_system
                          (basic_pool.mk q (A ++ mk_jthread false at_guard :: B)
                             (Some g) (c - 1) l d) u h n k)
        else Normal tt (basic_pool.mk_system
                          (basic_pool.mk q (A ++ mk_jthread false at_while :: B)
                             (Some g) c l d) u h n k)
    | at_guard =>
        match l with
        | [] => Normal tt (basic_pool.mk_system
                             (basic_pool.mk q (A ++ mk_jthread false at_while :: B)
                                (Some g) c l d) u h n k)
        | _ :: _ => Normal tt (basic_pool.mk_system
                                 (basic_pool.mk q (A ++ mk_jthread false at_lock :: B)
                                    (Some g) c l d) u h n k)
        end
    | at_lock =>
        match l with
        | [] => Undefined
        | x :: rest =>
            Normal tt (basic_pool.mk_system
                         (basic_pool.mk q (A ++ mk_jthread false (at_callback x) :: B)
                            (Some g) c rest d) u h n k)
        end
    | at_callback x =>
        Normal tt (basic_pool.mk_system
                     (basic_pool.mk q (A ++ mk_jthread false at_while :: B)
                        (Some g) c l d) (snd (g x u)) (h ++ [x]) n k)
    | at_test _ | finished =>
        Normal tt (basic_pool.mk_system
                     (basic_pool.mk q (A ++ mk_jthread false loc :: B)
                        (Some g) c l d) u h n k)
    end.
Proof.
  unfold basic_pool.thread_step. cbn [basic_pool.self basic_pool.workers].
  rewrite list_lookup_middle by reflexivity.
  assert (Hins : forall th', <[length A := th']> (A ++ mk_jthread false loc :: B)
                             = A ++ th' :: B).
  { intros th'. rewrite insert_app_r_alt by lia.
    rewrite Nat.sub_diag. reflexivity. }
  cbn [location stop_requested].
  unfold basic_pool.member, basic_pool.try_acquire_for,
    counting_semaphore.try_acquire_for, basic_pool.guard, basic_pool.take_front,
    basic_pool.goto, basic_pool.invoke, call, try_catch_all, modify, gets, ret.
  unfold bind.
  destruct loc as [| | | |y|x|]; cbn.
  - rewrite Hins. reflexivity.
  - destruct (0 <? c)%Z; cbn; rewrite ?Hins; reflexivity.
  - destruct l as [|y l]; cbn; rewrite Hins; reflexivity.
  - destruct l as [|y l]; cbn; rewrite ?Hins; reflexivity.
  - reflexivity.
  - destruct (g x u) as [[] u']; cbn; rewrite Hins; reflexivity.
  - reflexivity.
Qed.

Lemma lookup_middle_other A B (th th' : jthread T) (j : nat) :
  j <> length A -> (A ++ th' :: B) !! j = (A ++ th :: B) !! j.
Proof.
  intros Hj. destruct (decide (j < length A)) as [Hlt|Hge].
  - rewrite !lookup_app_l by exact Hlt. reflexivity.
  - rewrite !lookup_app_r by lia.
    destruct (j - length A) as [|m] eqn:Hm; [lia|reflexivity].
Qed.

(** What a statement of thread [i] does to a pool whose threads run and
    whose signals match its items: nothing is lost or duplicated, and
    either one statement less remains to be run, or the thread found no
    signal to wait for or to take, and nothing but its place between the
    test of the [while] and the wait has changed. *)
Lemma basic_pool_thread_progress (i : nat) s :
  basic_pool.live s -> basic_pool.balanced s ->
  exists s',
    basic_pool.thread_step i s = Normal tt s'
    /\ basic_pool.live s' /\ basic_pool.balanced s'
    /\ basic_pool.in_queue s' = basic_pool.in_queue s
    /\ basic_pool.accounted s' ≡ₚ basic_pool.accounted s
    /\ length (basic_pool.workers (basic_pool.self s'))
       = length (basic_pool.workers (basic_pool.self s))
    /\ (basic_pool.remaining s' + 1 <= basic_pool.remaining s
        \/ (basic_pool.remaining s' = basic_pool.remaining s
            /\ basic_pool.signal (basic_pool.self s')
               = basic_pool.signal (basic_pool.self s)
            /\ (forall j, j <> i ->
                  basic_pool.workers (basic_pool.self s') !! j
                  = basic_pool.workers (basic_pool.self s) !! j)
            /\ forall th, basic_pool.workers (basic_pool.self s) !! i = Some th ->
                          (location th = at_while \/ location th = at_wait)
                          /\ basic_pool.signal (basic_pool.self s) = 0%Z)).
Proof.
  destruct s as [[q ws f c l d] u h n k].
  intros (Hf & Hws) (Hc & Hbal).
  cbn [basic_pool.self basic_pool.callback basic_pool.workers basic_pool.signal
       basic_pool.items basic_pool.in_queue] in Hf, Hws, Hc, Hbal.
  destruct (ws !! i) as [th|] eqn:Hi.
  2:{ exists (basic_pool.mk_system (basic_pool.mk q ws f c l d) u h n k).
      unfold basic_pool.thread_step. cbn. rewrite Hi.
      split; [reflexivity|]. split; [split; assumption|]. split; [split; assumption|].
      split; [reflexivity|]. split; [reflexivity|]. split; [reflexivity|].
      right. split; [reflexivity|]. split; [reflexivity|].
      split; [reflexivity|]. intros th [=]. }
  destruct (workers_split ws i th Hi) as (A & B & -> & <- & _).
  destruct f as [g|]; [clear Hf|congruence].
  apply Forall_app in Hws as (HA & HthB).
  apply Forall_cons in HthB as ((Hst & Hloc & Htest) & HB).
  destruct th as [st loc]. cbn in Hst, Hloc, Htest. subst st.
  rewrite basic_pool_thread_step_split.
  unfold basic_pool.live, basic_pool.balanced, basic_pool.remaining,
    basic_pool.accounted.
  rewrite owed_split in Hbal. cbn [location] in Hbal.
  assert (Hlive : forall loc', loc' <> finished -> (forall x, loc' <> at_test x) ->
            Forall (fun th => stop_requested th = false /\ location th <> finished
                              /\ forall x, location th <> at_test x)
              (A ++ mk_jthread false loc' :: B)).
  { intros loc' Hloc' Htest'. apply Forall_app. split; [exact HA|].
    apply Forall_cons. split; [split; [reflexivity|split; [exact Hloc'|exact Htest']]|exact HB]. }
  assert (Hidle : forall loc',
            (forall j, j <> length A ->
               (A ++ mk_jthread false loc' :: B) !! j
               = (A ++ mk_jthread false loc :: B) !! j)).
  { intros loc' j Hj. apply lookup_middle_other. exact Hj. }
  destruct loc as [| | | |y|x|];
    [| | | |exfalso; exact (Htest y eq_refl)| |congruence]; cbn [owes_item] in Hbal.
  - eexists. split; [reflexivity|].
    cbn [basic_pool.self basic_pool.callback basic_pool.workers basic_pool.signal
         basic_pool.items basic_pool.in_queue basic_pool.invoked].
    rewrite !in_flight_split, !owed_split, !statements_split. cbn.
    split; [split; [congruence|apply Hlive; congruence]|].
    split; [split; lia|]. split; [reflexivity|]. split; [reflexivity|].
    split; [rewrite !length_app; reflexivity|].
    destruct (Z.ltb_spec 0 c); [left; lia|right].
    split; [lia|]. split; [reflexivity|]. split; [apply Hidle|].
    rewrite list_lookup_middle by reflexivity. intros th [= <-]. cbn.
    split; [auto|lia].
  - destruct (Z.ltb_spec 0 c).
    + eexists. split; [reflexivity|].
      cbn [basic_pool.self basic_pool.callback basic_pool.workers basic_pool.signal
           basic_pool.items basic_pool.in_queue basic_pool.invoked].
      rewrite !in_flight_split, !owed_split, !statements_split.
      pose proof (statements_left_mono (0 <? c - 1)%Z A).
      pose proof (statements_left_mono (0 <? c - 1)%Z B).
      cbn.
      split; [split; [congruence|apply Hlive; congruence]|].
      split; [split; lia|]. split; [reflexivity|]. split; [reflexivity|].
      split; [rewrite !length_app; reflexivity|]. left.
      replace (0 <? c)%Z with true by (symmetry; apply Z.ltb_lt; lia). lia.
    + eexists. split; [reflexivity|].
      cbn [basic_pool.self basic_pool.callback basic_pool.workers basic_pool.signal
           basic_pool.items basic_pool.in_queue basic_pool.invoked].
      rewrite !in_flight_split, !owed_split, !statements_split. cbn.
      split; [split; [congruence|apply Hlive; congruence]|].
      split; [split; lia|]. split; [reflexivity|]. split; [reflexivity|].
      split; [rewrite !length_app; reflexivity|]. right.
      replace (0 <? c)%Z with false by (symmetry; apply Z.ltb_ge; lia).
      split; [lia|]. split; [reflexivity|]. split; [apply Hidle|].
      rewrite list_lookup_middle by reflexivity. intros th [= <-]. cbn.
      split; [auto|lia].
  - destruct l as [|y l]; [cbn in Hbal; lia|].
    eexists. split; [reflexivity|].
    cbn [basic_pool.self basic_pool.callback basic_pool.workers basic_pool.signal
         basic_pool.items basic_pool.in_queue basic_pool.invoked].
    rewrite !in_flight_split, !owed_split, !statements_split. cbn.
    split; [split; [congruence|apply Hlive; congruence]|].
    split; [split; [lia|cbn in Hbal; lia]|]. split; [reflexivity|]. split; [reflexivity|].
    split; [rewrite !length_app; reflexivity|]. left. lia.
  - destruct l as [|y l]; [cbn in Hbal; lia|].
    eexists. split; [reflexivity|].
    cbn [basic_pool.self basic_pool.callback basic_pool.workers basic_pool.signal
         basic_pool.items basic_pool.in_queue basic_pool.invoked].
    rewrite !in_flight_split, !owed_split, !statements_split. cbn.
    split; [split; [congruence|apply Hlive; congruence]|].
    split; [split; [lia|cbn in Hbal; lia]|]. split; [reflexivity|].
    split; [solve_Permutation|].
    split; [rewrite !length_app; reflexivity|]. left. lia.
  - eexists. split; [reflexivity|].
    cbn [basic_pool.self basic_pool.callback basic_pool.workers basic_pool.signal
         basic_pool.items basic_pool.in_queue basic_pool.invoked].
    rewrite !in_flight_split, !owed_split, !statements_split. cbn.
    split; [split; [congruence|apply Hlive; congruence]|].
    split; [split; [lia|cbn in Hbal; lia]|]. split; [reflexivity|].
    split; [solve_Permutation|].
    split; [rewrite !length_app; reflexivity|]. left.
    destruct (0 <? c)%Z; lia.
Qed.

Lemma basic_pool_step_invariant e s s' :
  basic_pool.live s -> basic_pool.balanced s ->
  basic_pool.step e s = Normal tt s' ->
  basic_pool.live s' /\ basic_pool.balanced s'
  /\ basic_pool.accounted s' ≡ₚ basic_pool.accounted s ++ basic_pool.pushed [e]
  /\ length (basic_pool.workers (basic_pool.self s'))
     = length (basic_pool.workers (basic_pool.self s)).
Proof.
  intros Hl Hb. destruct e as [x| | |i].
  - destruct s as [[q ws f c l d] u h n k].
    destruct Hl as (Hf & Hws), Hb as (Hc & Hbal).
    unfold basic_pool.step, basic_pool.member, basic_pool.emplace_back, modify.
    unfold bind. cbn. intros [= <-].
    unfold basic_pool.live, basic_pool.balanced, basic_pool.accounted,
      basic_pool.in_flight in *. cbn in *.
    split; [split; assumption|]. split; [split; [lia|rewrite length_app; cbn; lia]|].
    split; [|reflexivity]. rewrite <- !app_assoc. reflexivity.
  - destruct s as [[q ws f c l d] u h n k].
    destruct Hl as (Hf & Hws), Hb as (Hc & Hbal).
    unfold basic_pool.step, basic_pool.member, basic_pool.release,
      counting_semaphore.release, modify.
    unfold bind. cbn [basic_pool.in_queue].
    destruct n as [|n].
    + intros [= <-]. cbn. rewrite app_nil_r.
      split; [split; assumption|]. split; [split; assumption|]. split; reflexivity.
    + cbn. destruct (c <? _)%Z; [|discriminate]. intros [= <-].
      unfold basic_pool.live, basic_pool.balanced, basic_pool.accounted,
        basic_pool.in_flight in *. cbn in *. rewrite app_nil_r.
      split; [split; assumption|]. split; [split; lia|]. split; reflexivity.
  - destruct s as [[q ws f c l d] u h n k].
    destruct Hl as (Hf & Hws), Hb as (Hc & Hbal).
    unfold basic_pool.step, basic_pool.member, modify.
    unfold bind. cbn [basic_pool.counting].
    destruct k as [|k]; intros [= <-]; cbn; rewrite app_nil_r;
      (split; [split; assumption|]; split; [split; assumption|]; split; reflexivity).
  - cbn [basic_pool.step basic_pool.pushed]. intros Hstep.
    destruct (basic_pool_thread_progress i s Hl Hb)
      as (s1 & Hstep1 & Hl1 & Hb1 & _ & Hacc & Hlen & _).
    rewrite Hstep in Hstep1. injection Hstep1 as <-.
    rewrite app_nil_r. auto.
Qed.

Lemma basic_pool_pushed_app (a b : list (basic_pool.event T)) :
  basic_pool.pushed (a ++ b) = basic_pool.pushed a ++ basic_pool.pushed b.
Proof.
  induction a as [|[x| | |i] a IH]; cbn; [reflexivity| |assumption..].
  rewrite IH. reflexivity.
Qed.

Lemma basic_pool_run_invariant (schedule : list (basic_pool.event T)) : forall s s',
  basic_pool.live s -> basic_pool.balanced s ->
  basic_pool.run schedule s = Normal tt s' ->
  basic_pool.live s' /\ basic_pool.balanced s'
  /\ basic_pool.accounted s' ≡ₚ basic_pool.accounted s ++ basic_pool.pushed schedule
  /\ length (basic_pool.workers (basic_pool.self s'))
     = length (basic_pool.workers (basic_pool.self s)).
Proof.
  induction schedule as [|e schedule IH]; intros s s' Hl Hb Hrun.
  - cbn in Hrun. injection Hrun as <-. cbn. rewrite app_nil_r. auto.
  - cbn [basic_pool.run] in Hrun. unfold bind in Hrun.
    destruct (basic_pool.step e s) as [[] s1| |] eqn:Hstep; try discriminate.
    destruct (basic_pool_step_invariant e s s1 Hl Hb Hstep) as (Hl1 & Hb1 & Hacc1 & Hlen1).
    destruct (IH s1 s' Hl1 Hb1 Hrun) as (Hl' & Hb' & Hacc' & Hlen').
    split; [exact Hl'|]. split; [exact Hb'|]. split; [|congruence].
    rewrite Hacc', Hacc1. change (e :: schedule) with ([e] ++ schedule).
    rewrite basic_pool_pushed_app, app_assoc. reflexivity.
Qed.

Lemma basic_pool_run_app (a b : list (basic_pool.event T)) s :
  basic_pool.run (a ++ b) s = (basic_pool.run a ;;; basic_pool.run b) s.
Proof.
  revert s. induction a as [|e a IH]; intros s; [reflexivity|].
  cbn [app basic_pool.run]. unfold bind in *.
  destruct (basic_pool.step e s) as [[] s1| |]; [apply IH|reflexivity..].
Qed.

(** The threads alone, in any order: nothing is lost, the work left does
    not grow, and it stays the same only if every thread that ran found
    no signal to wait for or to take. *)
Lemma basic_pool_threads_run (r : list nat) : forall s,
  basic_pool.live s -> basic_pool.balanced s ->
  exists s',
    basic_pool.run (map basic_pool.thread r) s = Normal tt s'
    /\ basic_pool.live s' /\ basic_pool.balanced s'
    /\ basic_pool.in_queue s' = basic_pool.in_queue s
    /\ basic_pool.accounted s' ≡ₚ basic_pool.accounted s
    /\ length (basic_pool.workers (basic_pool.self s'))
       = length (basic_pool.workers (basic_pool.self s))
    /\ basic_pool.remaining s' <= basic_pool.remaining s
    /\ (basic_pool.remaining s' = basic_pool.remaining s ->
        forall i th, In i r ->
          basic_pool.workers (basic_pool.self s) !! i = Some th ->
          (location th = at_while \/ location th = at_wait)
          /\ basic_pool.signal (basic_pool.self s) = 0%Z).
Proof.
  induction r as [|i r IH]; intros s Hl Hb.
  - exists s. cbn. repeat (split; [solve [auto]|]). intros _ i th [].
  - destruct (basic_pool_thread_progress i s Hl Hb)
      as (s1 & Hstep & Hl1 & Hb1 & Hq1 & Hacc1 & Hlen1 & Hrem1).
    destruct (IH s1 Hl1 Hb1) as (s' & Hrun & Hl' & Hb' & Hq' & Hacc' & Hlen' & Hrem' & Hidle).
    exists s'. cbn [map basic_pool.run]. unfold bind.
    cbn [basic_pool.step]. rewrite Hstep.
    split; [exact Hrun|]. split; [exact Hl'|]. split; [exact Hb'|].
    split; [congruence|]. split; [rewrite Hacc'; exact Hacc1|].
    split; [congruence|].
    destruct Hrem1 as [Hdec|(Hsame & Hsig & Hothers & Hhere)].
    + split; [lia|]. intros Heq. lia.
    + split; [lia|]. intros Heq j th Hin Hj.
      destruct (decide (j = i)) as [->|Hne]; [apply Hhere; exact Hj|].
      destruct Hin as [<-|Hin]; [congruence|].
      rewrite <- Hsig. apply (Hidle ltac:(lia) j th Hin).
      rewrite Hothers by exact Hne. exact Hj.
Qed.

Lemma all_idle_nothing_left ws :
  (forall i th, ws !! i = Some th -> location th = at_while \/ location th = at_wait) ->
  sum_list_with (fun th => statements_left false (location th)) ws = 0.
Proof.
  induction ws as [|th ws IH]; intros H; [reflexivity|].
  cbn. rewrite IH by (intros i th' Hi; apply (H (S i) th'); exact Hi).
  destruct (H 0 th eq_refl) as [-> | ->]; reflexivity.
Qed.

Lemma nothing_left_idle (w : bool) ws :
  Forall (fun th => forall x, location th <> at_test x) ws ->
  sum_list_with (fun th => statements_left w (location th)) ws = 0 ->
  basic_pool.owed ws = 0 /\ concat (map holding ws) = [].
Proof.
  unfold basic_pool.owed.
  induction ws as [|[st loc] ws IH]; cbn; [auto|].
  intros Hws H. apply Forall_cons in Hws as (Hth & Hws). cbn in Hth.
  destruct loc as [| | | |y|x|]; cbn in *; try lia;
    try (apply IH; [exact Hws|lia]).
  exfalso. exact (Hth y eq_refl).
Qed.

Lemma statements_left_bound (w : bool) ws :
  sum_list_with (fun th => statements_left w (location th)) ws <= 4 * length ws.
Proof.
  induction ws as [|[st loc] ws IH]; cbn; [lia|].
  destruct loc, w; cbn; lia.
Qed.

(** In a fair round some thread does a statement of the work left, if any
    is left. *)
Lemma basic_pool_fair_round (n : nat) (r : list nat) s :
  basic_pool.fair_round n r ->
  length (basic_pool.workers (basic_pool.self s)) = n -> 0 < n ->
  basic_pool.live s -> basic_pool.balanced s ->
  exists s',
    basic_pool.run (map basic_pool.thread r) s = Normal tt s'
    /\ basic_pool.live s' /\ basic_pool.balanced s'
    /\ basic_pool.in_queue s' = basic_pool.in_queue s
    /\ basic_pool.accounted s' ≡ₚ basic_pool.accounted s
    /\ length (basic_pool.workers (basic_pool.self s')) = n
    /\ basic_pool.remaining s' <= pred (basic_pool.remaining s).
Proof.
  intros Hfair Hlen Hn Hl Hb.
  destruct (basic_pool_threads_run r s Hl Hb)
    as (s' & Hrun & Hl' & Hb' & Hq' & Hacc' & Hlen' & Hrem' & Hidle).
  exists s'. repeat (split; [solve [auto | congruence]|]).
  destruct (decide (basic_pool.remaining s' = basic_pool.remaining s)) as [Heq|Hne];
    [|lia].
  specialize (Hidle Heq).
  assert (Hall : forall i th, basic_pool.workers (basic_pool.self s) !! i = Some th ->
                              (location th = at_while \/ location th = at_wait)
                              /\ basic_pool.signal (basic_pool.self s) = 0%Z).
  { intros i th Hi. apply (Hidle i th); [|exact Hi].
    apply Hfair. apply lookup_lt_Some in Hi. lia. }
  destruct (lookup_lt_is_Some_2 (basic_pool.workers (basic_pool.self s)) 0 ltac:(lia))
    as [th0 H0].
  destruct (Hall 0 th0 H0) as (_ & Hsig).
  rewrite Heq. unfold basic_pool.remaining. rewrite Hsig.
  change (0 <? 0)%Z with false.
  rewrite all_idle_nothing_left; [cbn; lia|].
  intros i th Hi. apply (Hall i th Hi).
Qed.

Lemma basic_pool_rounds (n : nat) (rounds : list (list nat)) : forall s,
  Forall (basic_pool.fair_round n) rounds ->
  length (basic_pool.workers (basic_pool.self s)) = n -> 0 < n ->
  basic_pool.live s -> basic_pool.balanced s ->
  basic_pool.remaining s <= length rounds ->
  exists s',
    basic_pool.run (map basic_pool.thread (concat rounds)) s = Normal tt s'
    /\ basic_pool.live s' /\ basic_pool.balanced s'
    /\ basic_pool.in_queue s' = basic_pool.in_queue s
    /\ basic_pool.accounted s' ≡ₚ basic_pool.accounted s
    /\ basic_pool.remaining s' = 0.
Proof.
  induction rounds as [|r rounds IH]; intros s Hfair Hlen Hn Hl Hb Hrem.
  - exists s. cbn in *. repeat (split; [solve [auto]|]). lia.
  - apply Forall_cons in Hfair as (Hr & Hfair).
    destruct (basic_pool_fair_round n r s Hr Hlen Hn Hl Hb)
      as (s1 & Hrun1 & Hl1 & Hb1 & Hq1 & Hacc1 & Hlen1 & Hrem1).
    destruct (IH s1 Hfair Hlen1 Hn Hl1 Hb1) as (s' & Hrun & Hl' & Hb' & Hq' & Hacc' & Hrem').
    { cbn [length] in Hrem. lia. }
    exists s'. cbn [concat]. rewrite map_app, basic_pool_run_app.
    unfold bind. rewrite Hrun1.
    split; [exact Hrun|]. split; [exact Hl'|]. split; [exact Hb'|].
    split; [congruence|]. split; [rewrite Hacc'; exact Hacc1|exact Hrem'].
Qed.

(** With nothing left to do and no producer between the locked block and
    [signal.release()], every item given to the pool has been through
    the callback. *)
Lemma basic_pool_nothing_left s :
  basic_pool.live s -> basic_pool.balanced s -> basic_pool.in_queue s = 0 ->
  basic_pool.remaining s = 0 ->
  basic_pool.items (basic_pool.self s) = []
  /\ basic_pool.in_flight (basic_pool.self s) = []
  /\ basic_pool.accounted s = basic_pool.invoked s.
Proof.
  destruct s as [[q ws f c l d] u h n k].
  unfold basic_pool.live, basic_pool.balanced, basic_pool.remaining,
    basic_pool.accounted, basic_pool.in_flight.
  cbn [basic_pool.self basic_pool.signal basic_pool.items basic_pool.in_queue
       basic_pool.workers basic_pool.invoked basic_pool.callback].
  intros (_ & Hws) (Hc & Hbal) -> Hrem.
  destruct (nothing_left_idle (0 <? c)%Z ws) as (Howed & Hfl); [|lia|].
  { eapply Forall_impl; [exact Hws|]. intros th (_ & _ & H). exact H. }
  rewrite Howed in Hbal. rewrite Hfl.
  destruct l as [|y l]; cbn in *; [|lia].
  rewrite app_nil_r. auto.
Qed.

Lemma basic_pool_remaining_bound s :
  basic_pool.balanced s ->
  basic_pool.remaining s
  <= 5 * length (basic_pool.items (basic_pool.self s))
     + 4 * length (basic_pool.workers (basic_pool.self s)).
Proof.
  destruct s as [[q ws f c l d] u h n k].
  unfold basic_pool.balanced, basic_pool.remaining.
  cbn [basic_pool.self basic_pool.signal basic_pool.items basic_pool.in_queue
       basic_pool.workers basic_pool.invoked].
  intros (Hc & Hbal). pose proof (statements_left_bound (0 <? c)%Z ws). lia.
Qed.

Lemma basic_pool_constructed (N hc : nat) (c : T -> U -> completion * U) (u : U) :
  let s := basic_pool.running (basic_pool.basic_pool N hc c) u in
  basic_pool.live s /\ basic_pool.balanced s
  /\ basic_pool.accounted s = []
  /\ length (basic_pool.workers (basic_pool.self s)) = basic_pool.pool_size N hc.
Proof.
  cbn zeta. unfold basic_pool.live, basic_pool.balanced, basic_pool.accounted,
    basic_pool.in_flight, basic_pool.running, basic_pool.basic_pool.
  cbn [basic_pool.self basic_pool.signal basic_pool.items basic_pool.in_queue
       basic_pool.workers basic_pool.invoked basic_pool.callback length app].
  set (n := basic_pool.pool_size N hc).
  assert (Hstarted : Forall (fun th : jthread T =>
                               stop_requested th = false /\ location th <> finished
                               /\ forall x, location th <> at_test x)
                       (replicate n started)).
  { apply Forall_replicate. repeat split; cbn; congruence. }
  split; [split; [congruence|exact Hstarted]|].
  assert (Hidle : basic_pool.owed (replicate n (@started T)) = 0
                  /\ concat (map holding (replicate n (@started T))) = []).
  { apply (nothing_left_idle false).
    - eapply Forall_impl; [exact Hstarted|]. intros th (_ & _ & H). exact H.
    - apply all_idle_nothing_left.
      intros i th Hi. apply lookup_replicate in Hi as [-> _]. left. reflexivity. }
  destruct Hidle as (-> & ->).
  split; [split; [lia|reflexivity]|]. split; [reflexivity|apply length_replicate].
Qed.
End basic_pool_runs.
(** A worker whose stop was requested while its thread stood at the test
    of the [while] calls its callback no more. *)
Lemma basic_worker_stopped {T U : Type} (m : nat) : forall (s : basic_worker.system T U),
  stop_requested (basic_worker.processor (basic_worker.self s)) = true ->
  location (basic_worker.processor (basic_worker.self s)) = at_while
  \/ location (basic_worker.processor (basic_worker.self s)) = finished ->
  exists s',
    basic_worker.run (replicate m basic_worker.consumer) s = Normal tt s'
    /\ basic_worker.invoked s' = basic_worker.invoked s
    /\ basic_worker.items (basic_worker.self s') = basic_worker.items (basic_worker.self s).
Proof.
  induction m as [|m IH]; intros s Hst Hloc.
  - exists s. repeat split; reflexivity.
  - destruct s as [[l c d f [st loc]] u h n]. cbn in Hst, Hloc. subst st.
    cbn [replicate basic_worker.run]. unfold bind.
    destruct Hloc as [-> | ->].
    + destruct (IH (basic_worker.mk_system
                      (basic_worker.mk l c d f (mk_jthread true finished)) u h n))
        as (s' & Hrun & Hinv); [reflexivity|right; reflexivity|].
      exists s'. split; [exact Hrun|exact Hinv].
    + destruct (IH (basic_worker.mk_system
                      (basic_worker.mk l c d f (mk_jthread true finished)) u h n))
        as (s' & Hrun & Hinv); [reflexivity|right; reflexivity|].
      exists s'. split; [exact Hrun|exact Hinv].
Qed.

(** C7 as stated fails: an item enqueued on a worker that is then
    destroyed stays in the deque; the thread, which finds its stop
    requested at the test of the [while], leaves its loop, and the
    callback is never called with the item. *)
Lemma worker_destroyed_with_an_item_queued :
  let schedule := [basic_worker.queue_push 7; basic_worker.queue_signal]
                    ++ basic_worker.destructor in
  exists s,
    basic_worker.run schedule
      (basic_worker.running
         (basic_worker.basic_worker (fun (_ : nat) (u : unit) => (returned, u))) tt)
    = Normal tt s
    /\ basic_worker.in_queue s = 0
    /\ basic_worker.pushed schedule = [7]
    /\ forall m, exists s',
         basic_worker.run (replicate m basic_worker.consumer) s = Normal tt s'
         /\ basic_worker.invoked s' = []
         /\ basic_worker.items (basic_worker.self s') = [7].
Proof.
  cbn zeta. eexists. split; [vm_compute; reflexivity|].
  split; [reflexivity|]. split; [reflexivity|].
  intros m.
  match goal with
  | |- exists s', basic_worker.run _ ?s = _ /\ _ =>
      destruct (basic_worker_stopped m s) as (s' & Hrun & Hinv & Hitems);
        [reflexivity|left; reflexivity|]
  end.
  exists s'. split; [exact Hrun|]. split; [exact Hinv|exact Hitems].
Qed.

(** C7, amended.  In every interleaving of the producers of a worker,
    its thread and the statements of its destructor in which the calls
    of [queue] complete, the items the callback was called with, the item
    the thread holds and the items queued are, in order, the items
    enqueued: none is lost, none is handed over twice, none overtakes
    another.  If no statement of the destructor is among them, then,
    once the producers are out of [queue], the thread needs at most five
    statements per queued item, and four more, to have called the
    callback exactly once with every item.  In a shared-queue pool of
    [n > 0] threads that keep running the same items, as a multiset, are
    split between the calls made, the threads' local variables and the
    deque, so no item is held by two threads; and after as many fair
    rounds as five times the queued items plus four times [n], the
    callback has been called exactly as many times as items were
    enqueued, once with each.  A worker that is destroyed with an item
    queued can leave it unprocessed: when the statements of the
    destructor run before the thread has tested its stop, the thread
    leaves its loop and the item stays in the deque. *)
Theorem items_are_processed_exactly_once :
  forall (T U : Type) (c : T -> U -> completion * U) (u : U)
         (schedule : list (basic_worker.event T)) (s : basic_worker.system T U)
         (m : nat) (N hc : nat)
         (pool_schedule : list (basic_pool.event T)) (ps : basic_pool.system T U)
         (rounds : list (list nat)),
    (basic_worker.run schedule (basic_worker.running (basic_worker.basic_worker c) u)
     = Normal tt s ->
     basic_worker.invoked s
       ++ holding (basic_worker.processor (basic_worker.self s))
       ++ basic_worker.items (basic_worker.self s)
     = basic_worker.pushed schedule
     /\ (Forall (fun e => basic_worker.destroying e = false) schedule ->
         basic_worker.in_queue s = 0 ->
         5 * length (basic_worker.items (basic_worker.self s)) + 4 <= m ->
         exists s',
           basic_worker.run (replicate m basic_worker.consumer) s = Normal tt s'
           /\ basic_worker.invoked s' = basic_worker.pushed schedule
           /\ basic_worker.items (basic_worker.self s') = []))
    /\ (0 < basic_pool.pool_size N hc ->
        basic_pool.run pool_schedule (basic_pool.running (basic_pool.basic_pool N hc c) u)
        = Normal tt ps ->
        basic_pool.invoked ps ++ basic_pool.in_flight (basic_pool.self ps)
          ++ basic_pool.items (basic_pool.self ps)
        ≡ₚ basic_pool.pushed pool_schedule
        /\ (basic_pool.in_queue ps = 0 ->
            Forall (basic_pool.fair_round (basic_pool.pool_size N hc)) rounds ->
            5 * length (basic_pool.items (basic_pool.self ps))
              + 4 * basic_pool.pool_size N hc <= length rounds ->
            exists ps',
              basic_pool.run (map basic_pool.thread (concat rounds)) ps = Normal tt ps'
              /\ basic_pool.invoked ps' ≡ₚ basic_pool.pushed pool_schedule
              /\ length (basic_pool.invoked ps') = length (basic_pool.pushed pool_schedule)
              /\ basic_pool.items (basic_pool.self ps') = []
              /\ basic_pool.in_flight (basic_pool.self ps') = []))
    /\ (forall x : T,
          exists d,
            basic_worker.run
              ([basic_worker.queue_push x; basic_worker.queue_signal]
                 ++ basic_worker.destructor)
              (basic_worker.running (basic_worker.basic_worker c) u)
            = Normal tt d
            /\ forall k, exists d',
                 basic_worker.run (replicate k basic_worker.consumer) d = Normal tt d'
                 /\ basic_worker.invoked d' = []
                 /\ basic_worker.items (basic_worker.self d') = [x]).
Proof.
  intros T U c u schedule s m N hc pool_schedule ps rounds. split; [|split].
  - intros Hrun.
    set (s0 := basic_worker.running (basic_worker.basic_worker c) u) in *.
    assert (Hl0 : basic_worker.live s0) by (repeat split; cbn; congruence).
    assert (Hb0 : basic_worker.balanced s0) by (split; cbn; lia).
    destruct (basic_worker_run_history schedule s0 s ltac:(apply Hl0) Hrun) as (Hh & _).
    split; [exact Hh|].
    intros Hnd Hq Hm.
    destruct (basic_worker_run_balanced schedule s0 s Hnd Hl0 Hb0 Hrun) as (Hl & Hb).
    pose proof (basic_worker_remaining_bound s Hb) as Hbound.
    destruct (basic_worker_drain m s Hl Hb Hq ltac:(lia))
      as (s' & Hrun' & Hh' & Hl' & Hb' & Hq' & Hrem').
    destruct (basic_worker_nothing_left s' Hl' Hb' Hq' Hrem') as (Hitems & Hall).
    exists s'. split; [exact Hrun'|]. split; [|exact Hitems].
    rewrite <- Hall, Hh'. exact Hh.
  - intros Hn Hrun.
    destruct (basic_pool_constructed N hc c u) as (Hl0 & Hb0 & Hacc0 & Hlen0).
    destruct (basic_pool_run_invariant pool_schedule _ ps Hl0 Hb0 Hrun)
      as (Hl & Hb & Hacc & Hlen).
    rewrite Hacc0 in Hacc. cbn [app] in Hacc.
    split; [exact Hacc|].
    intros Hq Hfair Hm.
    pose proof (basic_pool_remaining_bound ps Hb) as Hbound.
    rewrite Hlen, Hlen0 in Hbound.
    destruct (basic_pool_rounds (basic_pool.pool_size N hc) rounds ps Hfair
                ltac:(congruence) Hn Hl Hb ltac:(lia))
      as (ps' & Hrun' & Hl' & Hb' & Hq' & Hacc' & Hrem').
    destruct (basic_pool_nothing_left ps' Hl' Hb' ltac:(congruence) Hrem')
      as (Hitems & Hfl & Hall).
    assert (Hperm : basic_pool.invoked ps' ≡ₚ basic_pool.pushed pool_schedule).
    { rewrite <- Hall, Hacc'. exact Hacc. }
    exists ps'. split; [exact Hrun'|]. split; [exact Hperm|].
    split; [rewrite Hperm; reflexivity|]. split; assumption.
  - intros x. eexists. split; [reflexivity|].
    intros k.
    match goal with
    | |- exists d', basic_worker.run _ ?d = _ /\ _ =>
        destruct (basic_worker_stopped k d) as (d' & Hrun & Hinv & Hitems);
          [reflexivity|left; reflexivity|]
    end.
    exists d'. split; [exact Hrun|]. split; [exact Hinv|exact Hitems].
Qed.

Lemma items_are_processed_exactly_once_witness :
  let c := fun (x : nat) (u : nat) => (if Nat.even x then raised else returned, x + u) in
  let schedule :=
    [basic_worker.queue_push 1; basic_worker.queue_push 2; basic_worker.queue_signal;
     basic_worker.consumer; basic_worker.consumer; basic_worker.queue_signal] in
  let pool_schedule :=
    [basic_pool.queue_push 1; basic_pool.queue_push 2; basic_pool.queue_signal;
     basic_pool.thread 0; basic_pool.thread 0; basic_pool.queue_count;
     basic_pool.queue_signal; basic_pool.thread 1; basic_pool.thread 0] in
  exists s ps,
    basic_worker.run schedule (basic_worker.running (basic_worker.basic_worker c) 0)
    = Normal tt s
    /\ basic_pool.run pool_schedule (basic_pool.running (basic_pool.basic_pool 2 8 c) 0)
       = Normal tt ps
    /\ (exists s',
          basic_worker.run (replicate 14 basic_worker.consumer) s = Normal tt s'
          /\ basic_worker.invoked s' = basic_worker.pushed schedule)
    /\ (exists ps',
          basic_pool.run (map basic_pool.thread (concat (replicate 18 [0; 1]))) ps
          = Normal tt ps'
          /\ basic_pool.invoked ps' ≡ₚ basic_pool.pushed pool_schedule
          /\ length (basic_pool.invoked ps') = length (basic_pool.pushed pool_schedule)).
Proof.
  intros c schedule pool_schedule.
  eexists _, _.
  split; [vm_compute; reflexivity|].
  split; [vm_compute; reflexivity|].
  lazymatch goal with
  | |- (exists _, basic_worker.run _ ?s = _ /\ _)
       /\ (exists _, basic_pool.run _ ?ps = _ /\ _) =>
      destruct (items_are_processed_exactly_once nat nat c 0 schedule s 14 2 8
                  pool_schedule ps (replicate 18 [0; 1])) as (Hw & Hp & _)
  end.
  destruct Hw as (_ & Hw); [vm_compute; reflexivity|].
  destruct Hw as (s' & Hrun & Hinv & _);
    [repeat constructor|reflexivity|vm_compute; lia|].
  destruct Hp as (_ & Hp); [vm_compute; lia|vm_compute; reflexivity|].
  destruct Hp as (ps' & Hprun & Hperm & Hlen & _).
  { reflexivity. }
  { apply Forall_replicate. intros i Hi.
    destruct i as [|[|i]];
      [left; reflexivity|right; left; reflexivity|vm_compute in Hi; lia]. }
  { vm_compute; lia. }
  split; [exists s'; split; assumption|].
  exists ps'. split; [exact Hprun|]. split; assumption.
Defined.

(* ################################################################# *)
(** * Further properties of the code *)

(* ================================================================= *)
(** ** The resource pool, over sequences of calls *)
Section resource_pool_sequences.
Context {T : Type}.
Implicit Types (p : resource_pool.t T) (x : T) (l : list T).

Lemma resource_pool_checkin_all_contents l : forall p,
  exists p', resource_pool.checkin_all l p = Normal tt p'
             /\ resource_pool.contents p' = resource_pool.contents p ++ l.
Proof.
  induction l as [|x l IH]; intros p.
  - exists p. cbn. rewrite app_nil_r. auto.
  - destruct (resource_pool_checkin_contents p x) as (p1 & H1 & Hc1).
    destruct (IH p1) as (p' & H' & Hc').
    exists p'. cbn [resource_pool.checkin_all]. unfold bind. rewrite H1.
    split; [exact H'|]. rewrite Hc', Hc1, <- app_assoc. reflexivity.
Qed.

Lemma resource_pool_checkout_designating_front p x rest :
  resource_pool.contents p = x :: rest ->
  exists p', resource_pool.checkout_designating p = Normal x p'
             /\ resource_pool.contents p' = rest.
Proof.
  intros H.
  destruct (resource_pool_checkout_front p x rest H) as (r & p' & Hc & Hrest & Hload & _).
  exists p'. split; [|exact Hrest].
  unfold resource_pool.checkout_designating. rewrite Hc.
  unfold resource_pool.load in Hload.
  destruct (deque.load r (resource_pool._pool p)) as [v|]; [|discriminate].
  injection Hload as ->. reflexivity.
Qed.

Lemma resource_pool_checkout_designating_empty p :
  resource_pool.contents p = [] ->
  resource_pool.checkout_designating p
  = Throws (runtime_error "Empty pool; add something first!") p.
Proof.
  intros H. unfold resource_pool.checkout_designating.
  rewrite (resource_pool_checkout_empty p H). reflexivity.
Qed.

Lemma resource_pool_checkout_n_take (n : nat) : forall p,
  n <= length (resource_pool.contents p) ->
  exists p', resource_pool.checkout_n n p
             = Normal (take n (resource_pool.contents p)) p'
             /\ resource_pool.contents p' = drop n (resource_pool.contents p).
Proof.
  induction n as [|n IH]; intros p Hn.
  - exists p. cbn. rewrite drop_0. auto.
  - destruct (resource_pool.contents p) as [|x rest] eqn:Hc; [cbn in Hn; lia|].
    destruct (resource_pool_checkout_designating_front p x rest Hc) as (p1 & H1 & Hc1).
    destruct (IH p1) as (p' & H' & Hc'); [rewrite Hc1; cbn in Hn; lia|].
    exists p'. cbn [resource_pool.checkout_n]. unfold bind, ret. rewrite H1, H'.
    rewrite Hc1 in *. cbn. auto.
Qed.

Lemma resource_pool_checkout_n_exhausts (k : nat) : forall p,
  length (resource_pool.contents p) = k ->
  exists p', resource_pool.checkout_n (S k) p
             = Throws (runtime_error "Empty pool; add something first!") p'
             /\ resource_pool.contents p' = [].
Proof.
  induction k as [|k IH]; intros p Hk.
  - destruct (resource_pool.contents p) eqn:Hc; [|discriminate].
    exists p. cbn [resource_pool.checkout_n]. unfold bind.
    rewrite (resource_pool_checkout_designating_empty p Hc). auto.
  - destruct (resource_pool.contents p) as [|x rest] eqn:Hc; [discriminate|].
    destruct (resource_pool_checkout_designating_front p x rest Hc) as (p1 & H1 & Hc1).
    destruct (IH p1) as (p' & H' & Hc'); [rewrite Hc1; cbn in Hk; lia|].
    exists p'. split; [|exact Hc'].
    remember (S k) as k' eqn:Hk'.
    cbn [resource_pool.checkout_n].
    unfold bind at 1. rewrite H1. unfold bind at 1. rewrite H'. reflexivity.
Qed.
End resource_pool_sequences.

(** X1.  The resource pool is a queue: after any items are checked in,
    successive checkouts designate the items of the pool oldest first,
    those already in the pool before those just checked in; a checkout
    made after the last one throws the "empty pool" runtime error and
    leaves the pool empty. *)
Theorem resource_pool_checkouts_follow_checkin_order :
  forall (T : Type) (p : resource_pool.t T) (l : list T) (n : nat),
    n <= length (resource_pool.contents p ++ l) ->
    exists p1 p2 p3,
      resource_pool.checkin_all l p = Normal tt p1
      /\ resource_pool.checkout_n n p1
         = Normal (take n (resource_pool.contents p ++ l)) p2
      /\ resource_pool.contents p2 = drop n (resource_pool.contents p ++ l)
      /\ resource_pool.checkout_n (S (length (resource_pool.contents p ++ l))) p1
         = Throws (runtime_error "Empty pool; add something first!") p3
      /\ resource_pool.contents p3 = [].
Proof.
  intros T p l n Hn.
  destruct (resource_pool_checkin_all_contents l p) as (p1 & H1 & Hc1).
  rewrite <- Hc1 in *.
  destruct (resource_pool_checkout_n_take n p1 Hn) as (p2 & H2 & Hc2).
  destruct (resource_pool_checkout_n_exhausts _ p1 eq_refl) as (p3 & H3 & Hc3).
  exists p1, p2, p3. repeat (split; [assumption|]). exact Hc3.
Qed.

Lemma resource_pool_checkouts_follow_checkin_order_witness :
  exists p1 p2 p3,
    resource_pool.checkin_all [3; 4] (resource_pool.mk (deque.mk 5 [1; 2]))
    = Normal tt p1
    /\ resource_pool.checkout_n 3 p1
       = Normal (take 3 (resource_pool.contents (resource_pool.mk (deque.mk 5 [1; 2]))
                         ++ [3; 4])) p2
    /\ resource_pool.contents p2
       = drop 3 (resource_pool.contents (resource_pool.mk (deque.mk 5 [1; 2])) ++ [3; 4])
    /\ resource_pool.checkout_n
         (S (length (resource_pool.contents (resource_pool.mk (deque.mk 5 [1; 2]))
                     ++ [3; 4]))) p1
       = Throws (runtime_error "Empty pool; add something first!") p3
    /\ resource_pool.contents p3 = [].
Proof.
  apply (resource_pool_checkouts_follow_checkin_order nat
           (resource_pool.mk (deque.mk 5 [1; 2])) [3; 4] 3).
  vm_compute. lia.
Defined.

(** X2.  [getCapacity] reports the number of items the pool holds and
    leaves the pool as it is: it grows by the number of items checked in
    and shrinks by one with each checkout that succeeds. *)
Theorem resource_pool_capacity_counts_items :
  forall (T : Type) (p : resource_pool.t T) (l : list T) (x : T) (rest : list T),
    resource_pool.getCapacity p = Normal (length (resource_pool.contents p)) p
    /\ (exists p1,
          (resource_pool.checkin_all l ;;; resource_pool.getCapacity) p
          = Normal (length (resource_pool.contents p) + length l) p1)
    /\ (resource_pool.contents p = x :: rest ->
        exists p2,
          (resource_pool.checkout ;;; resource_pool.getCapacity) p
          = Normal (length rest) p2).
Proof.
  intros T p l x rest.
  assert (Hcap : forall q : resource_pool.t T,
             resource_pool.getCapacity q = Normal (length (resource_pool.contents q)) q).
  { intros [[k es]]. unfold resource_pool.getCapacity, resource_pool.contents,
      deque.empty, deque.size. cbn. destruct es; reflexivity. }
  split; [apply Hcap|]. split.
  - destruct (resource_pool_checkin_all_contents l p) as (p1 & H1 & Hc1).
    exists p1. unfold bind. rewrite H1, Hcap, Hc1, length_app. reflexivity.
  - intros H.
    destruct (resource_pool_checkout_front p x rest H) as (r & p2 & Hc & Hrest & _).
    exists p2. unfold bind. rewrite Hc, Hcap, Hrest. reflexivity.
Qed.

Lemma resource_pool_capacity_counts_items_witness :
  exists p2,
    (resource_pool.checkout ;;; resource_pool.getCapacity)
      (resource_pool.mk (deque.mk 0 [7; 8]))
    = Normal 1 p2.
Proof.
  destruct (resource_pool_capacity_counts_items nat
              (resource_pool.mk (deque.mk 0 [7; 8])) [] 7 [8]) as (_ & _ & H).
  apply H. reflexivity.
Defined.

(* ================================================================= *)
(** ** [simple_worker], call by call *)
Section simple_worker_calls.
Context {T U : Type}.
Implicit Types (w : simple_worker.t T U) (x : T).

Lemma simple_worker_queue_effect w x w' :
  simple_worker.queue x w = Normal tt w' ->
  simple_worker.items w' = simple_worker.items w ++ [x]
  /\ simple_worker.signal w' = (simple_worker.signal w + 1)%Z
  /\ simple_worker.queueCounter w' = uint64_incr (simple_worker.queueCounter w).
Proof.
  destruct w as [q l c d f th].
  unfold simple_worker.queue, simple_worker.release, counting_semaphore.release,
    modify. unfold bind. cbn.
  destruct (c <? _)%Z; [|discriminate]. intros [= <-]. cbn. auto.
Qed.

Lemma simple_worker_getNextItem_cases w :
  exists r w',
    simple_worker.getNextItem w = Normal r w'
    /\ simple_worker.queueCounter w' = simple_worker.queueCounter w
    /\ if (0 <? simple_worker.signal w)%Z
       then simple_worker.signal w' = (simple_worker.signal w - 1)%Z
            /\ match simple_worker.items w with
               | [] => r = None /\ simple_worker.items w' = []
               | y :: rest => r = Some y /\ simple_worker.items w' = rest
               end
       else r = None /\ w' = w.
Proof.
  destruct w as [q l c d f th].
  unfold simple_worker.getNextItem, simple_worker.try_acquire_for,
    counting_semaphore.try_acquire_for, scope_exit, simple_worker.popOnDestruct_pop,
    simple_worker.popOnDestruct_destructor, modify, ret.
  unfold bind. cbn.
  destruct (0 <? c)%Z; cbn.
  - destruct l as [|y l]; cbn; eexists _, _; repeat split; reflexivity.
  - eexists _, _; repeat split; reflexivity.
Qed.

Lemma simple_worker_perform_invariant (ops : list (simple_worker.operation (T:=T))) :
  forall w results w' (k : nat),
    simple_worker.signal w = Z.of_nat (length (simple_worker.items w)) ->
    simple_worker.queueCounter w = (Z.of_nat k mod uint64_modulus)%Z ->
    simple_worker.perform ops w = Normal results w' ->
    simple_worker.handed_out results ++ simple_worker.items w'
    = simple_worker.items w ++ simple_worker.queued ops
    /\ simple_worker.signal w' = Z.of_nat (length (simple_worker.items w'))
    /\ simple_worker.queueCounter w'
       = (Z.of_nat (k + length (simple_worker.queued ops)) mod uint64_modulus)%Z.
Proof.
  induction ops as [|[x|] ops IH]; intros w results w' k Hbal Hq Hrun.
  - cbn in Hrun. injection Hrun as <- <-. cbn. rewrite app_nil_r, Nat.add_0_r. auto.
  - cbn [simple_worker.perform] in Hrun. unfold bind in Hrun.
    destruct (simple_worker.queue x w) as [[] w1| |] eqn:Hqueue; try discriminate.
    destruct (simple_worker_queue_effect w x w1 Hqueue) as (Hit & Hsig & Hcnt).
    destruct (IH w1 results w' (S k)) as (Hh & Hb & Hc); [| |exact Hrun|].
    + rewrite Hsig, Hit, Hbal, length_app. cbn. lia.
    + rewrite Hcnt, Hq, uint64_incr_mod. unfold uint64_incr. f_equal. lia.
    + cbn [simple_worker.queued length]. rewrite Hh, Hit, <- app_assoc.
      split; [reflexivity|]. split; [exact Hb|].
      rewrite Hc. f_equal. lia.
  - cbn [simple_worker.perform] in Hrun. unfold bind, ret in Hrun.
    destruct (simple_worker_getNextItem_cases w) as (r & w1 & Hget & Hcnt & Hcase).
    rewrite Hget in Hrun.
    destruct (simple_worker.perform ops w1) as [out w2| |] eqn:Hrest; try discriminate.
    injection Hrun as <- <-.
    assert (Hstep : simple_worker.signal w1 = Z.of_nat (length (simple_worker.items w1))
                    /\ simple_worker.handed_out [r] ++ simple_worker.items w1
                       = simple_worker.items w).
    { destruct (Z.ltb_spec 0 (simple_worker.signal w)) as [Hpos|Hneg].
      - destruct Hcase as (Hsig & Hitems).
        destruct (simple_worker.items w) as [|y rest]; cbn in Hbal; [lia|].
        destruct Hitems as (-> & ->). split; [lia|reflexivity].
      - destruct Hcase as (-> & ->).
        destruct (simple_worker.items w) as [|y rest]; cbn in Hbal; [|lia].
        split; [exact Hbal|reflexivity]. }
    destruct Hstep as (Hb1 & Hh1).
    destruct (IH w1 out w2 k Hb1 ltac:(congruence) Hrest) as (Hh & Hb & Hc).
    cbn [simple_worker.queued].
    split; [|auto].
    change (r :: out) with ([r] ++ out).
    unfold simple_worker.handed_out in *. rewrite map_app, concat_app, <- app_assoc.
    rewrite Hh, app_assoc, Hh1. reflexivity.
Qed.
End simple_worker_calls.

(** X3.  On a [simple_worker] used from one thread, whatever the order
    of the calls of [queue] and [getNextItem]: the items [getNextItem]
    handed out, followed by those still in the deque, are the items
    queued, in order; the signal count is the number of items in the
    deque; and [queueCounter] is the number of items queued so far, as a
    [uint64_t]. *)
Theorem simple_worker_calls_are_fifo :
  forall (T U : Type) (c : T -> U -> completion * U)
         (ops : list (simple_worker.operation (T:=T)))
         (results : list (option T)) (w : simple_worker.t T U),
    simple_worker.perform ops (simple_worker.simple_worker c) = Normal results w ->
    simple_worker.handed_out results ++ simple_worker.items w
    = simple_worker.queued ops
    /\ simple_worker.signal w = Z.of_nat (length (simple_worker.items w))
    /\ simple_worker.queueCounter w
       = (Z.of_nat (length (simple_worker.queued ops)) mod uint64_modulus)%Z.
Proof.
  intros T U c ops results w Hrun.
  apply (simple_worker_perform_invariant ops (simple_worker.simple_worker c)
           results w 0); [reflexivity|reflexivity|exact Hrun].
Qed.

Lemma simple_worker_calls_are_fifo_witness :
  let ops := [simple_worker.do_getNextItem; simple_worker.do_queue 1;
              simple_worker.do_queue 2; simple_worker.do_getNextItem;
              simple_worker.do_queue 3; simple_worker.do_getNextItem;
              simple_worker.do_getNextItem; simple_worker.do_getNextItem;
              simple_worker.do_queue 4] in
  exists results w,
    simple_worker.perform ops
      (simple_worker.simple_worker (fun (_ : nat) (u : unit) => (returned, u)))
    = Normal results w
    /\ simple_worker.handed_out results ++ simple_worker.items w
       = simple_worker.queued ops.
Proof.
  intros ops. eexists _, _. split; [vm_compute; reflexivity|].
  lazymatch goal with
  | |- simple_worker.handed_out ?r ++ simple_worker.items ?w = _ =>
      apply (simple_worker_calls_are_fifo nat unit (fun _ u => (returned, u)) ops r w)
  end.
  vm_compute; reflexivity.
Defined.

(** X4.  [getNextItem] of [simple_worker] takes the front item exactly
    when a signal is available and the deque is not empty.  Without a
    signal it returns nothing and leaves the worker untouched, even when
    items are queued; a signal that finds the deque empty is consumed and
    nothing is returned. *)
Theorem simple_worker_getNextItem_needs_signal_and_item :
  forall (T U : Type) (w : simple_worker.t T U),
    exists r w',
      simple_worker.getNextItem w = Normal r w'
      /\ ((simple_worker.signal w <= 0)%Z -> r = None /\ w' = w)
      /\ ((0 < simple_worker.signal w)%Z ->
          simple_worker.signal w' = (simple_worker.signal w - 1)%Z
          /\ r = head (simple_worker.items w)
          /\ simple_worker.items w' = tail (simple_worker.items w)).
Proof.
  intros T U w.
  destruct (simple_worker_getNextItem_cases w) as (r & w' & Hget & _ & Hcase).
  exists r, w'. split; [exact Hget|].
  destruct (Z.ltb_spec 0 (simple_worker.signal w)) as [Hpos|Hneg].
  - split; [lia|]. intros _. destruct Hcase as (Hsig & Hitems).
    split; [exact Hsig|].
    destruct (simple_worker.items w); destruct Hitems as (-> & ->); auto.
  - split; [intros _; exact Hcase|lia].
Qed.

Lemma simple_worker_getNextItem_needs_signal_and_item_witness :
  exists r w',
    simple_worker.getNextItem
      (simple_worker.mk 2 [10; 20] 0 1500
         (Some (fun (_ : nat) (u : unit) => (returned, u))) started)
    = Normal r w'
    /\ r = None
    /\ w' = simple_worker.mk 2 [10; 20] 0 1500
              (Some (fun (_ : nat) (u : unit) => (returned, u))) started.
Proof.
  destruct (simple_worker_getNextItem_needs_signal_and_item nat unit
              (simple_worker.mk 2 [10; 20] 0 1500
                 (Some (fun (_ : nat) (u : unit) => (returned, u))) started))
    as (r & w' & Hget & Hnone & _).
  exists r, w'. split; [exact Hget|]. apply Hnone. cbn. lia.
Defined.

(** X5.  When the stop has been requested, a turn of the loop of
    [simple_worker] that finds a signal and an item takes the item out of
    the deque and does not call the callback with it: the item is
    dropped.  The same turn of [basic_worker] leaves the item in the
    deque, its guard testing the stop before the item is taken. *)
Theorem item_found_after_stop_request :
  forall (T U : Type) (w : simple_worker.t T U) (b : basic_worker.t T U)
         (u : U) (h : list T) (n : nat) (x : T) (rest : list T),
    (stop_requested (simple_worker.processor w) = true ->
     simple_worker.items w = x :: rest ->
     (0 < simple_worker.signal w)%Z ->
     exists w',
       simple_worker.loop_iteration (simple_worker.mk_system w u h)
       = Normal tt (simple_worker.mk_system w' u h)
       /\ simple_worker.items w' = rest)
    /\ (stop_requested (basic_worker.processor b) = true ->
        exists b',
          basic_worker.loop_iteration (basic_worker.mk_system b u h n)
          = Normal tt (basic_worker.mk_system b' u h n)
          /\ basic_worker.items b' = basic_worker.items b).
Proof.
  intros T U w b u h n x rest. split.
  - destruct w as [q l c d f th]. cbn. intros Hst -> Hc.
    unfold simple_worker.loop_iteration, try_catch_all, simple_worker.loop_body,
      simple_worker.member, simple_worker.getNextItem,
      simple_worker.try_acquire_for, counting_semaphore.try_acquire_for,
      gets, scope_exit, simple_worker.popOnDestruct_pop,
      simple_worker.popOnDestruct_destructor, modify, simple_worker.invoke, call.
    unfold bind, ret. cbn.
    replace (0 <? c)%Z with true by (symmetry; apply Z.ltb_lt; exact Hc).
    cbn. rewrite Hst. cbn. eexists. split; reflexivity.
  - destruct b as [l c d f th]. cbn. intros Hst.
    unfold basic_worker.loop_iteration, try_catch_all, basic_worker.loop_body,
      basic_worker.member, basic_worker.try_acquire_for,
      counting_semaphore.try_acquire_for, basic_worker.guard, gets,
      basic_worker.take_front, basic_worker.invoke, call.
    unfold bind, ret. cbn.
    destruct (0 <? c)%Z; cbn.
    + rewrite Hst. destruct l; cbn; eexists; split; reflexivity.
    + eexists; split; reflexivity.
Qed.

Lemma item_found_after_stop_request_witness :
  exists w',
    simple_worker.loop_iteration
      (simple_worker.mk_system
         (simple_worker.mk 1 [10] 1 0
            (Some (fun (_ : nat) (u : nat) => (returned, S u)))
            (mk_jthread true at_wait)) 0 [])
    = Normal tt (simple_worker.mk_system w' 0 [])
    /\ simple_worker.items w' = [].
Proof.
  destruct (item_found_after_stop_request nat nat
              (simple_worker.mk 1 [10] 1 0
                 (Some (fun (_ : nat) (u : nat) => (returned, S u)))
                 (mk_jthread true at_wait))
              (basic_worker.basic_worker (fun (_ : nat) (u : nat) => (returned, S u)))
              0 [] 0 10 []) as (H & _).
  apply H; [reflexivity|reflexivity|cbn; lia].
Defined.

(* ================================================================= *)
(** ** The periodic task: turns and shutdown *)
Section periodic_worker_turns.
Context {U : Type}.
Implicit Types (s : periodic_worker.system U).

Lemma periodic_worker_turn_keeps_no_signal s s' :
  periodic_worker.signal (periodic_worker.self s) = 0%Z ->
  periodic_worker.loop_iteration s = Normal tt s' ->
  periodic_worker.signal (periodic_worker.self s') = 0%Z.
Proof.
  destruct s as [[nm c sg d f th] u h]. cbn. intros ->.
  unfold periodic_worker.loop_iteration, try_catch_all, periodic_worker.loop_body,
    periodic_worker.member, periodic_worker.try_acquire_for,
    counting_semaphore.try_acquire_for, gets, modify, periodic_worker.invoke.
  unfold bind, ret. cbn.
  destruct (stop_requested th); cbn; [intros [= <-]; reflexivity|].
  destruct f as [g|]; cbn; [|intros [= <-]; reflexivity].
  destruct (g tt u) as [[] u']; cbn; intros [= <-]; reflexivity.
Qed.

Lemma periodic_worker_turns (turns : nat) : forall s g,
  periodic_worker.callback (periodic_worker.self s) = Some g ->
  stop_requested (periodic_worker.processor (periodic_worker.self s)) = false ->
  exists s',
    periodic_worker.processor_loop turns s = Normal in_loop s'
    /\ length (periodic_worker.completions s')
       = length (periodic_worker.completions s) + turns
    /\ periodic_worker.frame s s'
    /\ (periodic_worker.signal (periodic_worker.self s) = 0%Z ->
        periodic_worker.signal (periodic_worker.self s') = 0%Z).
Proof.
  induction turns as [|k IH]; intros s g Hg Hst.
  - exists s. cbn. rewrite Nat.add_0_r. repeat split; auto.
  - destruct (periodic_worker_loop_iteration_call s g Hg Hst) as (s1 & H1 & _ & Hh1 & _).
    destruct (periodic_worker_loop_iteration_total s) as (s1' & H1' & Hcb & Hth).
    rewrite H1 in H1'. injection H1' as <-.
    destruct (IH s1 g) as (s' & H' & Hlen & (Hcb' & Hth') & Hsig);
      [congruence|congruence|].
    exists s'. cbn [periodic_worker.processor_loop]. unfold bind at 1. unfold gets.
    rewrite Hst. unfold bind. rewrite H1.
    split; [exact H'|]. split; [rewrite Hlen, Hh1, length_app; cbn; lia|].
    split; [split; congruence|].
    intros H0. apply Hsig. exact (periodic_worker_turn_keeps_no_signal s s1 H0 H1).
Qed.
End periodic_worker_turns.

(** X6.  While the stop is not requested, every turn of the periodic
    loop calls the callback exactly once, whether the wait ended because
    the period elapsed or because a signal was there, and whether earlier
    calls returned or raised: after [turns] turns the callback has been
    called [turns] more times. *)
Theorem periodic_worker_calls_once_per_turn :
  forall (U : Type) (s : periodic_worker.system U) (g : unit -> U -> completion * U)
         (turns : nat),
    periodic_worker.callback (periodic_worker.self s) = Some g ->
    stop_requested (periodic_worker.processor (periodic_worker.self s)) = false ->
    exists s',
      periodic_worker.processor_loop turns s = Normal in_loop s'
      /\ length (periodic_worker.completions s')
         = length (periodic_worker.completions s) + turns.
Proof.
  intros U s g turns Hg Hst.
  destruct (periodic_worker_turns turns s g Hg Hst) as (s' & H & Hlen & _).
  eauto.
Qed.

Lemma periodic_worker_calls_once_per_turn_witness :
  exists s',
    periodic_worker.processor_loop 6
      (periodic_worker.mk_system
         (periodic_worker.mk "tick" 0 1 10
            (Some (fun _ (u : nat) => (if Nat.even u then raised else returned, S u)))
            started)
         0 [])
    = Normal in_loop s'
    /\ length (periodic_worker.completions s') = length (@nil completion) + 6.
Proof.
  apply (periodic_worker_calls_once_per_turn nat
           (periodic_worker.mk_system
              (periodic_worker.mk "tick" 0 1 10
                 (Some (fun _ (u : nat) => (if Nat.even u then raised else returned, S u)))
                 started)
              0 [])
           (fun _ u => (if Nat.even u then raised else returned, S u)) 6);
    reflexivity.
Defined.

Section periodic_worker_shutdown.
Context {U : Type}.
Implicit Types (s : periodic_worker.system U).

Ltac unfold_periodic :=
  unfold periodic_worker.step, periodic_worker.thread_step, periodic_worker.member,
    periodic_worker.try_acquire_for, counting_semaphore.try_acquire_for,
    periodic_worker.release, counting_semaphore.release,
    periodic_worker.signal_LeastMaxValue, periodic_worker.request_stop,
    periodic_worker.goto, periodic_worker.invoke, try_catch_all, modify, gets, ret;
  unfold bind.




End periodic_worker_shutdown.


(* ================================================================= *)
(** ** The worker thread never reads an empty deque, and shuts down *)
Section basic_worker_shutdown.
Context {T U : Type}.
Implicit Types (s : basic_worker.system T U) (e : basic_worker.event T).

Ltac unfold_worker_step :=
  unfold basic_worker.step, basic_worker.consumer_step, basic_worker.request_stop,
    basic_worker.member,
    basic_worker.emplace_back, basic_worker.release, counting_semaphore.release,
    counting_semaphore.max, basic_worker.signal_LeastMaxValue,
    basic_worker.try_acquire_for, counting_semaphore.try_acquire_for,
    basic_worker.guard, basic_worker.take_front, basic_worker.goto,
    basic_worker.invoke, call, try_catch_all, modify, gets, ret;
  unfold bind.

(** The thread stands at the locked block only with an item to take. *)
Lemma basic_worker_step_keeps_front e s s' :
  (location (basic_worker.processor (basic_worker.self s)) = at_lock ->
   basic_worker.items (basic_worker.self s) <> []) ->
  basic_worker.step e s = Normal tt s' ->
  location (basic_worker.processor (basic_worker.self s')) = at_lock ->
  basic_worker.items (basic_worker.self s') <> [].
Proof.
  destruct s as [[l c d f [st loc]] u h n]. cbn. intros HJ.
  destruct e as [x| | | | |]; unfold_worker_step; cbn.
  - intros [= <-]. cbn. intros Hloc. specialize (HJ Hloc).
    destruct l; cbn; congruence.
  - destruct n as [|n]; [intros [= <-]; exact HJ|].
    destruct (c <? 512)%Z; [|discriminate]. intros [= <-]. exact HJ.
  - destruct loc as [| | | |y|x|]; cbn.
    + destruct st; cbn; intros [= <-]; cbn; discriminate.
    + destruct (0 <? c)%Z; cbn; intros [= <-]; cbn; discriminate.
    + destruct l as [|y l]; cbn; [intros [= <-]; cbn; discriminate|].
      destruct st; cbn; intros [= <-]; cbn; congruence.
    + destruct l as [|y l]; cbn; [discriminate|]. intros [= <-]. cbn. discriminate.
    + intros [= <-]. cbn. discriminate.
    + destruct f as [g|]; cbn; [destruct (g x u) as [[] u']; cbn|];
        intros [= <-]; cbn; discriminate.
    + intros [= <-]. cbn. discriminate.
  - intros [= <-]. exact HJ.
  - destruct (c <? 512)%Z; [|discriminate]. intros [= <-]. exact HJ.
  - intros [= <-]. exact HJ.
Qed.

Lemma basic_worker_run_keeps_front (schedule : list (basic_worker.event T)) : forall s s',
  (location (basic_worker.processor (basic_worker.self s)) = at_lock ->
   basic_worker.items (basic_worker.self s) <> []) ->
  basic_worker.run schedule s = Normal tt s' ->
  location (basic_worker.processor (basic_worker.self s')) = at_lock ->
  basic_worker.items (basic_worker.self s') <> [].
Proof.
  induction schedule as [|e schedule IH]; intros s s' HJ Hrun.
  - cbn in Hrun. injection Hrun as <-. exact HJ.
  - cbn [basic_worker.run] in Hrun. unfold bind in Hrun.
    destruct (basic_worker.step e s) as [[] s1| |] eqn:Hstep; try discriminate.
    apply (IH s1 s'); [|exact Hrun].
    exact (basic_worker_step_keeps_front e s s1 HJ Hstep).
Qed.

(** No statement of the producers, of the thread or of the destructor
    takes the thread to a place that is none of its loop. *)
Lemma basic_worker_step_keeps_place e s s' :
  (forall x, location (basic_worker.processor (basic_worker.self s)) <> at_test x) ->
  basic_worker.step e s = Normal tt s' ->
  forall x, location (basic_worker.processor (basic_worker.self s')) <> at_test x.
Proof.
  destruct s as [[l c d f [st loc]] u h n]. cbn. intros HJ.
  destruct e as [x| | | | |]; unfold_worker_step; cbn.
  - intros [= <-]. exact HJ.
  - destruct n as [|n]; [intros [= <-]; exact HJ|].
    destruct (c <? 512)%Z; [|discriminate]. intros [= <-]. exact HJ.
  - destruct loc as [| | | |y|x|]; cbn.
    + destruct st; cbn; intros [= <-]; cbn; discriminate.
    + destruct (0 <? c)%Z; cbn; intros [= <-]; cbn; discriminate.
    + destruct l as [|y l]; cbn; [intros [= <-]; cbn; discriminate|].
      destruct st; cbn; intros [= <-]; cbn; discriminate.
    + destruct l as [|y l]; cbn; [discriminate|]. intros [= <-]. cbn. discriminate.
    + intros [= <-]. exact HJ.
    + destruct f as [g|]; cbn; [destruct (g x u) as [[] u']; cbn|];
        intros [= <-]; cbn; discriminate.
    + intros [= <-]. cbn. discriminate.
  - intros [= <-]. exact HJ.
  - destruct (c <? 512)%Z; [|discriminate]. intros [= <-]. exact HJ.
  - intros [= <-]. exact HJ.
Qed.

Lemma basic_worker_run_keeps_place (schedule : list (basic_worker.event T)) : forall s s',
  (forall x, location (basic_worker.processor (basic_worker.self s)) <> at_test x) ->
  basic_worker.run schedule s = Normal tt s' ->
  forall x, location (basic_worker.processor (basic_worker.self s')) <> at_test x.
Proof.
  induction schedule as [|e schedule IH]; intros s s' HJ Hrun.
  - cbn in Hrun. injection Hrun as <-. exact HJ.
  - cbn [basic_worker.run] in Hrun. unfold bind in Hrun.
    destruct (basic_worker.step e s) as [[] s1| |] eqn:Hstep; try discriminate.
    apply (IH s1 s'); [|exact Hrun].
    exact (basic_worker_step_keeps_place e s s1 HJ Hstep).
Qed.

Lemma basic_worker_finished_stays (m : nat) s :
  location (basic_worker.processor (basic_worker.self s)) = finished ->
  basic_worker.run (replicate m basic_worker.consumer) s = Normal tt s.
Proof.
  intros Hloc. induction m as [|m IH]; [reflexivity|].
  cbn [replicate basic_worker.run]. unfold bind.
  replace (basic_worker.step basic_worker.consumer s) with (Normal (S:=basic_worker.system T U) tt s).
  - exact IH.
  - destruct s as [[l c d f [st loc]] u h n]. cbn in Hloc. subst loc. reflexivity.
Qed.

(** Once the stop is requested the thread leaves its loop within three
    of its statements; it calls the callback once more exactly if it
    stood at the locked block or at the call. *)
Lemma basic_worker_stop_is_obeyed (m : nat) s :
  stop_requested (basic_worker.processor (basic_worker.self s)) = true ->
  (location (basic_worker.processor (basic_worker.self s)) = at_lock ->
   basic_worker.items (basic_worker.self s) <> []) ->
  (forall x, location (basic_worker.processor (basic_worker.self s)) <> at_test x) ->
  basic_worker.callback (basic_worker.self s) <> None ->
  exists s',
    basic_worker.run (replicate (3 + m) basic_worker.consumer) s = Normal tt s'
    /\ location (basic_worker.processor (basic_worker.self s')) = finished
    /\ basic_worker.invoked s'
       = basic_worker.invoked s
         ++ match location (basic_worker.processor (basic_worker.self s)) with
            | at_lock => take 1 (basic_worker.items (basic_worker.self s))
            | at_callback x => [x]
            | _ => []
            end
    /\ basic_worker.items (basic_worker.self s')
       = match location (basic_worker.processor (basic_worker.self s)) with
         | at_lock => drop 1 (basic_worker.items (basic_worker.self s))
         | _ => basic_worker.items (basic_worker.self s)
         end.
Proof.
  destruct s as [[l c d f [st loc]] u h n]. cbn. intros -> HJ Htest Hf.
  destruct f as [g|]; [clear Hf|congruence].
  cbn [replicate Nat.add basic_worker.run].
  assert (Hdone : forall (s1 : basic_worker.system T U) (P : basic_worker.system T U -> Prop),
             location (basic_worker.processor (basic_worker.self s1)) = finished ->
             P s1 ->
             forall k, exists s',
               basic_worker.run (replicate k basic_worker.consumer) s1 = Normal tt s'
               /\ location (basic_worker.processor (basic_worker.self s')) = finished
               /\ P s').
  { intros s1 P Hloc HP k. exists s1.
    split; [apply basic_worker_finished_stays; exact Hloc|]. auto. }
  unfold_worker_step.
  destruct loc as [| | | |y|x|]; cbn.
  - apply (Hdone _ (fun s' => basic_worker.invoked s' = h ++ []
                              /\ basic_worker.items (basic_worker.self s') = l));
      [reflexivity|cbn; rewrite app_nil_r; auto].
  - destruct (0 <? c)%Z; cbn; [destruct l as [|y l]; cbn|];
      (apply (Hdone _ (fun s' => basic_worker.invoked s' = h ++ []
                                 /\ basic_worker.items (basic_worker.self s') = _));
       [reflexivity|cbn; rewrite app_nil_r; auto]).
  - destruct l as [|y l]; cbn;
      (apply (Hdone _ (fun s' => basic_worker.invoked s' = h ++ []
                                 /\ basic_worker.items (basic_worker.self s') = _));
       [reflexivity|cbn; rewrite app_nil_r; auto]).
  - destruct l as [|y l]; cbn; [exfalso; apply HJ; reflexivity|].
    destruct (g y u) as [[] u']; cbn;
      (apply (Hdone _ (fun s' => basic_worker.invoked s' = h ++ [y]
                                 /\ basic_worker.items (basic_worker.self s') = l));
       [reflexivity|cbn; auto]).
  - exfalso. exact (Htest y eq_refl).
  - destruct (g x u) as [[] u']; cbn;
      (apply (Hdone _ (fun s' => basic_worker.invoked s' = h ++ [x]
                                 /\ basic_worker.items (basic_worker.self s') = l));
       [reflexivity|cbn; auto]).
  - apply (Hdone _ (fun s' => basic_worker.invoked s' = h ++ []
                              /\ basic_worker.items (basic_worker.self s') = l));
      [reflexivity|cbn; rewrite app_nil_r; auto].
Qed.
End basic_worker_shutdown.

(** X8.  The statements of producers, of the thread and of the
    destructor taken one at a time, in any order: in every state such a
    run reaches, the worker thread stands at its locked block only when
    the deque holds an item, so [items.front()] and [items.pop_front()]
    are not reached on an empty deque. *)
Theorem basic_worker_thread_never_reads_empty_deque :
  forall (T U : Type) (c : T -> U -> completion * U) (u : U)
         (schedule : list (basic_worker.event T)) (s : basic_worker.system T U),
    basic_worker.run schedule (basic_worker.running (basic_worker.basic_worker c) u)
    = Normal tt s ->
    location (basic_worker.processor (basic_worker.self s)) = at_lock ->
    exists x rest s',
      basic_worker.items (basic_worker.self s) = x :: rest
      /\ basic_worker.step basic_worker.consumer s = Normal tt s'
      /\ basic_worker.items (basic_worker.self s') = rest
      /\ location (basic_worker.processor (basic_worker.self s')) = at_callback x.
Proof.
  intros T U c u schedule s Hrun Hloc.
  assert (HJ : basic_worker.items (basic_worker.self s) <> []).
  { apply (basic_worker_run_keeps_front schedule
             (basic_worker.running (basic_worker.basic_worker c) u) s);
      [|exact Hrun|exact Hloc].
    cbn. discriminate. }
  destruct s as [[l k d f [st loc]] u' h n]. cbn in Hloc, HJ. subst loc.
  destruct l as [|x rest]; [congruence|].
  exists x, rest. eexists. split; [reflexivity|].
  split; [reflexivity|]. split; reflexivity.
Qed.

Lemma basic_worker_thread_never_reads_empty_deque_witness :
  let schedule :=
    [basic_worker.queue_push 1; basic_worker.consumer; basic_worker.queue_signal;
     basic_worker.destroy_interval; basic_worker.consumer;
     basic_worker.destroy_release; basic_worker.consumer;
     basic_worker.destroy_request_stop] in
  exists s x rest s',
    basic_worker.run schedule
      (basic_worker.running
         (basic_worker.basic_worker (fun (_ : nat) (u : unit) => (raised, u))) tt)
    = Normal tt s
    /\ location (basic_worker.processor (basic_worker.self s)) = at_lock
    /\ basic_worker.items (basic_worker.self s) = x :: rest
    /\ basic_worker.step basic_worker.consumer s = Normal tt s'.
Proof.
  intros schedule. eexists.
  lazymatch goal with
  | |- exists x rest s', basic_worker.run _ ?i = Normal tt ?s /\ _ =>
      assert (Hrun : basic_worker.run schedule i = Normal tt s)
        by (vm_compute; reflexivity);
      destruct (basic_worker_thread_never_reads_empty_deque nat unit
                  (fun _ u => (raised, u)) tt schedule s Hrun eq_refl)
        as (x & rest & s' & Hitems & Hs' & _);
      exists x, rest, s'; split; [exact Hrun|]; split; [reflexivity|];
      split; [exact Hitems|exact Hs']
  end.
Defined.

(** X9.  Shutdown of a worker is bounded.  Once [request_stop()] has
    run, in whatever state an interleaving of the statements of
    producers, thread and destructor had reached, the thread leaves its
    loop within three of its statements.  In them the callback is called
    once more exactly if the thread stood at the locked block, and then
    with the front item, which it takes after the stop was requested, or
    at the call, and then with the item it holds; the other items in the
    deque stay there and are not passed to the callback; and the items
    the callback was called with, followed by those left in the deque,
    are the items enqueued, in enqueue order. *)
Theorem basic_worker_shutdown_is_bounded :
  forall (T U : Type) (c : T -> U -> completion * U) (u : U)
         (schedule : list (basic_worker.event T))
         (d : basic_worker.system T U) (m : nat),
    basic_worker.run schedule (basic_worker.running (basic_worker.basic_worker c) u)
    = Normal tt d ->
    stop_requested (basic_worker.processor (basic_worker.self d)) = true ->
    exists s',
      basic_worker.run (replicate (3 + m) basic_worker.consumer) d = Normal tt s'
      /\ location (basic_worker.processor (basic_worker.self s')) = finished
      /\ basic_worker.invoked s'
         = basic_worker.invoked d
           ++ match location (basic_worker.processor (basic_worker.self d)) with
              | at_lock => take 1 (basic_worker.items (basic_worker.self d))
              | at_callback x => [x]
              | _ => []
              end
      /\ basic_worker.items (basic_worker.self s')
         = match location (basic_worker.processor (basic_worker.self d)) with
           | at_lock => drop 1 (basic_worker.items (basic_worker.self d))
           | _ => basic_worker.items (basic_worker.self d)
           end
      /\ (location (basic_worker.processor (basic_worker.self d)) = at_lock ->
          basic_worker.items (basic_worker.self d) <> [])
      /\ basic_worker.invoked s' ++ basic_worker.items (basic_worker.self s')
         = basic_worker.pushed schedule.
Proof.
  intros T U c u schedule d m Hrun Hstop.
  set (s0 := basic_worker.running (basic_worker.basic_worker c) u) in *.
  assert (Hcb0 : basic_worker.callback (basic_worker.self s0) <> None)
    by (cbn; congruence).
  destruct (basic_worker_run_history schedule s0 d Hcb0 Hrun) as (Hh & Hcb).
  assert (HJ : location (basic_worker.processor (basic_worker.self d)) = at_lock ->
               basic_worker.items (basic_worker.self d) <> []).
  { apply (basic_worker_run_keeps_front schedule s0 d); [|exact Hrun].
    cbn. discriminate. }
  assert (Htest : forall x,
             location (basic_worker.processor (basic_worker.self d)) <> at_test x).
  { apply (basic_worker_run_keeps_place schedule s0 d); [|exact Hrun].
    cbn. discriminate. }
  destruct (basic_worker_stop_is_obeyed m d Hstop HJ Htest ltac:(congruence))
    as (s' & Hrun' & Hfin & Hinv & Hitems).
  destruct (basic_worker_run_history _ d s' ltac:(congruence) Hrun') as (Hh' & _).
  exists s'. split; [exact Hrun'|]. split; [exact Hfin|]. split; [exact Hinv|].
  split; [exact Hitems|]. split; [exact HJ|].
  assert (Hnone : forall k, basic_worker.pushed
                              (replicate k (@basic_worker.consumer T)) = []).
  { induction k; [reflexivity|exact IHk]. }
  rewrite Hnone, app_nil_r, Hh in Hh'. cbn in Hh'.
  unfold basic_worker.history in Hh'. unfold holding in Hh'. rewrite Hfin in Hh'.
  exact Hh'.
Qed.

Lemma basic_worker_shutdown_is_bounded_witness :
  let schedule :=
    [basic_worker.queue_push 1; basic_worker.queue_push 2; basic_worker.queue_signal;
     basic_worker.consumer; basic_worker.consumer; basic_worker.queue_signal;
     basic_worker.consumer; basic_worker.destroy_interval; basic_worker.destroy_release;
     basic_worker.destroy_request_stop] in
  exists d s',
    basic_worker.run schedule
      (basic_worker.running
         (basic_worker.basic_worker (fun (_ : nat) (u : unit) => (returned, u))) tt)
    = Normal tt d
    /\ location (basic_worker.processor (basic_worker.self d)) = at_lock
    /\ basic_worker.run (replicate 3 basic_worker.consumer) d = Normal tt s'
    /\ location (basic_worker.processor (basic_worker.self s')) = finished
    /\ basic_worker.invoked s' = [1]
    /\ basic_worker.items (basic_worker.self s') = [2].
Proof.
  intros schedule. eexists.
  lazymatch goal with
  | |- exists s', basic_worker.run _ ?i = Normal tt ?d /\ _ =>
      assert (Hrun : basic_worker.run schedule i = Normal tt d)
        by (vm_compute; reflexivity);
      destruct (basic_worker_shutdown_is_bounded nat unit
                  (fun _ u => (returned, u)) tt schedule d 0 Hrun eq_refl)
        as (s' & Hrun' & Hfin & Hinv & Hitems & _);
      exists s'; split; [exact Hrun|]; split; [reflexivity|];
      split; [exact Hrun'|]; split; [exact Hfin|];
      split; [exact Hinv|exact Hitems]
  end.
Defined.

(** X10.  The threads of a [basic_pool] test [items.empty()] before they
    take the lock, yet no thread reaches [items.front()] on an empty
    deque: in every interleaving of producers and pool threads, the items
    in the deque are as many as the signals in the semaphore, the
    producers between the two statements of [queue] and the threads that
    have taken a signal and not yet its item.  So a thread at its locked
    block finds an item, and the next statement of every thread is
    defined. *)
Theorem basic_pool_threads_never_read_empty_deque :
  forall (T U : Type) (N hc : nat) (c : T -> U -> completion * U) (u : U)
         (schedule : list (basic_pool.event T)) (s : basic_pool.system T U)
         (i : nat),
    basic_pool.run schedule (basic_pool.running (basic_pool.basic_pool N hc c) u)
    = Normal tt s ->
    Z.of_nat (length (basic_pool.items (basic_pool.self s)))
    = (basic_pool.signal (basic_pool.self s) + Z.of_nat (basic_pool.in_queue s)
       + Z.of_nat (basic_pool.owed (basic_pool.workers (basic_pool.self s))))%Z
    /\ (exists s', basic_pool.thread_step i s = Normal tt s')
    /\ (forall th, basic_pool.workers (basic_pool.self s) !! i = Some th ->
                   location th = at_lock ->
                   basic_pool.items (basic_pool.self s) <> []).
Proof.
  intros T U N hc c u schedule s i Hrun.
  destruct (basic_pool_constructed N hc c u) as (Hl0 & Hb0 & _ & _).
  destruct (basic_pool_run_invariant schedule _ s Hl0 Hb0 Hrun) as (Hl & Hb & _ & _).
  destruct (basic_pool_thread_progress i s Hl Hb) as (s' & Hstep & _).
  split; [exact (proj2 Hb)|]. split; [exists s'; exact Hstep|].
  intros th Hth Hloc Hnil. revert Hstep.
  unfold basic_pool.thread_step. rewrite Hth, Hloc.
  unfold basic_pool.member, basic_pool.take_front. unfold bind.
  rewrite Hnil. discriminate.
Qed.

Lemma basic_pool_threads_never_read_empty_deque_witness :
  let schedule :=
    [basic_pool.queue_push 5; basic_pool.queue_signal; basic_pool.thread 0;
     basic_pool.thread 1; basic_pool.thread 0; basic_pool.thread 0] in
  exists s s',
    basic_pool.run schedule
      (basic_pool.running
         (basic_pool.basic_pool 2 8 (fun (_ : nat) (u : unit) => (returned, u))) tt)
    = Normal tt s
    /\ basic_pool.workers (basic_pool.self s) !! 0 = Some (mk_jthread false at_lock)
    /\ basic_pool.thread_step 0 s = Normal tt s'.
Proof.
  intros schedule. eexists.
  lazymatch goal with
  | |- exists s', basic_pool.run _ ?i = Normal tt ?s /\ _ =>
      assert (Hrun : basic_pool.run schedule i = Normal tt s)
        by (vm_compute; reflexivity);
      destruct (basic_pool_threads_never_read_empty_deque nat unit 2 8
                  (fun _ u => (returned, u)) tt schedule s 0 Hrun)
        as (_ & (s' & Hs') & _);
      exists s'; split; [exact Hrun|split; [reflexivity|exact Hs']]
  end.
Defined.

Section simple_pool_waits.
Context {T U : Type}.
Variable max : Z.
Implicit Types (s : simple_pool.observed T U) (e : simple_pool.event T).

(** Signals and items stay matched: an item in the deque stands against a
    signal in the semaphore, a producer about to release one, or a
    consumer that has taken one. *)
Lemma simple_pool_step_matched e s s' :
  (0 <= simple_pool.signal (simple_pool.self s))%Z ->
  Z.of_nat (length (simple_pool.items (simple_pool.self s)))
  = (simple_pool.signal (simple_pool.self s) + Z.of_nat (simple_pool.in_queue s)
     + Z.of_nat (simple_pool.past_wait s))%Z ->
  simple_pool.step max e s = Normal tt s' ->
  (0 <= simple_pool.signal (simple_pool.self s'))%Z
  /\ Z.of_nat (length (simple_pool.items (simple_pool.self s')))
     = (simple_pool.signal (simple_pool.self s') + Z.of_nat (simple_pool.in_queue s')
        + Z.of_nat (simple_pool.past_wait s'))%Z.
Proof.
  destruct s as [[q ws f c l d] h n k j]. cbn. intros Hc Hbal.
  destruct e as [x| | | |];
    unfold simple_pool.step, simple_pool.member, simple_pool.emplace_back,
      simple_pool.release, counting_semaphore.release,
      simple_pool.try_acquire_for, counting_semaphore.try_acquire_for,
      simple_pool.locked_extract, modify, ret;
    unfold bind; cbn.
  - intros [= <-]. cbn. rewrite length_app. cbn. lia.
  - destruct n as [|n]; [intros [= <-]; cbn; lia|].
    destruct (c <? _)%Z; [|discriminate]. intros [= <-]. cbn. lia.
  - destruct j as [|j]; intros [= <-]; cbn; lia.
  - destruct (0 <? c)%Z eqn:Hpos; cbn; intros [= <-]; cbn; [|lia].
    apply Z.ltb_lt in Hpos. lia.
  - destruct k as [|k]; [intros [= <-]; cbn; lia|].
    destruct l as [|y l]; cbn; intros [= <-]; cbn; cbn in Hbal; lia.
Qed.

Lemma simple_pool_run_matched (schedule : list (simple_pool.event T)) : forall s s',
  (0 <= simple_pool.signal (simple_pool.self s))%Z ->
  Z.of_nat (length (simple_pool.items (simple_pool.self s)))
  = (simple_pool.signal (simple_pool.self s) + Z.of_nat (simple_pool.in_queue s)
     + Z.of_nat (simple_pool.past_wait s))%Z ->
  simple_pool.run max schedule s = Normal tt s' ->
  (0 <= simple_pool.signal (simple_pool.self s'))%Z
  /\ Z.of_nat (length (simple_pool.items (simple_pool.self s')))
     = (simple_pool.signal (simple_pool.self s') + Z.of_nat (simple_pool.in_queue s')
        + Z.of_nat (simple_pool.past_wait s'))%Z.
Proof.
  induction schedule as [|e schedule IH]; intros s s' Hc Hbal Hrun.
  - cbn in Hrun. injection Hrun as <-. auto.
  - cbn [simple_pool.run] in Hrun. unfold bind in Hrun.
    destruct (simple_pool.step max e s) as [[] s1| |] eqn:Hstep; try discriminate.
    destruct (simple_pool_step_matched e s s1 Hc Hbal Hstep) as (Hc1 & Hbal1).
    exact (IH s1 s' Hc1 Hbal1 Hrun).
Qed.
End simple_pool_waits.

(** X11.  In a [simple_pool] an acquired signal always stands for an
    item: in every interleaving of producers and pool threads, the items
    in the deque are as many as the signals in the semaphore, the
    producers between the two statements of [queue] and the threads
    between the wait and the locked block of [getNextItem].  So a thread
    whose wait succeeded finds the deque non-empty and takes its front;
    and when no call is under way, [getNextItem] returns the front item
    and consumes one signal if the deque holds one, and returns nothing
    and changes nothing if it is empty. *)
Theorem simple_pool_acquired_signal_finds_an_item :
  forall (T U : Type) (max : Z) (N hc : nat) (c : T -> U -> completion * U)
         (schedule : list (simple_pool.event T)) (s : simple_pool.observed T U),
    simple_pool.run max schedule (simple_pool.fresh (simple_pool.simple_pool N hc c))
    = Normal tt s ->
    Z.of_nat (length (simple_pool.items (simple_pool.self s)))
    = (simple_pool.signal (simple_pool.self s) + Z.of_nat (simple_pool.in_queue s)
       + Z.of_nat (simple_pool.past_wait s))%Z
    /\ (0 < simple_pool.past_wait s ->
        exists x rest,
          simple_pool.items (simple_pool.self s) = x :: rest
          /\ simple_pool.step max simple_pool.consumer_extract s
             = Normal tt (simple_pool.mk_observed
                            (simple_pool.set_items rest (simple_pool.self s))
                            (simple_pool.extracted s ++ [x])
                            (simple_pool.in_queue s)
                            (pred (simple_pool.past_wait s))
                            (simple_pool.counting s)))
    /\ (simple_pool.in_queue s = 0 -> simple_pool.past_wait s = 0 ->
        simple_pool.getNextItem (simple_pool.self s)
        = match simple_pool.items (simple_pool.self s) with
          | [] => Normal None (simple_pool.self s)
          | x :: rest =>
              Normal (Some x)
                (simple_pool.set_items rest
                   (simple_pool.set_signal
                      (simple_pool.signal (simple_pool.self s) - 1)
                      (simple_pool.self s)))
          end).
Proof.
  intros T U max N hc c schedule s Hrun.
  assert (Hc0 : (0 <= simple_pool.signal
                        (simple_pool.self
                           (simple_pool.fresh (U:=U) (simple_pool.simple_pool N hc c))))%Z)
    by (cbn; lia).
  destruct (simple_pool_run_matched max schedule _ s Hc0 eq_refl Hrun) as (Hc & Hbal).
  split; [exact Hbal|].
  destruct s as [[q ws f k l d] h n w j]. cbn in *. split.
  - intros Hw. destruct w as [|w]; [lia|].
    destruct l as [|x rest]; [cbn in Hbal; lia|].
    exists x, rest. split; reflexivity.
  - intros -> ->.
    unfold simple_pool.getNextItem, simple_pool.try_acquire_for,
      counting_semaphore.try_acquire_for, simple_pool.locked_extract, ret.
    unfold bind. cbn.
    destruct l as [|x rest]; cbn in Hbal.
    + replace k with 0%Z by lia. reflexivity.
    + destruct (0 <? k)%Z eqn:Hpos; [reflexivity|].
      apply Z.ltb_ge in Hpos. lia.
Qed.

Lemma simple_pool_acquired_signal_finds_an_item_witness :
  let schedule :=
    [simple_pool.queue_push 4; simple_pool.queue_push 9; simple_pool.queue_signal;
     simple_pool.consumer_wait] in
  exists s,
    simple_pool.run 16 schedule
      (simple_pool.fresh
         (simple_pool.simple_pool 2 8 (fun (_ : nat) (u : unit) => (returned, u))))
    = Normal tt s
    /\ 0 < simple_pool.past_wait s
    /\ exists x rest, simple_pool.items (simple_pool.self s) = x :: rest.
Proof.
  intros schedule. eexists.
  lazymatch goal with
  | |- simple_pool.run _ _ ?i = Normal tt ?s /\ _ =>
      assert (Hrun : simple_pool.run 16 schedule i = Normal tt s)
        by (vm_compute; reflexivity);
      split; [exact Hrun|]; split; [cbn; lia|];
      destruct (simple_pool_acquired_signal_finds_an_item nat unit 16 2 8
                  (fun _ u => (returned, u)) schedule s Hrun)
        as (_ & Hfound & _);
      destruct (Hfound ltac:(cbn; lia)) as (x & rest & Hitems & _);
      exists x, rest; exact Hitems
  end.
Defined.

Section roundrobin_pool_shares.
Context {T U : Type}.

Lemma div_known (a n q r : Z) :
  (0 <= r < n)%Z -> (a = n * q + r)%Z -> (a / n = q)%Z.
Proof. intros Hr Ha. symmetry. exact (Z.div_unique_pos a n q r Hr Ha). Qed.

(** The share of worker [j] grows by one exactly when the incremented
    counter is [j] modulo the number of workers. *)
Lemma share_step (n j L : Z) :
  (0 < n)%Z -> (0 <= j < n)%Z -> (0 <= L)%Z ->
  ((L + 1 + n - j) / n
   = (L + n - j) / n + (if (L + 1) mod n =? j then 1 else 0))%Z.
Proof.
  intros Hn Hj HL.
  pose proof (Z.div_mod (L + 1) n ltac:(lia)) as Hdm.
  pose proof (Z.mod_pos_bound (L + 1) n Hn) as Hr.
  set (k := ((L + 1) / n)%Z) in *. set (r := ((L + 1) mod n)%Z) in *.
  destruct (Z.eqb_spec r j) as [He|He].
  - rewrite (div_known (L + 1 + n - j) n (k + 1) 0) by lia.
    rewrite (div_known (L + n - j) n k (n - 1)) by lia. lia.
  - destruct (Z.lt_ge_cases r j) as [Hlt|Hge].
    + rewrite (div_known (L + 1 + n - j) n k (n + r - j)) by lia.
      rewrite (div_known (L + n - j) n k (n + r - j - 1)) by lia. lia.
    + rewrite (div_known (L + 1 + n - j) n (k + 1) (r - j)) by lia.
      rewrite (div_known (L + n - j) n (k + 1) (r - j - 1)) by lia. lia.
Qed.

Lemma share_bounds (n j L : Z) :
  (0 < n)%Z -> (0 <= j < n)%Z -> (0 <= L)%Z ->
  (L / n <= (L + n - j) / n - (if j =? 0 then 1 else 0) <= L / n + 1)%Z.
Proof.
  intros Hn Hj HL. destruct (Z.eqb_spec j 0) as [->|He].
  - rewrite (div_known (L + n - 0) n (L / n + 1) (L mod n)).
    + lia.
    + apply Z.mod_pos_bound. exact Hn.
    + pose proof (Z.div_mod L n ltac:(lia)). lia.
  - rewrite Z.sub_0_r. split.
    + apply Z.div_le_mono; lia.
    + replace (L / n + 1)%Z with ((L + 1 * n) / n)%Z by (rewrite Z.div_add; lia).
      apply Z.div_le_mono; lia.
Qed.

Lemma share_full (n j q : Z) :
  (0 < n)%Z -> (0 <= j < n)%Z -> (0 <= q)%Z ->
  ((n * q + n - j) / n - (if j =? 0 then 1 else 0) = q)%Z.
Proof.
  intros Hn Hj Hq. destruct (Z.eqb_spec j 0) as [->|He].
  - rewrite (div_known (n * q + n - 0) n (q + 1) 0) by lia. lia.
  - rewrite (div_known (n * q + n - j) n q (n - j)) by lia. lia.
Qed.

(** How many of the first [length xs] items are routed to worker [j],
    while the 64-bit counter has not wrapped. *)
Lemma routed_to_length (n j : nat) (xs : list T) :
  0 < n -> j < n ->
  (Z.of_nat (length xs) < uint64_modulus)%Z ->
  Z.of_nat (length (roundrobin_pool.routed_to n j xs))
  = ((Z.of_nat (length xs) + Z.of_nat n - Z.of_nat j) / Z.of_nat n
     - (if Z.of_nat j =? 0 then 1 else 0))%Z.
Proof.
  intros Hn Hj. induction xs as [|x xs IH] using rev_ind; intros Hlen.
  - change (length (roundrobin_pool.routed_to n j (@nil T))) with 0.
    change (Z.of_nat (length (@nil T))) with 0%Z. change (Z.of_nat 0) with 0%Z.
    destruct (Z.eqb_spec (Z.of_nat j) 0) as [He|He].
    + rewrite (div_known (0 + Z.of_nat n - Z.of_nat j) (Z.of_nat n) 1 0) by lia. lia.
    + rewrite (div_known (0 + Z.of_nat n - Z.of_nat j) (Z.of_nat n) 0
                 (Z.of_nat n - Z.of_nat j)) by lia. lia.
  - rewrite length_app in Hlen. cbn [length] in Hlen.
    rewrite routed_to_snoc, !length_app. cbn [length].
    rewrite !Nat2Z.inj_add, IH by lia.
    unfold roundrobin_pool.route, uint64_incr.
    rewrite (Z.mod_small (Z.of_nat (length xs) + 1)) by lia.
    change (Z.of_nat 1) with 1%Z.
    rewrite (share_step (Z.of_nat n) (Z.of_nat j) (Z.of_nat (length xs))) by lia.
    destruct (_ =? Z.of_nat j)%Z; cbn [length Z.of_nat]; lia.
Qed.
End roundrobin_pool_shares.

(** X12.  The round robin is even when the calls of [queue] do not
    overlap, each running [++queueCounter] and [nextWorkerIndex()] with
    no other call in between, as with one producer.  Then, while the
    64-bit counter has not wrapped, after [L] items were enqueued in a
    pool of [n > 0] workers, worker 0 has been handed [L / n] items and
    worker [j > 0] has been handed [(L + n - j) / n]; so the shares of
    any two workers differ by at most one, and after [n * q] items every
    worker has been handed exactly [q]. *)
Theorem roundrobin_pool_shares_are_even :
  forall (T U : Type) (N hc : nat) (c : T -> U -> completion * U) (u : U)
         (schedule : list (roundrobin_pool.event T)) (s : roundrobin_pool.system T U),
    let n := roundrobin_pool.pool_size N hc in
    let L := length (roundrobin_pool.enqueued schedule) in
    0 < n ->
    (Z.of_nat L < uint64_modulus)%Z ->
    roundrobin_pool.run schedule
      (roundrobin_pool.running (roundrobin_pool.roundrobin_pool N hc c) u)
    = Normal tt s ->
    (forall j, j < n ->
       Z.of_nat (length (roundrobin_pool.received j s))
       = ((Z.of_nat L + Z.of_nat n - Z.of_nat j) / Z.of_nat n
          - (if Z.of_nat j =? 0 then 1 else 0))%Z)
    /\ (forall j1 j2, j1 < n -> j2 < n ->
          length (roundrobin_pool.received j1 s)
          <= length (roundrobin_pool.received j2 s) + 1)
    /\ (forall q, L = n * q ->
          forall j, j < n -> length (roundrobin_pool.received j s) = q).
Proof.
  intros T U N hc c u schedule s n L Hn HL Hrun.
  pose proof (roundrobin_run_invariant n schedule Hn [] _ s
                (roundrobin_pool_constructed N hc c u) Hrun) as (_ & _ & _ & _ & Hrecv).
  cbn [app] in Hrecv.
  assert (Hshare : forall j, j < n ->
            Z.of_nat (length (roundrobin_pool.received j s))
            = ((Z.of_nat L + Z.of_nat n - Z.of_nat j) / Z.of_nat n
               - (if Z.of_nat j =? 0 then 1 else 0))%Z).
  { intros j Hj. rewrite (Hrecv j Hj). apply routed_to_length; assumption. }
  split; [exact Hshare|]. split.
  - intros j1 j2 Hj1 Hj2.
    pose proof (Hshare j1 Hj1) as H1. pose proof (Hshare j2 Hj2) as H2.
    pose proof (share_bounds (Z.of_nat n) (Z.of_nat j1) (Z.of_nat L)
                  ltac:(lia) ltac:(lia) ltac:(lia)) as B1.
    pose proof (share_bounds (Z.of_nat n) (Z.of_nat j2) (Z.of_nat L)
                  ltac:(lia) ltac:(lia) ltac:(lia)) as B2.
    lia.
  - intros q Hq j Hj. pose proof (Hshare j Hj) as H1.
    rewrite Hq, Nat2Z.inj_mul in H1.
    rewrite (share_full (Z.of_nat n) (Z.of_nat j) (Z.of_nat q)) in H1 by lia.
    lia.
Qed.

Lemma roundrobin_pool_shares_are_even_witness :
  let schedule :=
    [roundrobin_pool.enqueue 1; roundrobin_pool.enqueue 2; roundrobin_pool.work 1;
     roundrobin_pool.enqueue 3; roundrobin_pool.enqueue 4; roundrobin_pool.work 0] in
  exists s,
    roundrobin_pool.run schedule
      (roundrobin_pool.running
         (roundrobin_pool.roundrobin_pool 2 8 (fun (_ : nat) (u : unit) => (returned, u)))
         tt)
    = Normal tt s
    /\ length (roundrobin_pool.received 0 s) = 2
    /\ length (roundrobin_pool.received 1 s) = 2.
Proof.
  intros schedule. eexists.
  lazymatch goal with
  | |- roundrobin_pool.run _ ?i = Normal tt ?s /\ _ =>
      assert (Hrun : roundrobin_pool.run schedule i = Normal tt s)
        by (vm_compute; reflexivity);
      destruct (roundrobin_pool_shares_are_even nat unit 2 8
                  (fun _ u => (returned, u)) tt schedule s
                  ltac:(vm_compute; lia) ltac:(vm_compute; reflexivity) Hrun)
        as (_ & _ & Hfull);
      split; [exact Hrun|];
      split; [exact (Hfull 2 eq_refl 0 ltac:(vm_compute; lia))
             |exact (Hfull 2 eq_refl 1 ltac:(vm_compute; lia))]
  end.
Defined.

Section basic_pool_shutdown.
Context {T U : Type}.
Implicit Types (d : basic_pool.dying T U) (th : jthread T) (ws : list (jthread T)).

(** The loop of the destructor, run on its own from thread [i0] on:
    every statement is defined while the semaphore has room, each thread
    of the loop has its stop requested and stays where it is, and no
    thread is waited for. *)
Lemma basic_pool_destructor_loop_runs (k : nat) : forall (i0 : nat) d,
  (0 <= basic_pool.signal (basic_pool.self (basic_pool.sys d)))%Z ->
  (basic_pool.signal (basic_pool.self (basic_pool.sys d)) + Z.of_nat k <= 512)%Z ->
  exists d',
    basic_pool.dying_run (map basic_pool.during (basic_pool.destructor_loop i0 k)) d
    = Normal tt d'
    /\ basic_pool.gone d' = basic_pool.gone d
    /\ basic_pool.invoked (basic_pool.sys d') = basic_pool.invoked (basic_pool.sys d)
    /\ basic_pool.items (basic_pool.self (basic_pool.sys d'))
       = basic_pool.items (basic_pool.self (basic_pool.sys d))
    /\ forall j th,
         basic_pool.workers (basic_pool.self (basic_pool.sys d)) !! j = Some th ->
         basic_pool.workers (basic_pool.self (basic_pool.sys d')) !! j
         = Some (mk_jthread
                   (stop_requested th || ((i0 <=? j) && (j <? i0 + k)))
                   (location th)).
Proof.
  induction k as [|k IH]; intros i0 d Hc Hroom.
  - exists d. split; [reflexivity|]. split; [reflexivity|]. split; [reflexivity|].
    split; [reflexivity|]. intros j [st loc] Hj. rewrite Hj.
    assert (Hb : (i0 <=? j) && (j <? i0 + 0) = false).
    { destruct (Nat.leb_spec i0 j), (Nat.ltb_spec j (i0 + 0)); try reflexivity; lia. }
    rewrite Hb. cbn [stop_requested location]. rewrite orb_false_r. reflexivity.
  - destruct d as [[[q ws f c l p] u h n cnt] g].
    cbn [basic_pool.sys basic_pool.self basic_pool.signal] in Hc, Hroom.
    cbn [basic_pool.destructor_loop map basic_pool.dying_run]. unfold bind.
    unfold basic_pool.dying_step at 1.
    cbn [basic_pool.shutdown_step basic_pool.sys basic_pool.gone].
    unfold basic_pool.member at 1, basic_pool.release, counting_semaphore.release,
      counting_semaphore.max, basic_pool.signal_LeastMaxValue.
    cbn [basic_pool.self basic_pool.signal].
    replace (c <? 512)%Z with true by (symmetry; apply Z.ltb_lt; lia).
    cbn [basic_pool.set_signal basic_pool.queueCounter basic_pool.workers
         basic_pool.callback basic_pool.items basic_pool.signalWaitInterval
         basic_pool.env basic_pool.invoked basic_pool.in_queue basic_pool.counting].
    unfold basic_pool.dying_step at 1.
    cbn [basic_pool.shutdown_step basic_pool.sys basic_pool.gone].
    unfold basic_pool.member at 1, basic_pool.request_stop, modify.
    cbn [basic_pool.self basic_pool.set_workers basic_pool.queueCounter
         basic_pool.workers basic_pool.callback basic_pool.items basic_pool.signal
         basic_pool.signalWaitInterval basic_pool.env basic_pool.invoked
         basic_pool.in_queue basic_pool.counting].
    match goal with
    | |- exists d', basic_pool.dying_run _ ?d1 = _ /\ _ =>
        destruct (IH (S i0) d1) as (d' & Hrun & Hg & Hinv & Hitems & Hws);
          [cbn; lia|cbn; lia|]
    end.
    exists d'. split; [exact Hrun|].
    unfold basic_pool.set_workers, basic_pool.set_signal in Hg, Hinv, Hitems, Hws.
    cbn [basic_pool.sys basic_pool.self basic_pool.workers basic_pool.gone
         basic_pool.invoked basic_pool.items] in Hg, Hinv, Hitems, Hws |- *.
    split; [exact Hg|]. split; [exact Hinv|]. split; [exact Hitems|].
    intros j [st loc] Hj.
    destruct (decide (j = i0)) as [->|Hne].
    + rewrite (Hws i0 (mk_jthread true loc))
        by (rewrite list_lookup_alter_eq, Hj; reflexivity).
      assert (Hb : (i0 <=? i0) && (i0 <? i0 + S k) = true).
      { destruct (Nat.leb_spec i0 i0), (Nat.ltb_spec i0 (i0 + S k));
          try reflexivity; lia. }
      rewrite Hb. cbn [stop_requested location]. rewrite orb_true_r. reflexivity.
    + rewrite (Hws j (mk_jthread st loc))
        by (rewrite list_lookup_alter_ne by congruence; exact Hj).
      assert (Hb : (S i0 <=? j) && (j <? S i0 + k)
                   = (i0 <=? j) && (j <? i0 + S k)).
      { destruct (Nat.leb_spec (S i0) j), (Nat.leb_spec i0 j),
          (Nat.ltb_spec j (S i0 + k)), (Nat.ltb_spec j (i0 + S k));
          try reflexivity; lia. }
      rewrite Hb. reflexivity.
Qed.
End basic_pool_shutdown.

(** X13.  [~basic_pool()] joins no thread, and the members its threads
    use are destroyed before the threads are joined.  In a pool of
    [n <= 512] threads let thread [i] have reached its wait on the
    semaphore; let the body of the destructor then run: every statement
    of it is defined, it requests the stop of every thread and waits for
    none, and thread [i] is still at its wait.  The members are then
    destroyed in the reverse of their order of declaration, [workers],
    whose destructor is the one that joins, after [signalWaitInterval],
    [items_mutex], [items], [signal] and [callback]; once [signal] is
    destroyed the next statement of thread [i], its wait on that
    semaphore, is undefined. *)
Theorem basic_pool_members_die_before_threads_are_joined :
  forall (T U : Type) (N hc : nat) (c : T -> U -> completion * U) (u : U) (i : nat),
    let n := basic_pool.pool_size N hc in
    i < n -> n <= 512 ->
    let schedule : list (basic_pool.dying_event T) :=
      basic_pool.during (basic_pool.pool_event (basic_pool.thread i))
        :: map basic_pool.during (basic_pool.destructor n)
        ++ map basic_pool.destroy_member (take 4 basic_pool.destruction_order) in
    exists d,
      basic_pool.dying_run schedule
        (basic_pool.mk_dying (basic_pool.running (basic_pool.basic_pool N hc c) u) [])
      = Normal tt d
      /\ basic_pool.gone d
         = [basic_pool.the_signalWaitInterval; basic_pool.the_items_mutex;
            basic_pool.the_items; basic_pool.the_signal]
      /\ basic_pool.invoked (basic_pool.sys d) = []
      /\ (forall j, j < n ->
            exists th,
              basic_pool.workers (basic_pool.self (basic_pool.sys d)) !! j = Some th
              /\ stop_requested th = true)
      /\ basic_pool.workers (basic_pool.self (basic_pool.sys d)) !! i
         = Some (mk_jthread true at_wait)
      /\ basic_pool.dying_step
           (basic_pool.during (basic_pool.pool_event (basic_pool.thread i))) d
         = Undefined.
Proof.
  intros T U N hc c u i n Hi Hn schedule. subst schedule.
  unfold basic_pool.basic_pool, basic_pool.running. fold n.
  assert (Hlook : replicate n (@started T) !! i = Some started)
    by (apply lookup_replicate; auto).
  cbn [basic_pool.dying_run]. unfold bind at 1.
  unfold basic_pool.dying_step at 1, basic_pool.uses_gone.
  cbn [basic_pool.sys basic_pool.self basic_pool.workers basic_pool.gone
       basic_pool.shutdown_step basic_pool.step].
  rewrite Hlook. cbn [location started basic_pool.uses existsb].
  unfold basic_pool.thread_step.
  cbn [basic_pool.self basic_pool.workers]. rewrite Hlook.
  cbn [location stop_requested started].
  unfold basic_pool.member, basic_pool.goto, modify.
  cbn [basic_pool.self basic_pool.set_workers basic_pool.queueCounter
       basic_pool.workers basic_pool.callback basic_pool.items basic_pool.signal
       basic_pool.signalWaitInterval basic_pool.env basic_pool.invoked
       basic_pool.in_queue basic_pool.counting stop_requested started].
  unfold basic_pool.destructor.
  cbn [map app basic_pool.dying_run]. unfold bind at 1.
  unfold basic_pool.dying_step at 1.
  cbn [basic_pool.sys basic_pool.gone basic_pool.shutdown_step].
  unfold basic_pool.member at 1, modify.
  cbn [basic_pool.self basic_pool.set_signalWaitInterval basic_pool.queueCounter
       basic_pool.workers basic_pool.callback basic_pool.items basic_pool.signal
       basic_pool.signalWaitInterval basic_pool.env basic_pool.invoked
       basic_pool.in_queue basic_pool.counting].
  match goal with
  | |- exists d, basic_pool.dying_run (map _ (basic_pool.destructor_loop 0 n) ++ _) ?d1
                 = _ /\ _ =>
      destruct (basic_pool_destructor_loop_runs n 0 d1)
        as (d' & Hrun & Hg & Hinv & _ & Hws); [cbn; lia|cbn; lia|]
  end.
  cbn [basic_pool.sys basic_pool.self basic_pool.workers basic_pool.gone
       basic_pool.invoked] in Hg, Hinv, Hws.
  assert (Happ : forall (a b : list (basic_pool.dying_event T)) x y z,
             basic_pool.dying_run a x = Normal tt y ->
             basic_pool.dying_run b y = z ->
             basic_pool.dying_run (U:=U) (a ++ b) x = z).
  { induction a as [|e a IH]; intros b x y z Ha Hb.
    - cbn in Ha. injection Ha as ->. exact Hb.
    - cbn [app basic_pool.dying_run] in *. unfold bind in *.
      destruct (basic_pool.dying_step e x) as [[] x1| |]; try discriminate.
      exact (IH b x1 y z Ha Hb). }
  destruct d' as [s' g']. cbn [basic_pool.gone basic_pool.sys] in Hg, Hinv, Hws.
  subst g'.
  exists (basic_pool.mk_dying s'
            [basic_pool.the_signalWaitInterval; basic_pool.the_items_mutex;
             basic_pool.the_items; basic_pool.the_signal]).
  split; [exact (Happ _ _ _ _ _ Hrun eq_refl)|].
  cbn [basic_pool.gone basic_pool.sys].
  split; [reflexivity|]. split; [exact Hinv|].
  assert (Hi' : basic_pool.workers (basic_pool.self s') !! i
                = Some (mk_jthread true at_wait)).
  { rewrite (Hws i (mk_jthread false at_wait)).
    - assert (Hb : (0 <=? i) && (i <? 0 + n) = true).
      { destruct (Nat.leb_spec 0 i), (Nat.ltb_spec i (0 + n)); try reflexivity; lia. }
      rewrite Hb. reflexivity.
    - apply list_lookup_insert_eq. rewrite length_replicate. exact Hi. }
  split; [|split; [exact Hi'|]].
  - intros j Hj.
    destruct (lookup_lt_is_Some_2
                (<[i := mk_jthread false at_wait]> (replicate n (@started T))) j)
      as (th & Hth); [rewrite length_insert, length_replicate; exact Hj|].
    eexists. split; [apply (Hws j th Hth)|].
    assert (Hb : (0 <=? j) && (j <? 0 + n) = true).
    { destruct (Nat.leb_spec 0 j), (Nat.ltb_spec j (0 + n)); try reflexivity; lia. }
    rewrite Hb. cbn [stop_requested]. apply orb_true_r.
  - unfold basic_pool.dying_step, basic_pool.uses_gone.
    cbn [basic_pool.sys basic_pool.gone]. rewrite Hi'. reflexivity.
Qed.

Lemma basic_pool_members_die_before_threads_are_joined_witness :
  exists d,
    basic_pool.dying_run
      ([basic_pool.during (basic_pool.pool_event (basic_pool.thread 1));
        basic_pool.during basic_pool.destructor_interval;
        basic_pool.during basic_pool.destructor_release;
        basic_pool.during (basic_pool.destructor_request_stop 0);
        basic_pool.during basic_pool.destructor_release;
        basic_pool.during (basic_pool.destructor_request_stop 1);
        basic_pool.destroy_member basic_pool.the_signalWaitInterval;
        basic_pool.destroy_member basic_pool.the_items_mutex;
        basic_pool.destroy_member basic_pool.the_items;
        basic_pool.destroy_member basic_pool.the_signal]
         : list (basic_pool.dying_event nat))
      (basic_pool.mk_dying
         (basic_pool.running
            (basic_pool.basic_pool 2 8 (fun (_ : nat) (u : unit) => (returned, u))) tt)
         [])
    = Normal tt d
    /\ basic_pool.workers (basic_pool.self (basic_pool.sys d)) !! 1
       = Some (mk_jthread true at_wait)
    /\ basic_pool.dying_step
         (basic_pool.during (basic_pool.pool_event (basic_pool.thread 1))) d
       = Undefined.
Proof.
  destruct (basic_pool_members_die_before_threads_are_joined nat unit 2 8
              (fun _ u => (returned, u)) tt 1 ltac:(vm_compute; lia)
              ltac:(vm_compute; lia))
    as (d & Hrun & _ & _ & _ & Hth & Hub).
  exists d. split; [exact Hrun|]. split; [exact Hth|exact Hub].
Defined.

(** X14.  The signal that [~basic_pool()] releases to wake a thread can
    be taken while an item is queued.  In a pool of at least two threads
    that holds one queued item, once the destructor has released its
    first signal two threads can each take a signal and each pass the
    test [!items.empty() && !st.stop_requested()], which is made outside
    the lock; the first then takes the item, and the second runs
    [items.front()] on the empty deque, which is undefined. *)
Theorem basic_pool_destructor_signal_meets_queued_item :
  forall (T U : Type) (N hc : nat) (c : T -> U -> completion * U) (u : U) (x : T),
    2 <= basic_pool.pool_size N hc ->
    let schedule :=
      [basic_pool.pool_event (basic_pool.queue_push x);
       basic_pool.pool_event basic_pool.queue_signal;
       basic_pool.destructor_interval; basic_pool.destructor_release;
       basic_pool.pool_event (basic_pool.thread 0);
       basic_pool.pool_event (basic_pool.thread 1);
       basic_pool.pool_event (basic_pool.thread 0);
       basic_pool.pool_event (basic_pool.thread 1);
       basic_pool.pool_event (basic_pool.thread 0);
       basic_pool.pool_event (basic_pool.thread 1);
       basic_pool.pool_event (basic_pool.thread 0)] in
    (exists rest,
        basic_pool.destructor (basic_pool.pool_size N hc)
        = basic_pool.destructor_part schedule ++ rest)
    /\ exists s,
        basic_pool.shutdown_run schedule
          (basic_pool.running (basic_pool.basic_pool N hc c) u) = Normal tt s
        /\ basic_pool.items (basic_pool.self s) = []
        /\ basic_pool.workers (basic_pool.self s) !! 0
           = Some (mk_jthread false (at_callback x))
        /\ basic_pool.workers (basic_pool.self s) !! 1
           = Some (mk_jthread false at_lock)
        /\ basic_pool.shutdown_step (basic_pool.pool_event (basic_pool.thread 1)) s
           = Undefined.
Proof.
  intros T U N hc c u x Hn schedule.
  unfold basic_pool.basic_pool.
  destruct (basic_pool.pool_size N hc) as [|[|n]]; [lia|lia|]. clear Hn.
  split.
  - eexists. cbn. reflexivity.
  - eexists. split; [vm_compute; reflexivity|].
    split; [reflexivity|]. split; [reflexivity|]. split; reflexivity.
Qed.

Lemma basic_pool_destructor_signal_meets_queued_item_witness :
  exists s,
    basic_pool.shutdown_run
      [basic_pool.pool_event (basic_pool.queue_push 7);
       basic_pool.pool_event basic_pool.queue_signal;
       basic_pool.destructor_interval; basic_pool.destructor_release;
       basic_pool.pool_event (basic_pool.thread 0);
       basic_pool.pool_event (basic_pool.thread 1);
       basic_pool.pool_event (basic_pool.thread 0);
       basic_pool.pool_event (basic_pool.thread 1);
       basic_pool.pool_event (basic_pool.thread 0);
       basic_pool.pool_event (basic_pool.thread 1);
       basic_pool.pool_event (basic_pool.thread 0)]
      (basic_pool.running
         (basic_pool.basic_pool 2 8 (fun (_ : nat) (u : unit) => (returned, u))) tt)
    = Normal tt s
    /\ basic_pool.shutdown_step (basic_pool.pool_event (basic_pool.thread 1)) s
       = Undefined.
Proof.
  destruct (basic_pool_destructor_signal_meets_queued_item nat unit 2 8
              (fun _ u => (returned, u)) tt 7 ltac:(vm_compute; lia))
    as (_ & s & Hrun & _ & _ & _ & Hub).
  exists s. split; [exact Hrun|exact Hub].
Defined.

Section roundrobin_pool_delivery.
Context {T U : Type}.
Implicit Types (s : roundrobin_pool.system T U) (w : simple_worker.t T U).

(** A turn of the loop of a worker in service whose signals match its
    items: it takes the front item, if there is one, and calls the
    callback with it. *)
Lemma simple_worker_turn_takes_front w (u : U) :
  roundrobin_pool.in_service w ->
  simple_worker.signal w = Z.of_nat (length (simple_worker.items w)) ->
  exists r,
    simple_worker.loop_iteration (simple_worker.mk_system w u []) = Normal tt r
    /\ roundrobin_pool.in_service (simple_worker.self r)
    /\ simple_worker.invoked r ++ simple_worker.items (simple_worker.self r)
       = simple_worker.items w
    /\ simple_worker.items (simple_worker.self r) = tail (simple_worker.items w)
    /\ simple_worker.signal (simple_worker.self r)
       = Z.of_nat (length (simple_worker.items (simple_worker.self r))).
Proof.
  destruct w as [q l c d f th]. intros [Hst Hf]; cbn in *. intros Hc.
  destruct f as [g|]; [clear Hf|congruence].
  unfold simple_worker.loop_iteration, try_catch_all, simple_worker.loop_body,
    bind, simple_worker.member, simple_worker.getNextItem,
    simple_worker.try_acquire_for, counting_semaphore.try_acquire_for,
    gets, ret, scope_exit, simple_worker.popOnDestruct_pop,
    simple_worker.popOnDestruct_destructor, modify, simple_worker.invoke, call,
    roundrobin_pool.in_service.
  unfold bind, ret. cbn.
  destruct (0 <? c)%Z eqn:Hpos; cbn.
  - apply Z.ltb_lt in Hpos. destruct l as [|x l]; cbn in Hc; [lia|]. cbn.
    rewrite Hst. cbn. destruct (g x u) as [[] u']; cbn;
      eexists; repeat split; cbn; auto; try congruence; lia.
  - apply Z.ltb_ge in Hpos. destruct l as [|x l]; cbn in Hc; [|lia].
    eexists; repeat split; cbn; auto; try congruence; lia.
Qed.

(** [queue] keeps the signals of every worker matched with its items. *)
Lemma roundrobin_enqueue_matched (n : nat) xs s x s' :
  0 < n ->
  roundrobin_pool.invariant n xs s ->
  (forall j w, roundrobin_pool.workers (roundrobin_pool.self s) !! j = Some w ->
               simple_worker.signal w = Z.of_nat (length (simple_worker.items w))) ->
  roundrobin_pool.step (roundrobin_pool.enqueue x) s = Normal tt s' ->
  forall j w, roundrobin_pool.workers (roundrobin_pool.self s') !! j = Some w ->
              simple_worker.signal w = Z.of_nat (length (simple_worker.items w)).
Proof.
  intros Hn (Hc & Hsz & Hlen & Hsrv & Hrec) Hsync.
  destruct s as [p u inv].
  cbn [roundrobin_pool.step roundrobin_pool.self] in *.
  unfold roundrobin_pool.member. cbn [roundrobin_pool.self roundrobin_pool.env
                                      roundrobin_pool.invoked].
  destruct (roundrobin_pool.queue x p) as [[] p'| |] eqn:Hq; try discriminate.
  intros [= <-].
  destruct (roundrobin_pool_queue_routes n p x p' Hn Hsz Hlen Hq)
    as (w0 & w0' & Hi & Hw & Hwq & ->).
  cbn [roundrobin_pool.self roundrobin_pool.workers].
  intros j w Hj.
  destruct (simple_worker_queue_effect w0 x w0' Hwq) as (Hitems & Hsig & _).
  apply list_lookup_insert_Some in Hj as [(<- & <- & _)|(Hne & Hj)].
  - rewrite Hsig, Hitems, (Hsync _ w0 Hw), length_app. cbn [length]. lia.
  - exact (Hsync j w Hj).
Qed.

(** A turn of worker [j0]: its front item goes to the callback, the
    other workers are left as they are. *)
Lemma roundrobin_work_takes_front (n : nat) xs s (j0 : nat) :
  roundrobin_pool.invariant n xs s ->
  (forall j w, roundrobin_pool.workers (roundrobin_pool.self s) !! j = Some w ->
               simple_worker.signal w = Z.of_nat (length (simple_worker.items w))) ->
  exists s',
    roundrobin_pool.step (roundrobin_pool.work j0) s = Normal tt s'
    /\ roundrobin_pool.invariant n xs s'
    /\ (forall j w, roundrobin_pool.workers (roundrobin_pool.self s') !! j = Some w ->
                    simple_worker.signal w = Z.of_nat (length (simple_worker.items w)))
    /\ (forall j w, roundrobin_pool.workers (roundrobin_pool.self s) !! j = Some w ->
          exists w', roundrobin_pool.workers (roundrobin_pool.self s') !! j = Some w'
                     /\ simple_worker.items w'
                        = if decide (j = j0) then tail (simple_worker.items w)
                          else simple_worker.items w).
Proof.
  intros Hinv Hsync.
  destruct (roundrobin_step_work n xs s j0 Hinv) as (s' & Hstep & Hinv').
  exists s'. split; [exact Hstep|]. split; [exact Hinv'|].
  destruct Hinv as (_ & _ & _ & Hsrv & _).
  destruct s as [p u inv].
  cbn [roundrobin_pool.step roundrobin_pool.self] in *.
  unfold roundrobin_pool.worker_turn in Hstep.
  cbn [roundrobin_pool.self roundrobin_pool.env roundrobin_pool.invoked] in Hstep.
  destruct (roundrobin_pool.workers p !! j0) as [w0|] eqn:Hw0.
  2:{ injection Hstep as <-. cbn [roundrobin_pool.self]. split; [exact Hsync|].
      intros j w Hj. exists w. split; [exact Hj|].
      destruct (decide (j = j0)) as [->|_]; [congruence|reflexivity]. }
  destruct (simple_worker_turn_takes_front w0 u (Hsrv j0 w0 Hw0) (Hsync j0 w0 Hw0))
    as (r & Hrun & _ & _ & Htail & Hsig).
  rewrite Hrun in Hstep. injection Hstep as <-.
  cbn [roundrobin_pool.self roundrobin_pool.workers].
  pose proof (lookup_lt_Some _ _ _ Hw0) as Hlt.
  split.
  - intros j w Hj.
    apply list_lookup_insert_Some in Hj as [(<- & <- & _)|(Hne & Hj)];
      [exact Hsig|exact (Hsync j w Hj)].
  - intros j w Hj. destruct (decide (j = j0)) as [->|Hne].
    + rewrite list_lookup_insert_eq by exact Hlt. eexists. split; [reflexivity|].
      rewrite Hw0 in Hj. injection Hj as <-. exact Htail.
    + rewrite list_lookup_insert_ne by congruence. exists w. auto.
Qed.

Lemma roundrobin_run_matched (n : nat) (schedule : list (roundrobin_pool.event T)) :
  0 < n ->
  forall xs s s',
    roundrobin_pool.invariant n xs s ->
    (forall j w, roundrobin_pool.workers (roundrobin_pool.self s) !! j = Some w ->
                 simple_worker.signal w = Z.of_nat (length (simple_worker.items w))) ->
    roundrobin_pool.run schedule s = Normal tt s' ->
    forall j w, roundrobin_pool.workers (roundrobin_pool.self s') !! j = Some w ->
                simple_worker.signal w = Z.of_nat (length (simple_worker.items w)).
Proof.
  intros Hn. induction schedule as [|e schedule IH]; intros xs s s' Hinv Hsync Hrun.
  - cbn in Hrun. injection Hrun as <-. exact Hsync.
  - cbn [roundrobin_pool.run] in Hrun. unfold bind in Hrun.
    destruct e as [x|j0].
    + destruct (roundrobin_pool.step (roundrobin_pool.enqueue x) s)
        as [[] s1| |] eqn:Hstep; try discriminate.
      apply (IH (xs ++ [x]) s1 s'); [| |exact Hrun].
      * eapply roundrobin_step_enqueue; eassumption.
      * eapply roundrobin_enqueue_matched; eassumption.
    + destruct (roundrobin_work_takes_front n xs s j0 Hinv Hsync)
        as (s1 & Hstep & Hinv1 & Hsync1 & _).
      rewrite Hstep in Hrun. exact (IH xs s1 s' Hinv1 Hsync1 Hrun).
Qed.

(** When every worker takes at least as many turns as it has items
    queued, every deque is emptied. *)
Lemma roundrobin_drain (n : nat) xs (turns : list nat) : forall s,
  roundrobin_pool.invariant n xs s ->
  (forall j w, roundrobin_pool.workers (roundrobin_pool.self s) !! j = Some w ->
               simple_worker.signal w = Z.of_nat (length (simple_worker.items w))) ->
  (forall j w, roundrobin_pool.workers (roundrobin_pool.self s) !! j = Some w ->
               length (simple_worker.items w) <= List.count_occ Nat.eq_dec turns j) ->
  exists s',
    roundrobin_pool.run (map roundrobin_pool.work turns) s = Normal tt s'
    /\ roundrobin_pool.invariant n xs s'
    /\ forall j w, roundrobin_pool.workers (roundrobin_pool.self s') !! j = Some w ->
                   simple_worker.items w = [].
Proof.
  induction turns as [|j0 turns IH]; intros s Hinv Hsync Hturns.
  - exists s. split; [reflexivity|]. split; [exact Hinv|].
    intros j w Hj. specialize (Hturns j w Hj). cbn in Hturns.
    destruct (simple_worker.items w); [reflexivity|cbn in Hturns; lia].
  - destruct (roundrobin_work_takes_front n xs s j0 Hinv Hsync)
      as (s1 & Hstep & Hinv1 & Hsync1 & Hitems).
    destruct (IH s1 Hinv1 Hsync1) as (s' & Hrun & Hinv' & Hempty).
    + intros j w1 Hj1.
      destruct Hinv as (_ & _ & Hlen & _), Hinv1 as (_ & _ & Hlen1 & _).
      pose proof (lookup_lt_Some _ _ _ Hj1) as Hlt.
      destruct (lookup_lt_is_Some_2 (roundrobin_pool.workers (roundrobin_pool.self s)) j
                  ltac:(lia)) as (w & Hj).
      destruct (Hitems j w Hj) as (w1' & Hj1' & Hw1).
      rewrite Hj1 in Hj1'. injection Hj1' as <-.
      specialize (Hturns j w Hj). rewrite Hw1.
      destruct (decide (j = j0)) as [->|Hne].
      * rewrite List.count_occ_cons_eq in Hturns by reflexivity.
        destruct (simple_worker.items w); cbn in *; lia.
      * rewrite List.count_occ_cons_neq in Hturns by congruence. exact Hturns.
    + exists s'. cbn [map roundrobin_pool.run]. unfold bind. rewrite Hstep.
      split; [exact Hrun|]. split; [exact Hinv'|exact Hempty].
Qed.
End roundrobin_pool_delivery.

(** X15.  The partitioned pool delivers every item.  After any
    interleaving of enqueues and worker turns, let every worker take at
    least as many further turns of its loop as it has items queued, in any
    order.  Then every deque is empty, and the callback of worker [j] has
    been called, in order, with exactly the items routed to [j]: each
    item enqueued went through the callback of its worker, whether the
    calls returned or threw. *)
Theorem roundrobin_pool_delivers_every_item :
  forall (T U : Type) (N hc : nat) (c : T -> U -> completion * U) (u : U)
         (schedule : list (roundrobin_pool.event T)) (s : roundrobin_pool.system T U)
         (turns : list nat),
    let n := roundrobin_pool.pool_size N hc in
    0 < n ->
    roundrobin_pool.run schedule
      (roundrobin_pool.running (roundrobin_pool.roundrobin_pool N hc c) u)
    = Normal tt s ->
    (forall j w, roundrobin_pool.workers (roundrobin_pool.self s) !! j = Some w ->
                 length (simple_worker.items w) <= List.count_occ Nat.eq_dec turns j) ->
    exists s',
      roundrobin_pool.run (map roundrobin_pool.work turns) s = Normal tt s'
      /\ (forall j w, roundrobin_pool.workers (roundrobin_pool.self s') !! j = Some w ->
                      simple_worker.items w = [])
      /\ forall j, j < n ->
           map snd (List.filter (fun e => fst e =? j) (roundrobin_pool.invoked s'))
           = roundrobin_pool.routed_to n j (roundrobin_pool.enqueued schedule).
Proof.
  intros T U N hc c u schedule s turns n Hn Hrun Hturns.
  pose proof (roundrobin_pool_constructed N hc c u) as Hinv0. fold n in Hinv0.
  pose proof (roundrobin_run_invariant n schedule Hn [] _ s Hinv0 Hrun) as Hinv.
  cbn [app] in Hinv.
  assert (Hsync : forall j w,
             roundrobin_pool.workers (roundrobin_pool.self s) !! j = Some w ->
             simple_worker.signal w = Z.of_nat (length (simple_worker.items w))).
  { apply (roundrobin_run_matched n schedule Hn [] _ s Hinv0); [|exact Hrun].
    intros j w Hj. cbn in Hj. apply lookup_replicate in Hj as [-> _]. reflexivity. }
  destruct (roundrobin_drain n _ turns s Hinv Hsync Hturns)
    as (s' & Hrun' & Hinv' & Hempty).
  exists s'. split; [exact Hrun'|]. split; [exact Hempty|].
  intros j Hj. destruct Hinv' as (_ & _ & Hlen & _ & Hrecv).
  rewrite <- (Hrecv j Hj). unfold roundrobin_pool.received.
  destruct (lookup_lt_is_Some_2 (roundrobin_pool.workers (roundrobin_pool.self s')) j
              ltac:(lia)) as (w & Hw).
  rewrite Hw, (Hempty j w Hw), app_nil_r. reflexivity.
Qed.

Lemma roundrobin_pool_delivers_every_item_witness :
  let schedule :=
    [roundrobin_pool.enqueue 1; roundrobin_pool.enqueue 2; roundrobin_pool.work 1;
     roundrobin_pool.enqueue 3] in
  exists s s',
    roundrobin_pool.run schedule
      (roundrobin_pool.running
         (roundrobin_pool.roundrobin_pool 2 8 (fun (_ : nat) (u : unit) => (raised, u)))
         tt)
    = Normal tt s
    /\ roundrobin_pool.run (map roundrobin_pool.work [0; 1; 1]) s = Normal tt s'
    /\ map snd (List.filter (fun e => fst e =? 1) (roundrobin_pool.invoked s')) = [1; 3]
    /\ map snd (List.filter (fun e => fst e =? 0) (roundrobin_pool.invoked s')) = [2].
Proof.
  intros schedule. eexists.
  lazymatch goal with
  | |- exists s', roundrobin_pool.run _ ?i = Normal tt ?s /\ _ =>
      assert (Hrun : roundrobin_pool.run schedule i = Normal tt s)
        by (vm_compute; reflexivity);
      assert (Hturns : forall j w,
                 roundrobin_pool.workers (roundrobin_pool.self s) !! j = Some w ->
                 length (simple_worker.items w)
                 <= List.count_occ Nat.eq_dec [0; 1; 1] j)
        by (intros [|[|j]] w Hw; vm_compute in Hw; [| |discriminate];
            injection Hw as <-; vm_compute; lia);
      destruct (roundrobin_pool_delivers_every_item nat unit 2 8
                  (fun _ u => (raised, u)) tt schedule s [0; 1; 1]
                  ltac:(vm_compute; lia) Hrun Hturns)
        as (s' & Hrun' & _ & Hdel);
      exists s'; split; [exact Hrun|]; split; [exact Hrun'|];
      split; [exact (Hdel 1 ltac:(vm_compute; lia))
             |exact (Hdel 0 ltac:(vm_compute; lia))]
  end.
Defined.

Section pool_counters.
Context {T U : Type}.

Lemma uint64_incr_count (k : nat) :
  uint64_incr (Z.of_nat k mod uint64_modulus) = (Z.of_nat (S k) mod uint64_modulus)%Z.
Proof. rewrite uint64_incr_mod. unfold uint64_incr. f_equal. lia. Qed.

(** A statement of a pool thread leaves the counter and the producers
    alone. *)
Lemma basic_pool_thread_step_counter (i : nat) (s s' : basic_pool.system T U) :
  basic_pool.thread_step i s = Normal tt s' ->
  basic_pool.queueCounter (basic_pool.self s')
  = basic_pool.queueCounter (basic_pool.self s)
  /\ basic_pool.in_queue s' = basic_pool.in_queue s
  /\ basic_pool.counting s' = basic_pool.counting s.
Proof.
  destruct s as [[q ws f c l d] u h n k].
  unfold basic_pool.thread_step. cbn [basic_pool.self basic_pool.workers].
  destruct (ws !! i) as [[st loc]|]; [|intros [= <-]; auto].
  unfold basic_pool.member, basic_pool.try_acquire_for,
    counting_semaphore.try_acquire_for, basic_pool.guard, basic_pool.take_front,
    basic_pool.goto, basic_pool.invoke, call, try_catch_all, modify, gets, ret.
  unfold bind.
  destruct loc as [| | | |y|x|]; cbn.
  - destruct st; cbn; intros [= <-]; auto.
  - destruct (0 <? c)%Z; cbn; intros [= <-]; auto.
  - destruct l; cbn; [intros [= <-]; auto|]. destruct st; cbn; intros [= <-]; auto.
  - destruct l; cbn; [discriminate|]. intros [= <-]; auto.
  - intros [= <-]; auto.
  - destruct f as [g|]; cbn; [destruct (g x u) as [[] u']; cbn|];
      intros [= <-]; auto.
  - intros [= <-]; auto.
Qed.

Lemma basic_pool_step_counter (e : basic_pool.event T) (m : nat)
    (s s' : basic_pool.system T U) :
  basic_pool.in_queue s + basic_pool.counting s <= m ->
  basic_pool.queueCounter (basic_pool.self s)
  = (Z.of_nat (m - basic_pool.in_queue s - basic_pool.counting s)
     mod uint64_modulus)%Z ->
  basic_pool.step e s = Normal tt s' ->
  basic_pool.in_queue s' + basic_pool.counting s'
  <= m + length (basic_pool.pushed [e])
  /\ basic_pool.queueCounter (basic_pool.self s')
     = (Z.of_nat (m + length (basic_pool.pushed [e])
                  - basic_pool.in_queue s' - basic_pool.counting s')
        mod uint64_modulus)%Z.
Proof.
  intros Hle Hq. destruct e as [x| | |i].
  - destruct s as [[q ws f c l d] u h n k].
    unfold basic_pool.step, basic_pool.member, basic_pool.emplace_back, modify.
    unfold bind. cbn in *. intros [= <-]. cbn. split; [lia|].
    rewrite Hq. f_equal. lia.
  - destruct s as [[q ws f c l d] u h n k].
    unfold basic_pool.step, basic_pool.member, basic_pool.release,
      counting_semaphore.release, modify.
    unfold bind. cbn in *.
    destruct n as [|n].
    + intros [= <-]. cbn. split; [lia|]. rewrite Hq. f_equal. lia.
    + destruct (c <? _)%Z; [|discriminate]. intros [= <-]. cbn. split; [lia|].
      rewrite Hq. f_equal. lia.
  - destruct s as [[q ws f c l d] u h n k].
    unfold basic_pool.step, basic_pool.member, modify.
    unfold bind. cbn in *.
    destruct k as [|k].
    + intros [= <-]. cbn. split; [lia|]. rewrite Hq. f_equal. lia.
    + intros [= <-]. cbn. split; [lia|].
      rewrite Hq, uint64_incr_count. f_equal. lia.
  - cbn [basic_pool.step]. intros Hstep.
    destruct (basic_pool_thread_step_counter i s s' Hstep) as (-> & -> & ->).
    cbn. rewrite Nat.add_0_r. auto.
Qed.

Lemma basic_pool_run_counter (schedule : list (basic_pool.event T)) :
  forall (m : nat) (s s' : basic_pool.system T U),
    basic_pool.in_queue s + basic_pool.counting s <= m ->
    basic_pool.queueCounter (basic_pool.self s)
    = (Z.of_nat (m - basic_pool.in_queue s - basic_pool.counting s)
       mod uint64_modulus)%Z ->
    basic_pool.run schedule s = Normal tt s' ->
    basic_pool.in_queue s' + basic_pool.counting s'
    <= m + length (basic_pool.pushed schedule)
    /\ basic_pool.queueCounter (basic_pool.self s')
       = (Z.of_nat (m + length (basic_pool.pushed schedule)
                    - basic_pool.in_queue s' - basic_pool.counting s')
          mod uint64_modulus)%Z.
Proof.
  induction schedule as [|e schedule IH]; intros m s s' Hle Hq Hrun.
  - cbn in Hrun. injection Hrun as <-. cbn. rewrite Nat.add_0_r. auto.
  - cbn [basic_pool.run] in Hrun. unfold bind in Hrun.
    destruct (basic_pool.step e s) as [[] s1| |] eqn:Hstep; try discriminate.
    destruct (basic_pool_step_counter e m s s1 Hle Hq Hstep) as (Hle1 & Hq1).
    change (e :: schedule) with ([e] ++ schedule).
    rewrite basic_pool_pushed_app, length_app, Nat.add_assoc.
    exact (IH _ s1 s' Hle1 Hq1 Hrun).
Qed.

Lemma simple_pool_step_counter (max : Z) (e : simple_pool.event T) (m : nat)
    (s s' : simple_pool.observed T U) :
  simple_pool.in_queue s + simple_pool.counting s <= m ->
  simple_pool.queueCounter (simple_pool.self s)
  = (Z.of_nat (m - simple_pool.in_queue s - simple_pool.counting s)
     mod uint64_modulus)%Z ->
  simple_pool.step max e s = Normal tt s' ->
  simple_pool.in_queue s' + simple_pool.counting s'
  <= m + length (simple_pool.pushed [e])
  /\ simple_pool.queueCounter (simple_pool.self s')
     = (Z.of_nat (m + length (simple_pool.pushed [e])
                  - simple_pool.in_queue s' - simple_pool.counting s')
        mod uint64_modulus)%Z.
Proof.
  destruct s as [[q ws f c l d] h n k j]. cbn. intros Hle Hq.
  destruct e as [x| | | |];
    unfold simple_pool.step, simple_pool.member, simple_pool.emplace_back,
      simple_pool.release, counting_semaphore.release,
      simple_pool.try_acquire_for, counting_semaphore.try_acquire_for,
      simple_pool.locked_extract, modify, ret;
    unfold bind; cbn.
  - intros [= <-]. cbn. split; [lia|]. rewrite Hq. f_equal. lia.
  - destruct n as [|n].
    + intros [= <-]. cbn. split; [lia|]. rewrite Hq. f_equal. lia.
    + destruct (c <? _)%Z; [|discriminate]. intros [= <-]. cbn. split; [lia|].
      rewrite Hq. f_equal. lia.
  - destruct j as [|j].
    + intros [= <-]. cbn. split; [lia|]. rewrite Hq. f_equal. lia.
    + intros [= <-]. cbn. split; [lia|].
      rewrite Hq, uint64_incr_count. f_equal. lia.
  - destruct (0 <? c)%Z; cbn; intros [= <-]; cbn; (split; [lia|]);
      rewrite Hq; f_equal; lia.
  - destruct k as [|k].
    + intros [= <-]. cbn. split; [lia|]. rewrite Hq. f_equal. lia.
    + destruct l as [|y l]; cbn; intros [= <-]; cbn; (split; [lia|]);
        rewrite Hq; f_equal; lia.
Qed.

Lemma simple_pool_run_counter (max : Z) (schedule : list (simple_pool.event T)) :
  forall (m : nat) (s s' : simple_pool.observed T U),
    simple_pool.in_queue s + simple_pool.counting s <= m ->
    simple_pool.queueCounter (simple_pool.self s)
    = (Z.of_nat (m - simple_pool.in_queue s - simple_pool.counting s)
       mod uint64_modulus)%Z ->
    simple_pool.run max schedule s = Normal tt s' ->
    simple_pool.in_queue s' + simple_pool.counting s'
    <= m + length (simple_pool.pushed schedule)
    /\ simple_pool.queueCounter (simple_pool.self s')
       = (Z.of_nat (m + length (simple_pool.pushed schedule)
                    - simple_pool.in_queue s' - simple_pool.counting s')
          mod uint64_modulus)%Z.
Proof.
  induction schedule as [|e schedule IH]; intros m s s' Hle Hq Hrun.
  - cbn in Hrun. injection Hrun as <-. cbn. rewrite Nat.add_0_r. auto.
  - cbn [simple_pool.run] in Hrun. unfold bind in Hrun.
    destruct (simple_pool.step max e s) as [[] s1| |] eqn:Hstep; try discriminate.
    destruct (simple_pool_step_counter max e m s s1 Hle Hq Hstep) as (Hle1 & Hq1).
    change (e :: schedule) with ([e] ++ schedule).
    rewrite simple_pool_pushed_app, length_app, Nat.add_assoc.
    exact (IH _ s1 s' Hle1 Hq1 Hrun).
Qed.
End pool_counters.

(** X16.  [queueCounter] of a pool counts, modulo 2^64, the calls of
    [queue] that have run their [++queueCounter], whatever the pool's
    threads have done in between.  In the shared-queue pools, where
    [queue] appends, then releases the signal, then increments, it is
    the number of items appended, less the producers that have appended
    and not yet released the signal, less the producers that have
    released it and not yet incremented: between [signal.release()] and
    [++queueCounter] the counter is one behind the signals released.  In
    the partitioned pool, where the counter is incremented first, it is
    the number of items enqueued, the calls of [queue] not overlapping. *)
Theorem pool_queueCounter_counts_queue_calls :
  forall (T U : Type) (N hc : nat) (c : T -> U -> completion * U) (u : U) (max : Z)
         (bs : list (basic_pool.event T)) (b : basic_pool.system T U)
         (ss : list (simple_pool.event T)) (p : simple_pool.observed T U)
         (rs : list (roundrobin_pool.event T)) (r : roundrobin_pool.system T U),
    (basic_pool.run bs (basic_pool.running (basic_pool.basic_pool N hc c) u)
     = Normal tt b ->
     basic_pool.in_queue b + basic_pool.counting b <= length (basic_pool.pushed bs)
     /\ basic_pool.queueCounter (basic_pool.self b)
        = (Z.of_nat (length (basic_pool.pushed bs)
                     - basic_pool.in_queue b - basic_pool.counting b)
           mod uint64_modulus)%Z)
    /\ (simple_pool.run max ss (simple_pool.fresh (simple_pool.simple_pool N hc c))
        = Normal tt p ->
        simple_pool.in_queue p + simple_pool.counting p
        <= length (simple_pool.pushed ss)
        /\ simple_pool.queueCounter (simple_pool.self p)
           = (Z.of_nat (length (simple_pool.pushed ss)
                        - simple_pool.in_queue p - simple_pool.counting p)
              mod uint64_modulus)%Z)
    /\ (0 < roundrobin_pool.pool_size N hc ->
        roundrobin_pool.run rs
          (roundrobin_pool.running (roundrobin_pool.roundrobin_pool N hc c) u)
        = Normal tt r ->
        roundrobin_pool.queueCounter (roundrobin_pool.self r)
        = (Z.of_nat (length (roundrobin_pool.enqueued rs)) mod uint64_modulus)%Z).
Proof.
  intros T U N hc c u max bs b ss p rs r. split; [|split].
  - intros Hrun.
    apply (basic_pool_run_counter bs 0
             (basic_pool.running (basic_pool.basic_pool N hc c) u) b);
      [cbn; lia|reflexivity|exact Hrun].
  - intros Hrun.
    apply (simple_pool_run_counter max ss 0
             (simple_pool.fresh (simple_pool.simple_pool N hc c)) p);
      [cbn; lia|reflexivity|exact Hrun].
  - intros Hn Hrun.
    pose proof (roundrobin_run_invariant _ rs Hn [] _ r
                  (roundrobin_pool_constructed N hc c u) Hrun) as (Hq & _).
    exact Hq.
Qed.

Lemma pool_queueCounter_counts_queue_calls_witness :
  let bs := [basic_pool.queue_push 1; basic_pool.queue_push 2; basic_pool.queue_signal;
             basic_pool.thread 0; basic_pool.queue_signal; basic_pool.queue_count] in
  exists b,
    basic_pool.run bs
      (basic_pool.running
         (basic_pool.basic_pool 2 8 (fun (_ : nat) (u : unit) => (returned, u))) tt)
    = Normal tt b
    /\ basic_pool.signal (basic_pool.self b) = 2%Z
    /\ basic_pool.counting b = 1
    /\ basic_pool.queueCounter (basic_pool.self b) = 1%Z.
Proof.
  intros bs. eexists.
  lazymatch goal with
  | |- basic_pool.run _ ?i = Normal tt ?b /\ _ =>
      assert (Hrun : basic_pool.run bs i = Normal tt b) by (vm_compute; reflexivity);
      split; [exact Hrun|]; split; [reflexivity|]; split; [reflexivity|];
      destruct (pool_queueCounter_counts_queue_calls nat unit 2 8
                  (fun _ u => (returned, u)) tt 16 bs b [] 
                  (simple_pool.fresh
                     (simple_pool.simple_pool 2 8 (fun _ u => (returned, u))))
                  []
                  (roundrobin_pool.running
                     (roundrobin_pool.roundrobin_pool 2 8 (fun _ u => (returned, u))) tt))
        as (Hb & _ & _);
      destruct (Hb Hrun) as (_ & Hq); exact Hq
  end.
Defined.
Section simple_pool_threads.
Context {T U : Type}.
Variable max : Z.
Implicit Types (s : simple_pool.system T U) (e : simple_pool.pool_event T)
  (th : jthread T) (A B : list (jthread T)).

(** The next statement of a thread, read off the vector split at the
    thread. *)
Lemma simple_pool_thread_step_split q A st loc B g c l d (u : U) h dr n k :
  simple_pool.thread_step (length A)
    (simple_pool.mk_system
       (simple_pool.mk q (A ++ mk_jthread st loc :: B) (Some g) c l d) u h dr n k)
  = let moved loc' c' l' u' h' dr' :=
      Normal tt (simple_pool.mk_system
                   (simple_pool.mk q (A ++ mk_jthread st loc' :: B) (Some g) c' l' d)
                   u' h' dr' n k) in
    match loc with
    | at_while =>
        if st then moved finished c l u h dr else moved at_wait c l u h dr
    | at_wait =>
        if (0 <? c)%Z then moved at_lock (c - 1)%Z l u h dr
        else moved at_while c l u h dr
    | at_lock =>
        match l with
        | [] => moved at_while c l u h dr
        | x :: rest => moved (at_test x) c rest u h dr
        end
    | at_test x =>
        if st then moved at_while c l u h (dr ++ [x])
        else moved (at_callback x) c l u h dr
    | at_callback x => moved at_while c l (snd (g x u)) (h ++ [x]) dr
    | at_guard => moved at_guard c l u h dr
    | finished => moved finished c l u h dr
    end.
Proof.
  unfold simple_pool.thread_step. cbn [simple_pool.pool simple_pool.workers].
  rewrite list_lookup_middle by reflexivity.
  assert (Hins : forall th', <[length A := th']> (A ++ mk_jthread st loc :: B)
                             = A ++ th' :: B).
  { intros th'. rewrite insert_app_r_alt by lia.
    rewrite Nat.sub_diag. reflexivity. }
  cbn [location stop_requested].
  unfold simple_pool.on_pool, simple_pool.try_acquire_for,
    counting_semaphore.try_acquire_for, simple_pool.locked_extract,
    simple_pool.goto, simple_pool.invoke, simple_pool.let_go, call,
    try_catch_all, modify, gets, ret.
  unfold bind.
  destruct loc as [| | | |y|x|]; cbn.
  - destruct st; cbn; rewrite Hins; reflexivity.
  - destruct (0 <? c)%Z; cbn; rewrite ?Hins; reflexivity.
  - reflexivity.
  - destruct l as [|y l]; cbn; rewrite Hins; reflexivity.
  - destruct st; cbn; rewrite Hins; reflexivity.
  - destruct (g x u) as [[] u']; cbn; rewrite Hins; reflexivity.
  - reflexivity.
Qed.

Lemma simple_pool_in_flight_split q A th B (f : function T U) c l d :
  simple_pool.in_flight (simple_pool.mk q (A ++ th :: B) f c l d)
  = concat (map holding A) ++ holding th ++ concat (map holding B).
Proof.
  unfold simple_pool.in_flight. cbn.
  rewrite map_app, concat_app. reflexivity.
Qed.

(** What a statement of thread [i] does: no item is lost or duplicated;
    only the thread's own place in the loop changes; an item is let go
    only by a thread whose stop is requested; the callback is called
    only by a thread that stands at the call; a thread whose stop is
    requested does not come to the call, and is one statement nearer to
    leaving its loop. *)
Lemma simple_pool_thread_step_effect (i : nat) s :
  simple_pool.callback (simple_pool.pool s) <> None ->
  exists s',
    simple_pool.thread_step i s = Normal tt s'
    /\ simple_pool.callback (simple_pool.pool s') = simple_pool.callback (simple_pool.pool s)
    /\ simple_pool.accounted s' ≡ₚ simple_pool.accounted s
    /\ (forall j th,
          simple_pool.workers (simple_pool.pool s) !! j = Some th ->
          exists th',
            simple_pool.workers (simple_pool.pool s') !! j = Some th'
            /\ stop_requested th' = stop_requested th
            /\ (j <> i -> th' = th)
            /\ (location th <> at_guard -> location th' <> at_guard)
            /\ (stop_requested th = true -> (forall x, location th <> at_callback x) ->
                forall x, location th' <> at_callback x)
            /\ (stop_requested th = true ->
                simple_pool.statements_to_exit (location th')
                <= if decide (j = i)
                   then pred (simple_pool.statements_to_exit (location th))
                   else simple_pool.statements_to_exit (location th)))
    /\ length (simple_pool.workers (simple_pool.pool s'))
       = length (simple_pool.workers (simple_pool.pool s))
    /\ (forall th, simple_pool.workers (simple_pool.pool s) !! i = Some th ->
                   stop_requested th = false ->
                   simple_pool.dropped s' = simple_pool.dropped s)
    /\ (forall th, simple_pool.workers (simple_pool.pool s) !! i = Some th ->
                   (forall x, location th <> at_callback x) ->
                   simple_pool.invoked s' = simple_pool.invoked s).
Proof.
  destruct s as [[q ws f c l d] u h dr n k].
  cbn [simple_pool.pool simple_pool.callback simple_pool.workers simple_pool.producers
       simple_pool.dropped simple_pool.invoked].
  intros Hf. destruct f as [g|]; [clear Hf|congruence].
  destruct (ws !! i) as [th|] eqn:Hi.
  2:{ eexists. unfold simple_pool.thread_step. cbn. rewrite Hi.
      split; [reflexivity|]. split; [reflexivity|]. split; [reflexivity|].
      split; [|split; [reflexivity|split; discriminate]].
      intros j th Hj. exists th. split; [exact Hj|].
      split; [reflexivity|]. split; [reflexivity|]. split; [auto|].
      split; [auto|].
      intros _. destruct (decide (j = i)) as [->|_]; [congruence|lia]. }
  destruct (workers_split ws i th Hi) as (A & B & -> & <- & _).
  destruct th as [st loc].
  rewrite simple_pool_thread_step_split. cbn zeta.
  assert (Hthreads : forall loc',
            (loc <> at_guard -> loc' <> at_guard) ->
            (st = true -> (forall x, loc <> at_callback x) ->
             forall x, loc' <> at_callback x) ->
            (st = true -> simple_pool.statements_to_exit loc'
                          <= pred (simple_pool.statements_to_exit loc)) ->
            forall j th,
              (A ++ mk_jthread st loc :: B) !! j = Some th ->
              exists th',
                (A ++ mk_jthread st loc' :: B) !! j = Some th'
                /\ stop_requested th' = stop_requested th
                /\ (j <> length A -> th' = th)
                /\ (location th <> at_guard -> location th' <> at_guard)
                /\ (stop_requested th = true -> (forall x, location th <> at_callback x) ->
                    forall x, location th' <> at_callback x)
                /\ (stop_requested th = true ->
                    simple_pool.statements_to_exit (location th')
                    <= if decide (j = length A)
                       then pred (simple_pool.statements_to_exit (location th))
                       else simple_pool.statements_to_exit (location th))).
  { intros loc' Hg Hcall Hlt j th Hj.
    destruct (decide (j = length A)) as [->|Hne].
    - rewrite list_lookup_middle in Hj |- * by reflexivity.
      injection Hj as <-. eexists. split; [reflexivity|]. cbn.
      split; [reflexivity|]. split; [congruence|]. split; [exact Hg|].
      split; [exact Hcall|exact Hlt].
    - exists th. split.
      + rewrite <- Hj. apply lookup_middle_other. exact Hne.
      + split; [reflexivity|]. split; [reflexivity|]. split; [auto|].
        split; [auto|]. lia. }
  assert (Hlen : forall loc', length (A ++ mk_jthread st loc' :: B)
                              = length (A ++ mk_jthread st loc :: B)).
  { intros loc'. rewrite !length_app. reflexivity. }
  unfold simple_pool.accounted.
  assert (Hcase : forall loc' c' l' u' h' dr',
            (loc <> at_guard -> loc' <> at_guard) ->
            (st = true -> (forall x, loc <> at_callback x) ->
             forall x, loc' <> at_callback x) ->
            (st = true -> simple_pool.statements_to_exit loc'
                          <= pred (simple_pool.statements_to_exit loc)) ->
            h' ++ dr' ++ (concat (map holding A) ++ holding (mk_jthread st loc')
                          ++ concat (map holding B)) ++ l'
            ≡ₚ h ++ dr ++ (concat (map holding A) ++ holding (mk_jthread st loc)
                           ++ concat (map holding B)) ++ l ->
            (st = false -> dr' = dr) ->
            ((forall x, loc <> at_callback x) -> h' = h) ->
            exists s',
              Normal tt (simple_pool.mk_system
                           (simple_pool.mk q (A ++ mk_jthread st loc' :: B) (Some g) c' l' d)
                           u' h' dr' n k) = Normal tt s'
              /\ simple_pool.callback (simple_pool.pool s') = Some g
              /\ simple_pool.invoked s' ++ simple_pool.dropped s'
                 ++ simple_pool.in_flight (simple_pool.pool s')
                 ++ simple_pool.items (simple_pool.pool s')
                 ≡ₚ h ++ dr
                    ++ simple_pool.in_flight
                         (simple_pool.mk q (A ++ mk_jthread st loc :: B) (Some g) c l d)
                    ++ l
              /\ (forall j th,
                    (A ++ mk_jthread st loc :: B) !! j = Some th ->
                    exists th',
                      simple_pool.workers (simple_pool.pool s') !! j = Some th'
                      /\ stop_requested th' = stop_requested th
                      /\ (j <> length A -> th' = th)
                      /\ (location th <> at_guard -> location th' <> at_guard)
                      /\ (stop_requested th = true ->
                          (forall x, location th <> at_callback x) ->
                          forall x, location th' <> at_callback x)
                      /\ (stop_requested th = true ->
                          simple_pool.statements_to_exit (location th')
                          <= if decide (j = length A)
                             then pred (simple_pool.statements_to_exit (location th))
                             else simple_pool.statements_to_exit (location th)))
              /\ length (simple_pool.workers (simple_pool.pool s'))
                 = length (A ++ mk_jthread st loc :: B)
              /\ (forall th, Some (mk_jthread st loc) = Some th ->
                             stop_requested th = false -> simple_pool.dropped s' = dr)
              /\ (forall th, Some (mk_jthread st loc) = Some th ->
                             (forall x, location th <> at_callback x) ->
                             simple_pool.invoked s' = h)).
  { intros loc' c' l' u' h' dr' Hg Hcall Hlt Hperm Hdr Hh.
    eexists. split; [reflexivity|].
    cbn [simple_pool.pool simple_pool.callback simple_pool.workers
         simple_pool.producers simple_pool.dropped simple_pool.invoked
         simple_pool.items].
    rewrite !simple_pool_in_flight_split.
    split; [reflexivity|]. split; [exact Hperm|].
    split; [apply Hthreads; assumption|]. split; [apply Hlen|].
    split; intros th [= <-]; cbn; auto. }
  cbn [simple_pool.items] in *.
  destruct loc as [| | | |y|x|].
  - destruct st; apply Hcase; cbn; try congruence; try lia; reflexivity.
  - destruct (0 <? c)%Z; apply Hcase; cbn; try congruence; try lia; reflexivity.
  - apply Hcase; cbn; try congruence; try lia; reflexivity.
  - destruct l as [|y l]; apply Hcase; cbn; try congruence; try lia;
      try reflexivity. solve_Permutation.
  - destruct st; apply Hcase; cbn; try congruence; try lia;
      try reflexivity; solve_Permutation.
  - apply Hcase; cbn; try congruence; try lia;
      try (intros H; exfalso; exact (H x eq_refl)); solve_Permutation.
  - apply Hcase; cbn; try congruence; try lia; reflexivity.
Qed.

Lemma simple_pool_thread_step_absent (i : nat) s :
  simple_pool.workers (simple_pool.pool s) !! i = None ->
  simple_pool.thread_step i s = Normal tt s.
Proof. unfold simple_pool.thread_step. intros ->. reflexivity. Qed.

Lemma holding_request_stop (i : nat) (ws : list (jthread T)) :
  map holding (alter (fun th => mk_jthread true (location th)) i ws) = map holding ws.
Proof.
  revert i. induction ws as [|th ws IH]; intros [|i]; cbn; [reflexivity..| |].
  - reflexivity.
  - f_equal. apply IH.
Qed.

(** What holds of every thread still holds after a statement that keeps
    it of each thread. *)
Lemma threads_carried (P : jthread T -> Prop) (ws ws' : list (jthread T)) :
  length ws' = length ws ->
  (forall j th, ws !! j = Some th -> exists th', ws' !! j = Some th' /\ (P th -> P th')) ->
  (forall j th, ws !! j = Some th -> P th) ->
  forall j th', ws' !! j = Some th' -> P th'.
Proof.
  intros Hlen Hsame HP j th' Hj.
  pose proof (lookup_lt_Some _ _ _ Hj) as Hlt.
  destruct (lookup_lt_is_Some_2 ws j ltac:(lia)) as (th & Hth).
  destruct (Hsame j th Hth) as (th2 & Hj2 & Hst).
  rewrite Hj in Hj2. injection Hj2 as <-. exact (Hst (HP j th Hth)).
Qed.

(** A statement of a producer, of a thread or of the destructor: the
    items are all accounted for, and while no stop is requested nothing
    is let go. *)
Lemma simple_pool_pool_step_effect e s s' :
  simple_pool.callback (simple_pool.pool s) <> None ->
  simple_pool.pool_step max e s = Normal tt s' ->
  simple_pool.callback (simple_pool.pool s') <> None
  /\ simple_pool.accounted s' ≡ₚ simple_pool.accounted s ++ simple_pool.appended [e]
  /\ length (simple_pool.workers (simple_pool.pool s'))
     = length (simple_pool.workers (simple_pool.pool s))
  /\ (forall j th', simple_pool.workers (simple_pool.pool s') !! j = Some th' ->
        exists th, simple_pool.workers (simple_pool.pool s) !! j = Some th
                   /\ (location th <> at_guard -> location th' <> at_guard))
  /\ (simple_pool.stops_requested [e] = false ->
      (forall j th, simple_pool.workers (simple_pool.pool s) !! j = Some th ->
                    stop_requested th = false) ->
      simple_pool.dropped s' = simple_pool.dropped s
      /\ forall j th, simple_pool.workers (simple_pool.pool s') !! j = Some th ->
                      stop_requested th = false).
Proof.
  intros Hf. destruct e as [x| | |i| | |i].
  - destruct s as [[q ws f c l d] u h dr n k].
    unfold simple_pool.pool_step, simple_pool.on_pool, simple_pool.emplace_back, modify.
    unfold bind. cbn. intros [= <-]. unfold simple_pool.accounted. cbn.
    split; [exact Hf|]. split; [solve_Permutation|]. split; [reflexivity|].
    split; [eauto|]. auto.
  - destruct s as [[q ws f c l d] u h dr n k].
    unfold simple_pool.pool_step, simple_pool.on_pool, simple_pool.release,
      counting_semaphore.release, modify.
    unfold bind. cbn.
    destruct n as [|n].
    + intros [= <-]. cbn. rewrite app_nil_r. repeat split; eauto.
    + destruct (c <? _)%Z; [|discriminate]. intros [= <-].
      unfold simple_pool.accounted. cbn. rewrite app_nil_r. repeat split; eauto.
  - destruct s as [[q ws f c l d] u h dr n k].
    unfold simple_pool.pool_step, simple_pool.on_pool, modify.
    unfold bind. cbn.
    destruct k as [|k]; intros [= <-]; unfold simple_pool.accounted; cbn;
      rewrite app_nil_r; repeat split; eauto.
  - cbn [simple_pool.pool_step simple_pool.appended]. intros Hstep.
    destruct (simple_pool_thread_step_effect i s Hf)
      as (s1 & Hstep1 & Hcb & Hacc & Hth & Hlen & Hdr & _).
    rewrite Hstep in Hstep1. injection Hstep1 as <-.
    split; [congruence|]. split; [rewrite app_nil_r; exact Hacc|].
    split; [exact Hlen|]. split.
    + intros j th' Hj. pose proof (lookup_lt_Some _ _ _ Hj) as Hlt.
      destruct (lookup_lt_is_Some_2 (simple_pool.workers (simple_pool.pool s)) j
                  ltac:(lia)) as (th & Hth0).
      destruct (Hth j th Hth0) as (th2 & Hj2 & _ & _ & Hg & _).
      rewrite Hj in Hj2. injection Hj2 as <-. eauto.
    + intros _ Hclear. split.
      * destruct (simple_pool.workers (simple_pool.pool s) !! i) as [th|] eqn:Hi.
        -- exact (Hdr th eq_refl (Hclear i th Hi)).
        -- rewrite (simple_pool_thread_step_absent i s Hi) in Hstep.
           injection Hstep as <-. reflexivity.
      * apply (threads_carried (fun th => stop_requested th = false) _ _ Hlen);
          [|exact Hclear].
        intros j th Hj. destruct (Hth j th Hj) as (th' & Hj' & Hst & _).
        exists th'. split; [exact Hj'|congruence].
  - destruct s as [[q ws f c l d] u h dr n k].
    unfold simple_pool.pool_step, simple_pool.on_pool, modify. cbn.
    intros [= <-]. cbn. rewrite app_nil_r. repeat split; eauto.
  - destruct s as [[q ws f c l d] u h dr n k].
    unfold simple_pool.pool_step, simple_pool.on_pool, simple_pool.release,
      counting_semaphore.release. cbn.
    destruct (c <? _)%Z; [|discriminate]. intros [= <-].
    unfold simple_pool.accounted. cbn. rewrite app_nil_r. repeat split; eauto.
  - destruct s as [[q ws f c l d] u h dr n k].
    unfold simple_pool.pool_step, simple_pool.on_pool, simple_pool.request_stop, modify.
    cbn. intros [= <-].
    unfold simple_pool.accounted, simple_pool.in_flight. cbn.
    rewrite holding_request_stop, app_nil_r, length_alter.
    split; [exact Hf|]. split; [reflexivity|]. split; [reflexivity|].
    split; [|discriminate].
    intros j th' Hj. rewrite list_lookup_alter in Hj.
    destruct (decide (i = j)) as [->|Hne]; [|eauto].
    destruct (ws !! j) as [th|]; [|discriminate]. injection Hj as <-.
    exists th. split; [reflexivity|]. cbn. auto.
Qed.

Lemma simple_pool_appended_app (a b : list (simple_pool.pool_event T)) :
  simple_pool.appended (a ++ b) = simple_pool.appended a ++ simple_pool.appended b.
Proof.
  induction a as [|[x| | | | | |] a IH]; cbn; [reflexivity| |assumption..].
  rewrite IH. reflexivity.
Qed.

Lemma simple_pool_pool_run_effect (schedule : list (simple_pool.pool_event T)) :
  forall s s',
    simple_pool.callback (simple_pool.pool s) <> None ->
    (forall j th, simple_pool.workers (simple_pool.pool s) !! j = Some th ->
                  location th <> at_guard) ->
    simple_pool.pool_run max schedule s = Normal tt s' ->
    simple_pool.callback (simple_pool.pool s') <> None
    /\ (forall j th, simple_pool.workers (simple_pool.pool s') !! j = Some th ->
                     location th <> at_guard)
    /\ simple_pool.accounted s' ≡ₚ simple_pool.accounted s ++ simple_pool.appended schedule
    /\ (simple_pool.stops_requested schedule = false ->
        (forall j th, simple_pool.workers (simple_pool.pool s) !! j = Some th ->
                      stop_requested th = false) ->
        simple_pool.dropped s' = simple_pool.dropped s).
Proof.
  induction schedule as [|e schedule IH]; intros s s' Hf Hg Hrun.
  - cbn in Hrun. injection Hrun as <-. cbn. rewrite app_nil_r. auto.
  - cbn [simple_pool.pool_run] in Hrun. unfold bind in Hrun.
    destruct (simple_pool.pool_step max e s) as [[] s1| |] eqn:Hstep; try discriminate.
    destruct (simple_pool_pool_step_effect e s s1 Hf Hstep)
      as (Hf1 & Hacc1 & _ & Hback & Hclear1).
    assert (Hg1 : forall j th, simple_pool.workers (simple_pool.pool s1) !! j = Some th ->
                               location th <> at_guard).
    { intros j th1 Hj. destruct (Hback j th1 Hj) as (th & Hth & Hkeep).
      exact (Hkeep (Hg j th Hth)). }
    destruct (IH s1 s' Hf1 Hg1 Hrun) as (Hf' & Hg' & Hacc' & Hclear').
    split; [exact Hf'|]. split; [exact Hg'|]. split.
    + change (e :: schedule) with ([e] ++ schedule).
      rewrite simple_pool_appended_app, app_assoc, Hacc', Hacc1. reflexivity.
    + intros Hno Hclear.
      assert (Hno1 : simple_pool.stops_requested [e] = false
                     /\ simple_pool.stops_requested schedule = false).
      { destruct e; cbn in Hno |- *; auto; discriminate. }
      destruct Hno1 as (Hno1 & Hno').
      destruct (Hclear1 Hno1 Hclear) as (Hdr1 & Hclr1).
      rewrite (Hclear' Hno' Hclr1). exact Hdr1.
Qed.

(** Statements of the threads alone, in any order: they all run; a
    thread whose stop is requested comes one statement nearer to leaving
    its loop with each of its statements; and when the stop of every
    thread is requested and none stands at the call, the callback is not
    called. *)
Lemma simple_pool_threads_run (turns : list nat) : forall s,
  simple_pool.callback (simple_pool.pool s) <> None ->
  exists s',
    simple_pool.pool_run max (map simple_pool.thread turns) s = Normal tt s'
    /\ length (simple_pool.workers (simple_pool.pool s'))
       = length (simple_pool.workers (simple_pool.pool s))
    /\ (forall j th,
          simple_pool.workers (simple_pool.pool s) !! j = Some th ->
          exists th',
            simple_pool.workers (simple_pool.pool s') !! j = Some th'
            /\ stop_requested th' = stop_requested th
            /\ (location th <> at_guard -> location th' <> at_guard)
            /\ (stop_requested th = true ->
                simple_pool.statements_to_exit (location th')
                <= simple_pool.statements_to_exit (location th)
                   - List.count_occ Nat.eq_dec turns j))
    /\ ((forall j th, simple_pool.workers (simple_pool.pool s) !! j = Some th ->
                      stop_requested th = true
                      /\ forall x, location th <> at_callback x) ->
        simple_pool.invoked s' = simple_pool.invoked s).
Proof.
  induction turns as [|i turns IH]; intros s Hf.
  - exists s. split; [reflexivity|]. split; [reflexivity|]. split; [|reflexivity].
    intros j th Hj. exists th. split; [exact Hj|]. split; [reflexivity|].
    split; [auto|]. cbn. lia.
  - destruct (simple_pool_thread_step_effect i s Hf)
      as (s1 & Hstep & Hcb & _ & Hth & Hlen & _ & Hinv).
    destruct (IH s1 ltac:(congruence)) as (s' & Hrun & Hlen' & Hth' & Hinv').
    exists s'. cbn [map simple_pool.pool_run simple_pool.pool_step]. unfold bind.
    rewrite Hstep. split; [exact Hrun|]. split; [congruence|]. split.
    + intros j th Hj.
      destruct (Hth j th Hj) as (th1 & Hj1 & Hst1 & _ & Hg1 & _ & Hm1).
      destruct (Hth' j th1 Hj1) as (th' & Hj' & Hst' & Hg' & Hm').
      exists th'. split; [exact Hj'|]. split; [congruence|]. split; [auto|].
      intros Hst. specialize (Hm1 Hst). specialize (Hm' ltac:(congruence)).
      destruct (decide (j = i)) as [->|Hne].
      * rewrite List.count_occ_cons_eq by reflexivity. lia.
      * rewrite List.count_occ_cons_neq by congruence. lia.
    + intros Hall.
      rewrite Hinv'.
      * destruct (simple_pool.workers (simple_pool.pool s) !! i) as [th|] eqn:Hi.
        -- exact (Hinv th eq_refl (proj2 (Hall i th Hi))).
        -- rewrite (simple_pool_thread_step_absent i s Hi) in Hstep.
           injection Hstep as <-. reflexivity.
      * apply (threads_carried
                 (fun th => stop_requested th = true
                            /\ forall x, location th <> at_callback x) _ _ Hlen);
          [|exact Hall].
        intros j th Hj. destruct (Hth j th Hj) as (th1 & Hj1 & Hst1 & _ & _ & Hc1 & _).
        exists th1. split; [exact Hj1|].
        intros (Hst & Hnc). split; [congruence|exact (Hc1 Hst Hnc)].
Qed.
End simple_pool_threads.

(** X17.  The threads of a [simple_pool] account for every item, also
    while the pool is being destroyed.  In every interleaving of the
    statements of producers, pool threads and destructor that runs to a
    state: the items the callback was called with, those a thread took
    and let go, those the threads hold and those in the deque are, as a
    multiset, the items appended; and as long as no stop was requested
    no item is let go.  An item is let go by a thread that took it from
    the deque and then found its stop requested at the test
    [item && !st.stop_requested()]. *)
Theorem simple_pool_threads_account_for_every_item :
  forall (T U : Type) (max : Z) (N hc : nat) (c : T -> U -> completion * U) (u : U)
         (schedule : list (simple_pool.pool_event T)) (s : simple_pool.system T U),
    simple_pool.pool_run max schedule
      (simple_pool.running (simple_pool.simple_pool N hc c) u) = Normal tt s ->
    simple_pool.invoked s ++ simple_pool.dropped s
      ++ simple_pool.in_flight (simple_pool.pool s)
      ++ simple_pool.items (simple_pool.pool s)
    ≡ₚ simple_pool.appended schedule
    /\ (simple_pool.stops_requested schedule = false -> simple_pool.dropped s = [])
    /\ (forall i x,
          simple_pool.workers (simple_pool.pool s) !! i = Some (mk_jthread true (at_test x)) ->
          exists s',
            simple_pool.thread_step i s = Normal tt s'
            /\ simple_pool.dropped s' = simple_pool.dropped s ++ [x]
            /\ simple_pool.invoked s' = simple_pool.invoked s).
Proof.
  intros T U max N hc c u schedule s Hrun.
  set (s0 := simple_pool.running (simple_pool.simple_pool N hc c) u) in *.
  assert (Hf0 : simple_pool.callback (simple_pool.pool s0) <> None) by (cbn; congruence).
  assert (Hws0 : forall j th, simple_pool.workers (simple_pool.pool s0) !! j = Some th ->
                              th = started).
  { intros j th Hj. cbn in Hj. apply lookup_replicate in Hj as [-> _]. reflexivity. }
  assert (Hacc0 : simple_pool.accounted s0 = []).
  { unfold simple_pool.accounted, simple_pool.in_flight. cbn.
    induction (simple_pool.pool_size N hc); cbn; auto. }
  destruct (simple_pool_pool_run_effect max schedule s0 s Hf0) as (Hf & _ & Hacc & Hdr);
    [intros j th Hj; rewrite (Hws0 j th Hj); discriminate|exact Hrun|].
  rewrite Hacc0 in Hacc. split; [exact Hacc|]. split.
  - intros Hno. apply Hdr; [exact Hno|].
    intros j th Hj. rewrite (Hws0 j th Hj). reflexivity.
  - intros i x Hi. destruct s as [[q ws f k l d] u' h dr n cnt].
    cbn [simple_pool.pool simple_pool.workers simple_pool.callback] in Hi, Hf.
    destruct f as [g|]; [|congruence].
    destruct (workers_split ws i _ Hi) as (A & B & -> & <- & _).
    rewrite simple_pool_thread_step_split. cbn zeta.
    eexists. split; [reflexivity|]. split; reflexivity.
Qed.

Lemma simple_pool_threads_account_for_every_item_witness :
  let schedule :=
    [simple_pool.producer_push 3; simple_pool.producer_signal;
     simple_pool.destructor_interval; simple_pool.destructor_release;
     simple_pool.thread 0; simple_pool.thread 1; simple_pool.thread 0;
     simple_pool.destructor_request_stop 0; simple_pool.thread 1;
     simple_pool.thread 0; simple_pool.thread 0] in
  exists s,
    simple_pool.pool_run 16 schedule
      (simple_pool.running
         (simple_pool.simple_pool 2 8 (fun (_ : nat) (u : unit) => (returned, u))) tt)
    = Normal tt s
    /\ simple_pool.dropped s = [3]
    /\ simple_pool.invoked s ++ simple_pool.dropped s
         ++ simple_pool.in_flight (simple_pool.pool s)
         ++ simple_pool.items (simple_pool.pool s)
       ≡ₚ [3].
Proof.
  intros schedule. eexists.
  lazymatch goal with
  | |- simple_pool.pool_run _ _ ?i = Normal tt ?s /\ _ =>
      assert (Hrun : simple_pool.pool_run 16 schedule i = Normal tt s)
        by (vm_compute; reflexivity);
      split; [exact Hrun|]; split; [reflexivity|];
      destruct (simple_pool_threads_account_for_every_item nat unit 16 2 8
                  (fun _ u => (returned, u)) tt schedule s Hrun) as (Hacc & _);
      exact Hacc
  end.
Defined.

(** X18.  The joins of [~simple_pool()] return.  In any state the pool
    has reached, let the threads run statements in any order, producers
    and destructor being still: the run reaches a state; a thread whose
    stop was requested has left its loop once it has run four
    statements, whatever the other threads did in between (from its wait
    these are the wait, the locked block, the test of the item and the
    test of the [while]); and if the stop of every thread was requested
    and none stands at the call, the callback is not called any more,
    the items taken from the deque being let go. *)
Theorem simple_pool_stopped_threads_leave_the_loop :
  forall (T U : Type) (max : Z) (N hc : nat) (c : T -> U -> completion * U) (u : U)
         (schedule : list (simple_pool.pool_event T)) (s : simple_pool.system T U)
         (turns : list nat),
    simple_pool.pool_run max schedule
      (simple_pool.running (simple_pool.simple_pool N hc c) u) = Normal tt s ->
    exists s',
      simple_pool.pool_run max (map simple_pool.thread turns) s = Normal tt s'
      /\ (forall i th,
            simple_pool.workers (simple_pool.pool s) !! i = Some th ->
            stop_requested th = true ->
            simple_pool.statements_to_exit (location th)
            <= List.count_occ Nat.eq_dec turns i ->
            exists th', simple_pool.workers (simple_pool.pool s') !! i = Some th'
                        /\ location th' = finished)
      /\ (forall th : jthread T, simple_pool.statements_to_exit (location th) <= 4)
      /\ ((forall i th, simple_pool.workers (simple_pool.pool s) !! i = Some th ->
                        stop_requested th = true
                        /\ forall x, location th <> at_callback x) ->
          simple_pool.invoked s' = simple_pool.invoked s).
Proof.
  intros T U max N hc c u schedule s turns Hrun.
  set (s0 := simple_pool.running (simple_pool.simple_pool N hc c) u) in *.
  assert (Hf0 : simple_pool.callback (simple_pool.pool s0) <> None) by (cbn; congruence).
  destruct (simple_pool_pool_run_effect max schedule s0 s Hf0) as (Hf & Hg & _);
    [|exact Hrun|].
  { intros j th Hj. cbn in Hj. apply lookup_replicate in Hj as [-> _]. discriminate. }
  destruct (simple_pool_threads_run max turns s Hf) as (s' & Hrun' & _ & Hth & Hinv).
  exists s'. split; [exact Hrun'|]. split; [|split; [|exact Hinv]].
  - intros i th Hi Hst Hturns.
    destruct (Hth i th Hi) as (th' & Hi' & _ & Hg' & Hm).
    exists th'. split; [exact Hi'|].
    specialize (Hm Hst). specialize (Hg' (Hg i th Hi)).
    destruct (location th') as [| | | |y|x|] eqn:Hloc; cbn in Hm;
      [| | congruence | | | |reflexivity]; lia.
  - intros [st loc]. destruct loc; cbn; lia.
Qed.

Lemma simple_pool_stopped_threads_leave_the_loop_witness :
  let schedule :=
    [simple_pool.producer_push 3; simple_pool.producer_signal;
     simple_pool.thread 0; simple_pool.destructor_interval;
     simple_pool.destructor_release; simple_pool.destructor_request_stop 0] in
  exists s s' th',
    simple_pool.pool_run 16 schedule
      (simple_pool.running
         (simple_pool.simple_pool 2 8 (fun (_ : nat) (u : unit) => (returned, u))) tt)
    = Normal tt s
    /\ simple_pool.workers (simple_pool.pool s) !! 0 = Some (mk_jthread true at_wait)
    /\ simple_pool.pool_run 16 (map simple_pool.thread [0; 1; 0; 0; 0]) s = Normal tt s'
    /\ simple_pool.workers (simple_pool.pool s') !! 0 = Some th'
    /\ location th' = finished
    /\ simple_pool.dropped s' = [3].
Proof.
  intros schedule. eexists.
  lazymatch goal with
  | |- exists s' th', simple_pool.pool_run _ _ ?i = Normal tt ?s /\ _ =>
      assert (Hrun : simple_pool.pool_run 16 schedule i = Normal tt s)
        by (vm_compute; reflexivity);
      destruct (simple_pool_stopped_threads_leave_the_loop nat unit 16 2 8
                  (fun _ u => (returned, u)) tt schedule s [0; 1; 0; 0; 0] Hrun)
        as (s' & Hrun' & Hleave & _);
      destruct (Hleave 0 (mk_jthread true at_wait) eq_refl eq_refl
                  ltac:(vm_compute; lia)) as (th' & Hth' & Hfin);
      exists s', th'; split; [exact Hrun|]; split; [reflexivity|];
      split; [exact Hrun'|]; split; [exact Hth'|]; split; [exact Hfin|];
      revert Hrun'; vm_compute; intros [= <-]; reflexivity
  end.
Defined.
Section pools_without_threads.
Context {T U : Type}.




End pools_without_threads.



